(** * XApi background recorder: event correlation, serialized bounded
      persistence and the single-slot header-override rule.

    Shallow embedding of [src/background.ts].

    - JavaScript objects live in an explicit heap (a list of objects indexed
      by location), because the program shares object references between the
      pending table and the save queue.
    - The asynchronous calls ([chrome.storage.local.get] and [set], their
      callbacks, [setTimeout]) are a pool of outstanding tasks; the
      environment chooses which task makes progress, which network event
      arrives, when the user flips the toggle and how time passes.  A run is
      a list of such choices.
    - The decoder, the browser's check of a rule and the extension id come
      from the platform and are parameters of the development.
    - A run starts from the worker whose script has just been evaluated,
      over any content of the storage area that respects the capacity of the
      log.  The badge, the installation handler and the listener for storage
      changes act on what the worker shares with the browser; they are
      modelled apart from the event loop, on a record that holds the worker,
      the badge and the session rules. *)

From Stdlib Require Import ZArith String Ascii Lia.
From stdpp Require Import base option list gmap strings.

Local Open Scope string_scope.
Local Open Scope list_scope.
Local Open Scope nat_scope.

(** ** JavaScript string primitives used by the source *)

Module JsString.

(** [s.startsWith(p)] *)
Definition startsWith (s p : string) : bool := String.prefix p s.

(** [s.includes(p)] *)
Fixpoint includes (s p : string) : bool :=
  String.prefix p s ||
  match s with
  | EmptyString => false
  | String _ s' => includes s' p
  end.

(** [url.split('?')[0]]: the text before the first question mark. *)
Fixpoint split_qmark_0 (s : string) : string :=
  match s with
  | EmptyString => EmptyString
  | String c s' =>
      if Ascii.eqb c "?"%char then EmptyString else String c (split_qmark_0 s')
  end.

(** truthiness of a JavaScript string *)
Definition truthy (s : string) : bool :=
  match s with EmptyString => false | _ => true end.

End JsString.

(** ** Values, objects and the heap *)

Abbreviation loc := nat.

(** A form-data body is delivered by the browser as an object mapping field
    names to arrays of strings.  No statement of the source writes through
    it, so it is carried as an immutable datum. *)
Inductive jsval :=
| VStr (s : string)
| VNum (n : Z)
| VForm (fd : gmap string (list string))
| VRef (l : loc).

(** A JavaScript object: own enumerable properties. *)
Abbreviation obj := (gmap string jsval).

Abbreviation heap_t := (list obj).

(** JavaScript truthiness of a property read ([None] is [undefined]). *)
Definition truthy (v : option jsval) : bool :=
  match v with
  | None => false
  | Some (VStr s) => JsString.truthy s
  | Some (VNum n) => negb (Z.eqb n 0)
  | Some (VForm _) => true
  | Some (VRef _) => true
  end.

(** [{ ...a, ...b }]: the properties of [b] win. *)
Definition spread {V} (a b : gmap string V) : gmap string V := b ∪ a.

(** ** What [chrome.storage.local] holds

    Values handed to the storage API are cloned; the clone of a record is a
    tree without references.  Records of this program nest objects one level
    deep (the two header maps). *)

Inductive leaf :=
| LStr (s : string)
| LNum (n : Z)
| LForm (fd : gmap string (list string)).

Inductive sval :=
| SLeaf (a : leaf)
| SObj (o : gmap string leaf).

Abbreviation srec := (gmap string sval).

Global Instance leaf_eq_dec : EqDecision leaf.
Proof. solve_decision. Defined.
Global Instance sval_eq_dec : EqDecision sval.
Proof. solve_decision. Defined.
Global Instance jsval_eq_dec : EqDecision jsval.
Proof. solve_decision. Defined.

Definition leaf_of (v : jsval) : option leaf :=
  match v with
  | VStr s => Some (LStr s)
  | VNum n => Some (LNum n)
  | VForm fd => Some (LForm fd)
  | VRef _ => None
  end.

Definition clone (h : heap_t) (v : jsval) : option sval :=
  match v with
  | VRef l => o ← h !! l; Some (SObj (omap leaf_of o))
  | _ => SLeaf <$> leaf_of v
  end.

(** The clone of the object at [l], as the storage API would take it. *)
Definition snapshot (h : heap_t) (l : loc) : srec :=
  match h !! l with
  | Some o => omap (clone h) o
  | None => ∅
  end.

(** [a === b] on property reads of cloned records: [undefined] equals
    itself, strings and numbers compare by value, and two objects read from
    two records (a form-data body, a header map) are never the same
    object. *)
Definition strict_eq (a b : option sval) : bool :=
  match a, b with
  | None, None => true
  | Some (SLeaf (LStr x)), Some (SLeaf (LStr y)) => bool_decide (x = y)
  | Some (SLeaf (LNum x)), Some (SLeaf (LNum y)) => bool_decide (x = y)
  | _, _ => false
  end.

Definition struthy (v : option sval) : bool :=
  match v with
  | None => false
  | Some (SLeaf (LStr s)) => JsString.truthy s
  | Some (SLeaf (LNum n)) => negb (Z.eqb n 0)
  | Some _ => true
  end.

(** ** The record store (pure part of [processQueue]) *)

Definition MAX_LOGS : nat := 100.

(** [currentLogs.findIndex(l => l.id === logToSave.id)] *)
Fixpoint findIndex (logToSave : srec) (currentLogs : list srec) : option nat :=
  match currentLogs with
  | [] => None
  | l :: rest =>
      if strict_eq (l !! "id") (logToSave !! "id") then Some 0
      else S <$> findIndex logToSave rest
  end.

(** What the body of the [get] callback decides: write a new list, or drop
    the record. *)
Inductive decision :=
| Write (newLogs : list srec)
| Drop.

Definition decide_save (logToSave : srec) (result : option (list srec)) : decision :=
  let currentLogs := default [] result in
  match findIndex logToSave currentLogs with
  | Some idx =>
      match currentLogs !! idx with
      | Some cur => Write (<[idx := spread cur logToSave]> currentLogs)
      | None => Write currentLogs
      end
  | None =>
      if negb (struthy (logToSave !! "url")) then Drop
      else Write (take MAX_LOGS (logToSave :: currentLogs))
  end.

(** ** Events delivered by [chrome.webRequest] *)

Record HttpHeader := { name : string; value : option string }.

Record UploadData := { bytes : option (list Byte.byte) }.

Record RequestBody := {
  raw : option (list UploadData);
  formData : option (gmap string (list string)) }.

(** The [details] argument of the five listeners (each listener reads the
    fields of its own event). *)
Record details := {
  requestId : string;
  url : string;
  method : string;
  type : string;
  initiator : option string;
  requestBody : option RequestBody;
  requestHeaders : option (list HttpHeader);
  responseHeaders : option (list HttpHeader);
  statusCode : Z;
  error : string }.

(** The three listeners that start with a read of [isRecording]. *)
Inductive phase := BeforeRequest | BeforeSendHeaders | HeadersReceived.

(** Outstanding asynchronous work: a storage call that the backend has not
    performed yet, a callback that has not run yet, or a timer. *)
Inductive task :=
| GetIsRecording (p : phase) (d : details)
| CbIsRecording (p : phase) (d : details) (isRecording : bool)
| GetLogs (logToSave : loc)
| CbGetLogs (logToSave : loc) (logs : option (list srec))
| SetLogs (logToSave : loc) (newLogs : list srec)
| CbSetLogs (logToSave : loc)
| Timeout (requestId : string) (due : Z).

Record state := mkState {
  heap : heap_t;
  pendingRequests : gmap string loc;
  isSaving : bool;
  saveQueue : list loc;
  tasks : list task;
  storage_isRecording : bool;
  storage_logs : option (list srec);
  clock : Z }.

Definition with_heap (h : heap_t) (s : state) : state :=
  mkState h (pendingRequests s) (isSaving s) (saveQueue s) (tasks s)
          (storage_isRecording s) (storage_logs s) (clock s).
Definition with_pending (p : gmap string loc) (s : state) : state :=
  mkState (heap s) p (isSaving s) (saveQueue s) (tasks s)
          (storage_isRecording s) (storage_logs s) (clock s).
Definition with_isSaving (b : bool) (s : state) : state :=
  mkState (heap s) (pendingRequests s) b (saveQueue s) (tasks s)
          (storage_isRecording s) (storage_logs s) (clock s).
Definition with_saveQueue (q : list loc) (s : state) : state :=
  mkState (heap s) (pendingRequests s) (isSaving s) q (tasks s)
          (storage_isRecording s) (storage_logs s) (clock s).
Definition with_tasks (t : list task) (s : state) : state :=
  mkState (heap s) (pendingRequests s) (isSaving s) (saveQueue s) t
          (storage_isRecording s) (storage_logs s) (clock s).
Definition with_isRecording (b : bool) (s : state) : state :=
  mkState (heap s) (pendingRequests s) (isSaving s) (saveQueue s) (tasks s)
          b (storage_logs s) (clock s).
Definition with_logs (l : option (list srec)) (s : state) : state :=
  mkState (heap s) (pendingRequests s) (isSaving s) (saveQueue s) (tasks s)
          (storage_isRecording s) l (clock s).
Definition with_clock (c : Z) (s : state) : state :=
  mkState (heap s) (pendingRequests s) (isSaving s) (saveQueue s) (tasks s)
          (storage_isRecording s) (storage_logs s) c.

(** The service worker right after its script has run: no pending request,
    an empty queue, whatever the storage area already holds. *)
Definition init (isRecording : bool) (logs : option (list srec)) (now : Z) : state :=
  mkState [] ∅ false [] [] isRecording logs now.

(** *** Heap primitives *)

(** an object literal *)
Definition alloc (o : obj) (s : state) : loc * state :=
  (length (heap s), with_heap (heap s ++ [o]) s).

(** [l[k] = v] *)
Definition set_prop (l : loc) (k : string) (v : jsval) (s : state) : state :=
  with_heap (alter (<[k := v]>) l (heap s)) s.

(** [l[k] = v] for a computed key [k] and a string [v], on an object whose
    prototype is [Object.prototype]: the key [__proto__] names the accessor
    that the object inherits, whose setter ignores a value that is not an
    object, so that nothing is stored; with any other key the assignment
    makes or updates an own property. *)
Definition set_computed (l : loc) (k : string) (v : string) (s : state) : state :=
  if bool_decide (k = "__proto__") then s else set_prop l k (VStr v) s.

(** [l[k]] *)
Definition get_prop (l : loc) (k : string) (s : state) : option jsval :=
  o ← heap s !! l; o !! k.

(** the own properties of what a property read yields, as a spread sees
    them (a missing value or a primitive contributes none) *)
Definition props_of (v : option jsval) (s : state) : obj :=
  match v with
  | Some (VRef l) => default ∅ (heap s !! l)
  | _ => ∅
  end.

Definition spawn (t : task) (s : state) : state :=
  with_tasks (tasks s ++ [t]) s.

(** ** The storage queue *)

Definition processQueue (s : state) : state :=
  if isSaving s then s else
  match saveQueue s with
  | [] => s
  | logToSave :: rest =>
      spawn (GetLogs logToSave) (with_saveQueue rest (with_isSaving true s))
  end.

(** the body of the callback of [chrome.storage.local.get(['logs'], ...)] *)
Definition processQueue_got (logToSave : loc) (result : option (list srec))
    (s : state) : state :=
  match decide_save (snapshot (heap s) logToSave) result with
  | Drop =>
      let s1 := with_isSaving false s in
      if bool_decide (0 < length (saveQueue s1)) then processQueue s1 else s1
  | Write newLogs => spawn (SetLogs logToSave newLogs) s
  end.

(** the callback of [chrome.storage.local.set({ logs: newLogs }, ...)] *)
Definition processQueue_set (s : state) : state :=
  let s1 := with_isSaving false s in
  if bool_decide (0 < length (saveQueue s1)) then processQueue s1 else s1.

Definition saveLog (log : loc) (s : state) : state :=
  let '(copy, s1) := alloc (default ∅ (heap s !! log)) s in
  processQueue (with_saveQueue (saveQueue s1 ++ [copy]) s1).

(** ** Header-override rules ([chrome.declarativeNetRequest]) *)

Module Dnr.

Inductive HeaderOperation := APPEND | SET | REMOVE.
Inductive RuleActionType := BLOCK | REDIRECT | ALLOW | MODIFY_HEADERS.
Inductive ResourceType := MAIN_FRAME | SUB_FRAME | XMLHTTPREQUEST | OTHER.

Record ModifyHeaderInfo := {
  header : option string;
  operation : HeaderOperation;
  value : option string }.

Record RuleAction := {
  type : RuleActionType;
  requestHeaders : list ModifyHeaderInfo }.

Record RuleCondition := {
  urlFilter : string;
  resourceTypes : list ResourceType }.

Record Rule := {
  id : Z;
  priority : Z;
  action : RuleAction;
  condition : RuleCondition }.

(** an element of [message.headers]: [{ key | name, value }] *)
Record KeyValue := {
  key : option string;
  name : option string;
  kv_value : option string }.

Inductive message :=
| SET_REQUEST_HEADERS (url : string) (headers : list KeyValue)
| CLEAR_REQUEST_HEADERS
| OtherMessage (type : string).

(** the argument of [sendResponse] *)
Record response := { success : bool; error : option string }.

End Dnr.

(** ** The listeners *)

Section Background.

(** [chrome.runtime.id] *)
Variable EXTENSION_ID : string.

(** [new TextDecoder("utf-8").decode(bytes)]; [None] when it throws. *)
Variable TextDecoder_decode : option (list Byte.byte) → option string.

(** The browser's check of a rule handed to [updateSessionRules]: [Some msg]
    when the rule is rejected with the error message [msg]. *)
Variable rule_error : Dnr.Rule → option string.

Definition isExtensionRequest (d : details) : bool :=
  match initiator d with
  | Some i => JsString.includes i EXTENSION_ID
  | None => false
  end
  || JsString.startsWith (url d) "chrome-extension://"
  || JsString.startsWith (url d) "data:"
  || JsString.startsWith (url d) "blob:".

Definition isApiRequest (d : details) : bool :=
  bool_decide (type d = "xmlhttprequest").

(** The pending table is a plain object indexed by the request id.  The ids
    that [chrome.webRequest] issues are decimal numerals, none of which
    names a member of [Object.prototype]; a read of the table at such an id
    sees the entries only, as a lookup in a finite map does. *)
Definition getOrCreatePending (requestId : string) (s : state) : loc * state :=
  match pendingRequests s !! requestId with
  | Some l => (l, s)
  | None =>
      let '(rq, s1) := alloc ∅ s in
      let '(rs, s2) := alloc ∅ s1 in
      let '(l, s3) :=
        alloc (<["id" := VStr requestId]>
               (<["status" := VNum 0%Z]>
               (<["timestamp" := VNum (clock s)]>
               (<["requestHeaders" := VRef rq]>
               (<["responseHeaders" := VRef rs]> ∅))))) s2 in
      (l, with_pending (<[requestId := l]> (pendingRequests s3)) s3)
  end.

(** [h.value || ''] *)
Definition value_or_empty (h : HttpHeader) : string :=
  match value h with
  | Some v => if JsString.truthy v then v else ""
  | None => ""
  end.

(** [hs?.forEach(h => { headers[h.name] = h.value || ''; })] on the fresh
    object [headers] *)
Definition collect_headers (hs : option (list HttpHeader)) (headers : loc)
    (s : state) : state :=
  foldl (λ s h, set_computed headers (name h) (value_or_empty h) s)
        s (default [] hs).

(** [log[k] = { ...log[k], ...headers }] after filling [headers] *)
Definition merge_headers (log : loc) (k : string)
    (hs : option (list HttpHeader)) (s : state) : state :=
  let '(headers, s1) := alloc ∅ s in
  let s2 := collect_headers hs headers s1 in
  let '(merged, s3) :=
    alloc (spread (props_of (get_prop log k s2) s2)
                  (default ∅ (heap s2 !! headers))) s2 in
  set_prop log k (VRef merged) s3.

Definition capture_body (log : loc) (d : details) (s : state) : state :=
  match requestBody d with
  | None => s
  | Some body =>
      match raw body with
      | Some (first :: _) =>
          match TextDecoder_decode (bytes first) with
          | Some text => set_prop log "requestBody" (VStr text) s
          | None => set_prop log "requestBody" (VStr "[Binary Data]") s
          end
      | _ =>
          match formData body with
          | Some fd => set_prop log "requestBody" (VForm fd) s
          | None => s
          end
      end
  end.

(** The synchronous part of the three listeners that consult the toggle:
    the filters, then [chrome.storage.local.get(['isRecording'], ...)]. *)
Definition onBeforeRequest (d : details) (s : state) : state :=
  if isExtensionRequest d || bool_decide (type d = "ping") || negb (isApiRequest d)
  then s else spawn (GetIsRecording BeforeRequest d) s.

Definition onBeforeSendHeaders (d : details) (s : state) : state :=
  if isExtensionRequest d || negb (isApiRequest d)
  then s else spawn (GetIsRecording BeforeSendHeaders d) s.

Definition onHeadersReceived (d : details) (s : state) : state :=
  if isExtensionRequest d || negb (isApiRequest d)
  then s else spawn (GetIsRecording HeadersReceived d) s.

(** The callbacks of those reads. *)
Definition recording_got (p : phase) (d : details) (isRecording : bool)
    (s : state) : state :=
  if negb isRecording then s else
  let '(log, s1) := getOrCreatePending (requestId d) s in
  match p with
  | BeforeRequest =>
      let s2 := set_prop log "url" (VStr (url d)) s1 in
      let s3 := set_prop log "method" (VStr (method d)) s2 in
      let s4 := set_prop log "type" (VStr (type d)) s3 in
      saveLog log (capture_body log d s4)
  | BeforeSendHeaders =>
      saveLog log (merge_headers log "requestHeaders" (requestHeaders d) s1)
  | HeadersReceived =>
      saveLog log (merge_headers log "responseHeaders" (responseHeaders d) s1)
  end.

Definition GRACE_DELAY : Z := 2000%Z.

Definition onCompleted (d : details) (s : state) : state :=
  match pendingRequests s !! requestId d with
  | Some log =>
      if isApiRequest d then
        let s1 := set_prop log "status" (VNum (statusCode d)) s in
        let s2 := saveLog log s1 in
        spawn (Timeout (requestId d) (clock s2 + GRACE_DELAY)%Z) s2
      else s
  | None => s
  end.

Definition onErrorOccurred (d : details) (s : state) : state :=
  match pendingRequests s !! requestId d with
  | Some log =>
      if isApiRequest d then
        let s1 := set_prop log "status" (VNum 0%Z) s in
        let s2 := set_prop log "error" (VStr (error d)) s1 in
        let s3 := saveLog log s2 in
        with_pending (delete (requestId d) (pendingRequests s3)) s3
      else s
  | None => s
  end.

(** ** The event loop *)

(** One outstanding task makes progress.  A storage call is performed by the
    backend and leaves its callback outstanding; a callback or a due timer
    runs to completion. *)
Definition run_task (t : task) (s : state) : option state :=
  match t with
  | GetIsRecording p d => Some (spawn (CbIsRecording p d (storage_isRecording s)) s)
  | CbIsRecording p d r => Some (recording_got p d r s)
  | GetLogs l => Some (spawn (CbGetLogs l (storage_logs s)) s)
  | CbGetLogs l r => Some (processQueue_got l r s)
  | SetLogs l newLogs => Some (spawn (CbSetLogs l) (with_logs (Some newLogs) s))
  | CbSetLogs _ => Some (processQueue_set s)
  | Timeout id due =>
      if bool_decide (due ≤ clock s)%Z
      then Some (with_pending (delete id (pendingRequests s)) s)
      else None
  end.

(** What the environment can do: deliver a network event, flip the toggle
    (the user interface writes [isRecording]), let time pass, or let the
    [i]-th outstanding task make progress. *)
Inductive action :=
| BeforeRequestEv (d : details)
| BeforeSendHeadersEv (d : details)
| HeadersReceivedEv (d : details)
| CompletedEv (d : details)
| ErrorOccurredEv (d : details)
| SetRecording (b : bool)
| Tick (dt : Z)
| Run (i : nat).

Definition exec (a : action) (s : state) : option state :=
  match a with
  | BeforeRequestEv d => Some (onBeforeRequest d s)
  | BeforeSendHeadersEv d => Some (onBeforeSendHeaders d s)
  | HeadersReceivedEv d => Some (onHeadersReceived d s)
  | CompletedEv d => Some (onCompleted d s)
  | ErrorOccurredEv d => Some (onErrorOccurred d s)
  | SetRecording b => Some (with_isRecording b s)
  | Tick dt => if bool_decide (0 ≤ dt)%Z then Some (with_clock (clock s + dt)%Z s) else None
  | Run i =>
      t ← tasks s !! i;
      run_task t (with_tasks (delete i (tasks s)) s)
  end.

(** the event that starts the listener of a phase *)
Definition event_of (p : phase) (d : details) : action :=
  match p with
  | BeforeRequest => BeforeRequestEv d
  | BeforeSendHeaders => BeforeSendHeadersEv d
  | HeadersReceived => HeadersReceivedEv d
  end.

Fixpoint run (tr : list action) (s : state) : option state :=
  match tr with
  | [] => Some s
  | a :: tr' => s' ← exec a s; run tr' s'
  end.

Definition reachable (s : state) : Prop :=
  ∃ isRecording logs now tr,
    length (default [] logs) ≤ MAX_LOGS ∧ run tr (init isRecording logs now) = Some s.

(** ** The rule manager ([chrome.runtime.onMessage]) *)

(** [chrome.declarativeNetRequest.updateSessionRules({ removeRuleIds,
    addRules })]: the rules with a listed id are removed, then the new rules
    are added; a rejected rule leaves the active set as it was and the
    promise is rejected with the browser's message. *)
Definition updateSessionRules (removeRuleIds : list Z) (addRules : list Dnr.Rule)
    (active : list Dnr.Rule) : list Dnr.Rule * option string :=
  match list_find (λ r, is_Some (rule_error r)) addRules with
  | Some (_, r) => (active, rule_error r)
  | None =>
      (filter (λ r, Dnr.id r ∉ removeRuleIds) active ++ addRules, None)
  end.

(** [h.key || h.name] *)
Definition key_or_name (h : Dnr.KeyValue) : option string :=
  match Dnr.key h with
  | Some k => if JsString.truthy k then Some k else Dnr.name h
  | None => Dnr.name h
  end.

Definition override_rule (url : string) (headers : list Dnr.KeyValue) : Dnr.Rule :=
  let ruleId := 1%Z in
  let requestHeaders :=
    (λ h, {| Dnr.header := key_or_name h;
             Dnr.operation := Dnr.SET;
             Dnr.value := Dnr.kv_value h |}) <$> headers in
  let cleanUrl := JsString.split_qmark_0 url in
  {| Dnr.id := ruleId;
     Dnr.priority := 999%Z;
     Dnr.action := {| Dnr.type := Dnr.MODIFY_HEADERS;
                      Dnr.requestHeaders := requestHeaders |};
     Dnr.condition := {| Dnr.urlFilter := cleanUrl;
                         Dnr.resourceTypes := [Dnr.XMLHTTPREQUEST] |} |}.

(** The listener, with the promise settled: the new active rule set and what
    [sendResponse] receives ([None]: the message is not answered). *)
Definition onMessage (m : Dnr.message) (active : list Dnr.Rule)
    : list Dnr.Rule * option Dnr.response :=
  match m with
  | Dnr.SET_REQUEST_HEADERS url headers =>
      match updateSessionRules [1%Z] [override_rule url headers] active with
      | (active', None) =>
          (active', Some {| Dnr.success := true; Dnr.error := None |})
      | (active', Some msg) =>
          (active', Some {| Dnr.success := false; Dnr.error := Some msg |})
      end
  | Dnr.CLEAR_REQUEST_HEADERS =>
      match updateSessionRules [1%Z] [] active with
      | (active', None) =>
          (active', Some {| Dnr.success := true; Dnr.error := None |})
      | (active', Some _) => (active', None)
      end
  | Dnr.OtherMessage _ => (active, None)
  end.

(** the active rules after a series of messages, starting with none *)
Definition rules_after (ms : list Dnr.message) : list Dnr.Rule :=
  foldl (λ active m, (onMessage m active).1) [] ms.

(** ** Notions used in the statements *)

(** whether the character [c] occurs in [s] *)
Fixpoint has_char (c : ascii) (s : string) : bool :=
  match s with
  | EmptyString => false
  | String c' s' => Ascii.eqb c c' || has_char c s'
  end.

(** the tasks of a read-merge-write of [processQueue] *)
Definition is_save_task (t : task) : bool :=
  match t with
  | GetLogs _ | CbGetLogs _ _ | SetLogs _ _ | CbSetLogs _ => true
  | _ => false
  end.

(** the read-merge-writes that are outstanding *)
Definition in_flight (s : state) : list task :=
  filter is_save_task (tasks s).

(** the record a read-merge-write is about, until its write is performed *)
Definition unapplied (t : task) : option loc :=
  match t with
  | GetLogs q | CbGetLogs q _ | SetLogs q _ => Some q
  | _ => None
  end.

(** the records that were handed to [saveLog] and are not yet applied to the
    stored logs, oldest first *)
Definition work (s : state) : list loc :=
  omap unapplied (in_flight s) ++ saveQueue s.

(** one read-merge-write, as a function on the stored logs *)
Definition apply_record (r : srec) (logs : option (list srec)) : option (list srec) :=
  match decide_save r logs with
  | Write newLogs => Some newLogs
  | Drop => logs
  end.

(** A location that no listener writes to: allocated, and not an entry of
    the pending table. *)
Definition stable_loc (s : state) (l : loc) : Prop :=
  l < length (heap s) ∧ ∀ id, pendingRequests s !! id ≠ Some l.

(** The discipline of the heap: entries are allocated, no object refers to
    an entry, and the unapplied records are not entries. *)
Definition inv_heap (s : state) : Prop :=
  (∀ id l, pendingRequests s !! id = Some l → l < length (heap s)) ∧
  (∀ l o k r, heap s !! l = Some o → o !! k = Some (VRef r) → stable_loc s r) ∧
  (∀ q, q ∈ work s → stable_loc s q).

(** what an outstanding read-merge-write carries is up to date *)
Definition task_ok (s : state) (t : task) : Prop :=
  match t with
  | CbGetLogs _ r => r = storage_logs s
  | SetLogs q newLogs =>
      decide_save (snapshot (heap s) q) (storage_logs s) = Write newLogs
  | _ => True
  end.

(** the flag is set exactly while one read-merge-write is outstanding, and
    the queue is empty when it is not set *)
Definition inv_save (s : state) : Prop :=
  if isSaving s then ∃ t, in_flight s = [t] ∧ task_ok s t
  else in_flight s = [] ∧ saveQueue s = [].

(** the invariant of the event loop *)
Definition inv (s : state) : Prop := inv_heap s ∧ inv_save s.

(** the stored logs respect the capacity of the log *)
Definition bounded (s : state) : Prop :=
  length (default [] (storage_logs s)) ≤ MAX_LOGS.

(** what a step leaves alone *)
Definition frame (s s' : state) : Prop :=
  length (heap s) ≤ length (heap s') ∧
  (∀ l, stable_loc s l → heap s' !! l = heap s !! l) ∧
  (∀ id l, pendingRequests s' !! id = Some l →
           pendingRequests s !! id = Some l ∨ length (heap s) ≤ l).

(** what the [forEach] loop leaves in the object it fills: the headers by
    name, but for a header named [__proto__], which is not stored *)
Definition fill_headers (hs : list HttpHeader) (o : obj) : obj :=
  foldl (λ o h, if bool_decide (name h = "__proto__") then o
                else <[name h := VStr (value_or_empty h)]> o) o hs.

(** a step that leaves the storage queue and the stored logs alone *)
Definition quiet (s s' : state) : Prop :=
  isSaving s' = isSaving s ∧ saveQueue s' = saveQueue s ∧
  in_flight s' = in_flight s ∧
  storage_logs s' = storage_logs s.

(** a part of a listener that respects the heap discipline *)
Definition unit_ok (s s' : state) : Prop :=
  inv_heap s → inv_heap s' ∧ frame s s' ∧ quiet s s'.

(** [l] is the object of an entry of the pending table *)
Definition is_entry (s : state) (l : loc) : Prop :=
  ∃ id, pendingRequests s !! id = Some l.

(** The store queue as a first-in first-out buffer: a step either appends
    to the unapplied records, or applies the oldest of them to the stored
    logs. *)
Definition queue_step (s s' : state) : Prop :=
  (∃ new, work s' = work s ++ new ∧ storage_logs s' = storage_logs s) ∨
  (∃ q rest, work s = q :: rest ∧ work s' = rest ∧
     storage_logs s' = apply_record (snapshot (heap s) q) (storage_logs s)).

(** the timers among the tasks *)
Definition is_timeout (t : task) : bool :=
  match t with Timeout _ _ => true | _ => false end.

(** the stored value of a field of the first stored record *)
Definition stored_field (k : string) (s : state) : option sval :=
  r ← default [] (storage_logs s) !! 0; r !! k.

(** the rule set holds nothing, or the one override rule *)
Definition single_slot (active : list Dnr.Rule) : Prop :=
  active = [] ∨ ∃ url headers, active = [override_rule url headers].

(** ** Events handled one after the other

    A schedule in which every outstanding storage call and callback is run
    before the environment acts again; a timer runs once it is due. *)

(** a task that can make progress at the time [now] *)
Definition runnable (now : Z) (t : task) : bool :=
  match t with
  | Timeout _ due => bool_decide (due ≤ now)%Z
  | _ => true
  end.

(** the oldest task that can make progress *)
Definition next_task (s : state) : option nat :=
  fst <$> list_find (λ t, runnable (clock s) t) (tasks s).

(** run tasks until none can make progress (at most [fuel] of them) *)
Fixpoint settle (fuel : nat) (s : state) : state :=
  match fuel with
  | 0 => s
  | S fuel' =>
      match next_task s with
      | Some i =>
          match exec (Run i) s with
          | Some s' => settle fuel' s'
          | None => s
          end
      | None => s
      end
  end.

(** one action of the environment, then the tasks it leaves *)
Definition deliver (s : state) (a : action) : state :=
  match exec a s with
  | Some s' => settle (6 + length (tasks s')) s'
  | None => s
  end.

Definition run_settled (tr : list action) (s : state) : state :=
  foldl deliver s tr.



(** *** What the specification expects of the stored record *)

(** a header list merged key-wise into a map, later values winning; a
    header named [__proto__] is the one that an assignment to an object
    cannot store *)
Definition add_headers (hs : list HttpHeader) (m : gmap string string)
    : gmap string string :=
  foldl (λ m h, if bool_decide (name h = "__proto__") then m
                else <[name h := value_or_empty h]> m) m hs.













(** the record stored for [id], if any: the first with that identifier *)
Definition stored_in (id : string) (logs : option (list srec)) : option srec :=
  idx ← findIndex {[ "id" := SLeaf (LStr id) ]} (default [] logs);
  default [] logs !! idx.

Definition stored_record (id : string) (s : state) : option srec :=
  stored_in id (storage_logs s).

(** the clone of an entry right after [getOrCreatePending] made it *)
Definition fresh_record (id : string) (now : Z) : srec :=
  <["id" := SLeaf (LStr id)]>
  (<["status" := SLeaf (LNum 0)]>
  (<["timestamp" := SLeaf (LNum now)]>
  (<["requestHeaders" := SObj ∅]>
  (<["responseHeaders" := SObj ∅]> ∅)))).

(** what the three listeners that consult the toggle do to the clone of the
    entry *)
Definition body_update (d : details) (r : srec) : srec :=
  match requestBody d with
  | None => r
  | Some body =>
      match raw body with
      | Some (first :: _) =>
          <["requestBody" :=
             SLeaf (LStr (default "[Binary Data]" (TextDecoder_decode (bytes first))))]> r
      | _ =>
          match formData body with
          | Some fd => <["requestBody" := SLeaf (LForm fd)]> r
          | None => r
          end
      end
  end.

Definition headers_update (k : string) (hs : option (list HttpHeader)) (r : srec)
    : srec :=
  let old := match r !! k with Some (SObj x) => x | _ => ∅ end in
  <[k := SObj ((LStr <$> add_headers (default [] hs) ∅) ∪ old)]> r.

Definition phase_update (p : phase) (d : details) (r : srec) : srec :=
  match p with
  | BeforeRequest =>
      body_update d
        (<["type" := SLeaf (LStr (type d))]>
        (<["method" := SLeaf (LStr (method d))]>
        (<["url" := SLeaf (LStr (url d))]> r)))
  | BeforeSendHeaders => headers_update "requestHeaders" (requestHeaders d) r
  | HeadersReceived => headers_update "responseHeaders" (responseHeaders d) r
  end.

(** what a callback does to the entry before it calls [saveLog] *)
Definition phase_body (p : phase) (d : details) (log : loc) (s : state) : state :=
  match p with
  | BeforeRequest =>
      capture_body log d
        (set_prop log "type" (VStr (type d))
           (set_prop log "method" (VStr (method d))
              (set_prop log "url" (VStr (url d)) s)))
  | BeforeSendHeaders => merge_headers log "requestHeaders" (requestHeaders d) s
  | HeadersReceived => merge_headers log "responseHeaders" (responseHeaders d) s
  end.

(** a step that changes the heap only *)
Definition same_ctl (s s' : state) : Prop :=
  pendingRequests s' = pendingRequests s ∧ tasks s' = tasks s ∧
  isSaving s' = isSaving s ∧ saveQueue s' = saveQueue s ∧
  storage_logs s' = storage_logs s ∧
  storage_isRecording s' = storage_isRecording s ∧ clock s' = clock s.


(** only timers that are not due remain *)
Definition waiting (s : state) : Prop :=
  Forall (λ t, runnable (clock s) t = false) (tasks s).


(** the clone of the entry of [id], or of the entry that would be made *)
Definition base_record (id : string) (s : state) : srec :=
  match pendingRequests s !! id with
  | Some l => snapshot (heap s) l
  | None => fresh_record id (clock s)
  end.




(** the field [k] of the stored record of request [id] *)
Definition stored_value (id k : string) (s : state) : option sval :=
  r ← stored_record id s; r !! k.

(** ** Sample data *)

(** a strict decoder for the samples: seven-bit text only *)
Definition ascii_decode (b : option (list Byte.byte)) : option string :=
  match b with
  | None => Some ""
  | Some bs =>
      if forallb (λ x, Nat.ltb (Byte.to_nat x) 128) bs
      then Some (string_of_list_byte bs) else None
  end.

Definition sample_id : string := "fakeextensionidfakeextensionid00".

Definition accept_all (r : Dnr.Rule) : option string := None.

Definition sample_details (id : string) : details :=
  {| requestId := id;
     url := "https://api.x/y?page=2";
     method := "POST";
     type := "xmlhttprequest";
     initiator := Some "https://app.x";
     requestBody := None;
     requestHeaders := Some [ {| name := "Authorization"; value := Some "Bearer t" |} ];
     responseHeaders := Some [ {| name := "Content-Type"; value := Some "application/json" |} ];
     statusCode := 200%Z;
     error := "net::ERR_FAILED" |}.


(** the state a trace leads to from a fresh worker with recording on (the
    fresh worker itself when the trace cannot be run) *)
Definition state_after (tr : list action) : state :=
  default (init true None 0%Z) (run tr (init true None 0%Z)).

(** request 7 has begun and its response headers have arrived; the first
    snapshot is being written while the second waits in the queue *)
Definition sample_busy_trace : list action :=
  [ BeforeRequestEv (sample_details "7"); Run 0; Run 0;
    HeadersReceivedEv (sample_details "7"); Run 1; Run 1;
    Run 0; Run 0 ].

(** a record of request 9 for which only headers were seen: no url *)
Definition sample_urlless : srec :=
  <["id" := SLeaf (LStr "9")]> (<["status" := SLeaf (LNum 0)]> ∅).

(** headers of request 9 arrive twice before its begin event is handled;
    the first snapshot has been read back, the second waits in the queue *)
Definition sample_urlless_trace : list action :=
  [ BeforeSendHeadersEv (sample_details "9"); Run 0; Run 0;
    HeadersReceivedEv (sample_details "9"); Run 1; Run 1;
    Run 0 ].

(** request 7 has begun while recording was on; recording is off now *)
Definition sample_toggled_off_trace : list action :=
  [ BeforeRequestEv (sample_details "7"); Run 0; Run 0; Run 0; Run 0; Run 0;
    Run 0; SetRecording false ].

(** request 7 has begun and its request headers were captured, all of it
    stored; its response headers have arrived and the toggle has been read
    for them, but the callback has not run yet *)
Definition sample_headers_in_flight_trace : list action :=
  [ BeforeRequestEv (sample_details "7"); Run 0; Run 0; Run 0; Run 0; Run 0; Run 0;
    BeforeSendHeadersEv (sample_details "7"); Run 0; Run 0; Run 0; Run 0; Run 0; Run 0;
    HeadersReceivedEv (sample_details "7"); Run 0 ].


Definition sample_cookie : list Dnr.KeyValue :=
  [ {| Dnr.key := Some "Cookie"; Dnr.name := None; Dnr.kv_value := Some "a=b" |} ].

Definition sample_token : list Dnr.KeyValue :=
  [ {| Dnr.key := None; Dnr.name := Some "X-Token"; Dnr.kv_value := Some "t" |} ].




(** request 7 has completed with status 200 and then fails *)
Definition sample_completed : list action :=
  [ BeforeRequestEv (sample_details "7"); CompletedEv (sample_details "7") ].

Definition sample_completed_then_failed : list action :=
  sample_completed ++ [ ErrorOccurredEv (sample_details "7") ].

(** ** The badge, the installation handler and the change listener *)

(** what [chrome.action] shows on the toolbar button *)
Record Badge := { badgeText : string; badgeBackgroundColor : string }.

Definition setBadgeText (text : string) (b : Badge) : Badge :=
  {| badgeText := text; badgeBackgroundColor := badgeBackgroundColor b |}.

Definition setBadgeBackgroundColor (color : string) (b : Badge) : Badge :=
  {| badgeText := badgeText b; badgeBackgroundColor := color |}.

(** [updateBadge(recording)]; the badge is [None] when [chrome.action] is
    not available *)
Definition updateBadge (recording : bool) (action : option Badge) : option Badge :=
  match action with
  | Some b =>
      if recording
      then Some (setBadgeBackgroundColor "#ef4444" (setBadgeText "REC" b))
      else Some (setBadgeText "" b)
  | None => None
  end.

(** an entry of the [changes] argument of [chrome.storage.onChanged]; a
    value is [None] when the key is not set *)
Record StorageChange := { oldValue : option bool; newValue : option bool }.

(** The listener of [chrome.storage.onChanged]; its argument is
    [changes.isRecording]. *)
Definition onChanged (isRecording_change : option StorageChange)
    (action : option Badge) : option Badge :=
  match isRecording_change with
  | Some c => updateBadge (default false (newValue c)) action
  | None => action
  end.

(** the worker together with what it shares with the browser: the badge and
    the session rules *)
Record browser := mkBrowser {
  worker : state;
  chrome_action : option Badge;
  sessionRules : list Dnr.Rule }.

(** A write of [isRecording] to the storage area ([chrome.storage.local.set]),
    with the change event that the browser delivers to the listener when the
    value differs from the stored one. *)
Definition write_isRecording (v : bool) (b : browser) : browser :=
  let old := storage_isRecording (worker b) in
  {| worker := with_isRecording v (worker b);
     chrome_action :=
       if bool_decide (old = v) then chrome_action b
       else onChanged (Some {| oldValue := Some old; newValue := Some v |})
                      (chrome_action b);
     sessionRules := sessionRules b |}.

(** The listener of [chrome.runtime.onInstalled], with its storage write
    performed: the toggle and the logs are reset, the badge is updated and
    the rule with id 1 is removed. *)
Definition onInstalled (b : browser) : browser :=
  let b1 := write_isRecording false b in
  {| worker := with_logs (Some []) (worker b1);
     chrome_action := updateBadge false (chrome_action b1);
     sessionRules := (updateSessionRules [1%Z] [] (sessionRules b1)).1 |}.

(** A step of the event loop, seen from the browser: the user interface
    flips the toggle by a write to the storage area.  (A write of the logs
    raises a change event too; its [changes] have no [isRecording], so the
    listener leaves the badge as it is.) *)
Definition browser_exec (a : action) (b : browser) : option browser :=
  match a with
  | SetRecording v => Some (write_isRecording v b)
  | _ =>
      s' ← exec a (worker b);
      Some {| worker := s'; chrome_action := chrome_action b;
              sessionRules := sessionRules b |}
  end.

(** a message handled by the rule manager *)
Definition browser_message (m : Dnr.message) (b : browser) : browser :=
  {| worker := worker b; chrome_action := chrome_action b;
     sessionRules := (onMessage m (sessionRules b)).1 |}.

(** the badge shows the state of the toggle *)
Definition badge_in_sync (b : browser) : Prop :=
  ∀ x, chrome_action b = Some x →
       badgeText x = (if storage_isRecording (worker b) then "REC" else "").

(** ** More notions used in the statements *)

(** a url that [isExtensionRequest] rejects whatever the initiator is *)
Definition own_scheme (u : string) : bool :=
  JsString.startsWith u "chrome-extension://"
  || JsString.startsWith u "data:"
  || JsString.startsWith u "blob:".

(** an event that passes the filters of the three listeners *)
Definition passes (d : details) : bool :=
  negb (isExtensionRequest d) && isApiRequest d.

(** a record of an API request that is not one of the extension's own, as
    far as its url and type tell *)
Definition recordable (r : srec) : Prop :=
  (∀ v, r !! "url" = Some v → ∃ u, v = SLeaf (LStr u) ∧ own_scheme u = false) ∧
  (∀ v, r !! "type" = Some v → v = SLeaf (LStr "xmlhttprequest")).

(** the reads of the toggle and their callbacks *)
Definition is_toggle_task (t : task) : bool :=
  match t with
  | GetIsRecording _ _ | CbIsRecording _ _ _ => true
  | _ => false
  end.

(** the toggle reads that are outstanding carry events that passed the
    filters *)
Definition task_passes (t : task) : Prop :=
  match t with
  | GetIsRecording _ d | CbIsRecording _ d _ => passes d = true
  | _ => True
  end.

(** the steps that act on the pending entry of the request [id]: its
    completed and errored events, the callback of a toggle read for one of
    its events, and its removal timer *)
Definition concerns (id : string) (a : action) (s : state) : bool :=
  match a with
  | CompletedEv d | ErrorOccurredEv d => bool_decide (requestId d = id)
  | Run i =>
      match tasks s !! i with
      | Some (CbIsRecording _ d true) => bool_decide (requestId d = id)
      | Some (Timeout id' _) => bool_decide (id' = id)
      | _ => false
      end
  | _ => false
  end.

(** The record that a step hands to [saveLog], if any: the clone of the
    entry once the step has updated it. *)
Definition enqueued (a : action) (s : state) : option srec :=
  match a with
  | CompletedEv d =>
      log ← pendingRequests s !! requestId d;
      if isApiRequest d
      then Some (<["status" := SLeaf (LNum (statusCode d))]> (snapshot (heap s) log))
      else None
  | ErrorOccurredEv d =>
      log ← pendingRequests s !! requestId d;
      if isApiRequest d
      then Some (<["error" := SLeaf (LStr (error d))]>
                   (<["status" := SLeaf (LNum 0)]> (snapshot (heap s) log)))
      else None
  | Run i =>
      match tasks s !! i with
      | Some (CbIsRecording p d true) =>
          Some (phase_update p d (base_record (requestId d) s))
      | _ => None
      end
  | _ => None
  end.

(** the records [qs], as the heap [h] has them, applied to the stored logs
    one after the other *)
Definition apply_all (h : heap_t) (qs : list loc) (logs : option (list srec))
    : option (list srec) :=
  foldl (λ logs q, apply_record (snapshot h q) logs) logs qs.

(** the records [rs] applied to the stored logs one after the other *)
Definition apply_records (rs : list srec) (logs : option (list srec))
    : option (list srec) :=
  foldl (λ logs r, apply_record r logs) logs rs.

(** how many steps a task, and what it leaves behind, can still take *)
Definition task_steps (t : task) : nat :=
  match t with
  | GetIsRecording _ _ => 6
  | CbIsRecording _ _ _ => 5
  | GetLogs _ => 4
  | CbGetLogs _ _ => 3
  | SetLogs _ _ => 2
  | CbSetLogs _ => 1
  | Timeout _ _ => 1
  end.

(** a step of an outstanding task, as opposed to an act of the environment *)
Definition is_run (a : action) : Prop :=
  match a with Run _ => True | _ => False end.

(** a bound on the steps the outstanding tasks and the queue can take *)
Definition steps_left (s : state) : nat :=
  sum_list_with task_steps (tasks s) + 4 * length (saveQueue s).

(** no two stored records have the same identifier *)
Definition distinct_ids (logs : list srec) : Prop :=
  ∀ i j ri rj, logs !! i = Some ri → logs !! j = Some rj →
               strict_eq (ri !! "id") (rj !! "id") = true → i = j.

(** the last header of the list that is named [n] *)
Definition last_named (n : string) (hs : list HttpHeader) : option HttpHeader :=
  last (filter (λ h, name h = n) hs).

(** the field of the entry that a headers event merges into, and the
    headers it brings *)
Definition header_field (p : phase) : string :=
  match p with
  | BeforeSendHeaders => "requestHeaders"
  | _ => "responseHeaders"
  end.

Definition headers_of (p : phase) (d : details) : list HttpHeader :=
  match p with
  | BeforeRequest => []
  | BeforeSendHeaders => default [] (requestHeaders d)
  | HeadersReceived => default [] (responseHeaders d)
  end.

(** the header map a cloned record has in the field [k] *)
Definition header_map (k : string) (r : srec) : gmap string leaf :=
  match r !! k with Some (SObj x) => x | _ => ∅ end.

(** two different requests never share a pending entry *)
Definition entries_distinct (s : state) : Prop :=
  ∀ id1 id2 l, pendingRequests s !! id1 = Some l →
               pendingRequests s !! id2 = Some l → id1 = id2.

(** what the listeners keep true of the records they build: the toggle
    reads carry events that passed the filters, and the entries, the queued
    copies and the stored records are those of API requests that are not
    the extension's own *)
Definition inv_recordable (s : state) : Prop :=
  Forall task_passes (tasks s) ∧
  (∀ id l, pendingRequests s !! id = Some l → recordable (snapshot (heap s) l)) ∧
  (∀ q, q ∈ work s → recordable (snapshot (heap s) q)) ∧
  Forall recordable (default [] (storage_logs s)).

(** a toggle read, or the callback of one that found recording off *)
Definition off_task (t : task) : Prop :=
  match t with
  | GetIsRecording _ _ => True
  | CbIsRecording _ _ r => r = false
  | _ => False
  end.

(** recording is off and nothing is, or is about to be, recorded *)
Definition recording_off (s : state) : Prop :=
  storage_isRecording s = false ∧ pendingRequests s = ∅ ∧ heap s = [] ∧
  isSaving s = false ∧ saveQueue s = [] ∧ Forall off_task (tasks s).

(** the shape of a record of the request [id]: its identifier, a numeric
    status and timestamp, and the two header maps *)
Definition well_formed (id : string) (r : srec) : Prop :=
  r !! "id" = Some (SLeaf (LStr id)) ∧
  (∃ st, r !! "status" = Some (SLeaf (LNum st))) ∧
  (∃ t, r !! "timestamp" = Some (SLeaf (LNum t))) ∧
  (∃ m, r !! "requestHeaders" = Some (SObj m)) ∧
  (∃ m, r !! "responseHeaders" = Some (SObj m)).

(** every pending entry has the shape of a record of its request *)
Definition entries_well_formed (s : state) : Prop :=
  ∀ id l, pendingRequests s !! id = Some l → well_formed id (snapshot (heap s) l).

(** the entries, the queued copies and the stored records have the shape of
    a record *)
Definition shaped (s : state) : Prop :=
  entries_well_formed s ∧
  (∀ q, q ∈ work s → ∃ id, well_formed id (snapshot (heap s) q)) ∧
  Forall (λ r, ∃ id, well_formed id r) (default [] (storage_logs s)).

(** a key is none of the keys of a list of literals *)
Ltac not_in_list :=
  repeat (apply not_elem_of_cons; split; [done|]); apply not_elem_of_nil.

(** ** More sample data *)

(** a rule of another kind, with another id *)
Definition sample_foreign_rule : Dnr.Rule :=
  {| Dnr.id := 2%Z; Dnr.priority := 1%Z;
     Dnr.action := {| Dnr.type := Dnr.BLOCK; Dnr.requestHeaders := [] |};
     Dnr.condition := {| Dnr.urlFilter := "https://ads.x/";
                         Dnr.resourceTypes := [Dnr.OTHER] |} |}.

(** a browser that rejects a rule whose url filter is empty *)
Definition reject_empty_filter (r : Dnr.Rule) : option string :=
  if bool_decide (Dnr.urlFilter (Dnr.condition r) = "")
  then Some "Rule with id 1 has an empty urlFilter" else None.

(** request 7 has begun and its first snapshot is about to be read back;
    request headers of request 9 have arrived and the toggle has been read
    for them, but the callback has not run yet *)
Definition sample_two_requests_trace : list action :=
  [ BeforeRequestEv (sample_details "7"); Run 0; Run 0;
    BeforeSendHeadersEv (sample_details "9"); Run 1 ].

(** an event of an API request whose request headers have a header named
    [__proto__] among them *)
Definition sample_proto_details (id : string) : details :=
  {| requestId := id;
     url := "https://api.x/y?page=2";
     method := "POST";
     type := "xmlhttprequest";
     initiator := Some "https://app.x";
     requestBody := None;
     requestHeaders :=
       Some [ {| name := "Accept"; value := Some "*/*" |};
              {| name := "__proto__"; value := Some "x" |};
              {| name := "Accept"; value := None |} ];
     responseHeaders := None;
     statusCode := 200%Z;
     error := "" |}.

(** request 7 has begun and its first snapshot is about to be read back;
    request headers of request 9, one of them named [__proto__], have
    arrived and the toggle has been read for them, but the callback has not
    run yet *)
Definition sample_proto_callback_trace : list action :=
  [ BeforeRequestEv (sample_details "7"); Run 0; Run 0;
    BeforeSendHeadersEv (sample_proto_details "9"); Run 1 ].






(** events that arrive while recording is off *)
Definition sample_off_trace : list action :=
  [ BeforeRequestEv (sample_details "7"); Run 0; Run 0;
    CompletedEv (sample_details "7"); SetRecording false; Tick 5 ].
(** * Proofs *)

(** ** Strings *)

Lemma split_qmark_0_prefix (u : string) :
  ∃ rest, u = JsString.split_qmark_0 u +:+ rest ∧
          (rest = "" ∨ ∃ rest', rest = String "?" rest').
Proof.
  induction u as [|c u IH]; simpl.
  - exists "". auto.
  - destruct (Ascii.eqb_spec c "?") as [->|Hc].
    + exists (String "?" u). simpl. eauto.
    + destruct IH as (rest & Hu & Hrest). exists rest. split; [|done].
      change (String c u = String c (JsString.split_qmark_0 u +:+ rest)).
      by f_equal.
Qed.

(** ** The record store *)

Lemma findIndex_Some (r : srec) (cur : list srec) (idx : nat) :
  findIndex r cur = Some idx →
  ∃ old, cur !! idx = Some old ∧
         strict_eq (old !! "id") (r !! "id") = true ∧
         ∀ j o, j < idx → cur !! j = Some o →
                strict_eq (o !! "id") (r !! "id") = false.
Proof.
  revert idx. induction cur as [|l cur IH]; intros idx; simpl; [done|].
  destruct (strict_eq (l !! "id") (r !! "id")) eqn:E.
  - intros [= <-]. exists l. repeat split; [done|]. intros j o Hj. lia.
  - destruct (findIndex r cur) as [i|] eqn:F; simpl; [|done].
    intros [= <-]. destruct (IH i eq_refl) as (old & Hold & Heq & Hlt).
    exists old. repeat split; [done..|].
    intros [|j] o Hj; simpl.
    + by intros [= <-].
    + apply Hlt. lia.
Qed.

Lemma findIndex_None (r : srec) (cur : list srec) :
  findIndex r cur = None ↔
  ∀ o, o ∈ cur → strict_eq (o !! "id") (r !! "id") = false.
Proof.
  induction cur as [|l cur IH]; simpl.
  - split; [|done]. intros _ o Ho. by apply elem_of_nil in Ho.
  - destruct (strict_eq (l !! "id") (r !! "id")) eqn:E.
    + split; [done|]. intros H. specialize (H l). rewrite E in H.
      discriminate H. by left.
    + destruct (findIndex r cur) as [i|] eqn:F; simpl.
      * split; [done|]. intros H. destruct IH as [_ IH].
        discriminate IH. intros o Ho. apply H. by right.
      * split; [|done]. intros _ o Ho. apply elem_of_cons in Ho as [->|Ho]; [done|].
        by apply IH.
Qed.

Lemma findIndex_lt (r : srec) (cur : list srec) (idx : nat) :
  findIndex r cur = Some idx → idx < length cur.
Proof.
  intros H. destruct (findIndex_Some _ _ _ H) as (old & Hold & _).
  by eapply lookup_lt_Some.
Qed.

Lemma decide_save_merge (r : srec) (cur : list srec) (idx : nat) (old : srec) :
  findIndex r cur = Some idx → cur !! idx = Some old →
  decide_save r (Some cur) = Write (<[idx := spread old r]> cur).
Proof. intros H Hold. unfold decide_save. simpl. by rewrite H, Hold. Qed.

Lemma decide_save_drop (r : srec) (result : option (list srec)) :
  findIndex r (default [] result) = None → struthy (r !! "url") = false →
  decide_save r result = Drop.
Proof. intros H Hu. unfold decide_save. by rewrite H, Hu. Qed.

Lemma decide_save_prepend (r : srec) (result : option (list srec)) :
  findIndex r (default [] result) = None → struthy (r !! "url") = true →
  decide_save r result = Write (take MAX_LOGS (r :: default [] result)).
Proof. intros H Hu. unfold decide_save. by rewrite H, Hu. Qed.

Lemma decide_save_length (r : srec) (result : option (list srec)) (newLogs : list srec) :
  length (default [] result) ≤ MAX_LOGS →
  decide_save r result = Write newLogs → length newLogs ≤ MAX_LOGS.
Proof.
  intros Hlen. unfold decide_save.
  destruct (findIndex r (default [] result)) as [idx|] eqn:F.
  - destruct (default [] result !! idx) as [old|]; intros [= <-].
    + by rewrite length_insert.
    + done.
  - destruct (negb (struthy (r !! "url"))); [done|]. intros [= <-].
    simpl. rewrite length_take. unfold MAX_LOGS. lia.
Qed.

Lemma apply_record_length (r : srec) (logs : option (list srec)) :
  length (default [] logs) ≤ MAX_LOGS →
  length (default [] (apply_record r logs)) ≤ MAX_LOGS.
Proof.
  intros H. unfold apply_record. destruct (decide_save r logs) eqn:E; [|done].
  simpl. by eapply decide_save_length.
Qed.

(** ** Frames *)

Lemma frame_refl (s : state) : frame s s.
Proof. repeat split; auto. Qed.

Lemma frame_stable (s s' : state) (l : loc) :
  frame s s' → stable_loc s l → stable_loc s' l.
Proof.
  intros (Hlen & _ & Hp) [Hl Hne]. split; [lia|].
  intros id Hid. destruct (Hp _ _ Hid) as [H|H]; [by eapply Hne|lia].
Qed.

Lemma frame_trans (s1 s2 s3 : state) :
  frame s1 s2 → frame s2 s3 → frame s1 s3.
Proof.
  intros H12 H23. pose proof (λ l, frame_stable _ _ l H12) as Hst.
  destruct H12 as (Hlen1 & Hh1 & Hp1), H23 as (Hlen2 & Hh2 & Hp2).
  split; [lia|]. split.
  - intros l Hl. rewrite Hh2 by by apply Hst. by apply Hh1.
  - intros id l Hid. destruct (Hp2 _ _ Hid) as [H|H]; [|right; lia].
    destruct (Hp1 _ _ H) as [H'|H']; [by left|by right].
Qed.

Lemma quiet_refl (s : state) : quiet s s.
Proof. by repeat split. Qed.

Lemma quiet_trans (s1 s2 s3 : state) : quiet s1 s2 → quiet s2 s3 → quiet s1 s3.
Proof.
  intros (?&?&?&?) (?&?&?&?). repeat split; congruence.
Qed.

Lemma quiet_work (s s' : state) : quiet s s' → work s' = work s.
Proof. intros (_&Hq&Ht&_). unfold work. by rewrite Hq, Ht. Qed.

Lemma unit_ok_refl (s : state) : unit_ok s s.
Proof. intros H. split; [done|]. split; [apply frame_refl|apply quiet_refl]. Qed.

Lemma unit_ok_trans (s1 s2 s3 : state) :
  unit_ok s1 s2 → unit_ok s2 s3 → unit_ok s1 s3.
Proof.
  intros H12 H23 H1. destruct (H12 H1) as (H2 & F12 & Q12).
  destruct (H23 H2) as (H3 & F23 & Q23).
  split; [done|]. split; [by eapply frame_trans|by eapply quiet_trans].
Qed.

Lemma clone_frame (s s' : state) (v : jsval) :
  frame s s' → (∀ r, v = VRef r → stable_loc s r) →
  clone (heap s') v = clone (heap s) v.
Proof.
  intros (_ & Hh & _) Hv. destruct v as [| | |r]; simpl; try done.
  by rewrite Hh by by apply Hv.
Qed.

Lemma snapshot_frame (s s' : state) (l : loc) :
  inv_heap s → frame s s' → stable_loc s l →
  snapshot (heap s') l = snapshot (heap s) l.
Proof.
  intros (_ & Hrefs & _) Hf Hl. unfold snapshot.
  destruct Hf as (Hlen & Hh & Hp). rewrite Hh by done.
  destruct (heap s !! l) as [o|] eqn:Ho; [|done].
  apply map_eq. intros k. rewrite !lookup_omap.
  destruct (o !! k) as [v|] eqn:Hk; simpl; [|done].
  apply clone_frame; [by repeat split|].
  intros r ->. by eapply Hrefs.
Qed.

Lemma inv_unit (s s' : state) : inv s → unit_ok s s' → inv s' ∧ frame s s'.
Proof.
  intros (Hh & Hs) Hu. destruct (Hu Hh) as (Hh' & Hf & Hq).
  split; [|done]. split; [done|].
  pose proof Hq as (HiS & HsQ & Hfl & Hlogs).
  unfold inv_save in *. rewrite HiS, Hfl, HsQ.
  destruct (isSaving s); [|done].
  destruct Hs as (t & Ht & Hok). exists t. split; [done|].
  destruct t; simpl in *; try done.
  - by rewrite Hlogs.
  - rewrite Hlogs. rewrite (snapshot_frame s); [done..|].
    destruct Hh as (_ & _ & Hw). apply Hw. unfold work. rewrite Ht.
    simpl. by left.
Qed.

(** ** Primitive steps *)

Lemma stable_loc_mono (s s' : state) (l : loc) :
  length (heap s) ≤ length (heap s') →
  pendingRequests s' = pendingRequests s →
  stable_loc s l → stable_loc s' l.
Proof. intros Hlen Hp [Hl Hne]. split; [lia|]. by rewrite Hp. Qed.

Lemma inv_heap_same (s s' : state) :
  heap s' = heap s → pendingRequests s' = pendingRequests s →
  (∀ q, q ∈ work s' → q ∈ work s) →
  inv_heap s → inv_heap s'.
Proof.
  intros Hh Hp Hw (H1 & H2 & H3).
  assert (∀ l, stable_loc s l → stable_loc s' l) as Hst.
  { intros l. apply stable_loc_mono; [by rewrite Hh|done]. }
  split; [|split].
  - rewrite Hh, Hp. apply H1.
  - intros l o k r Hl Hk. apply Hst. rewrite Hh in Hl. by eapply H2.
  - intros q Hq. apply Hst, H3, Hw. done.
Qed.

Lemma frame_same (s s' : state) :
  heap s' = heap s → pendingRequests s' = pendingRequests s → frame s s'.
Proof.
  intros Hh Hp. unfold frame. rewrite Hh, Hp. repeat split; auto.
Qed.

Lemma filter_delete_false {A} (P : A → bool) (l : list A) (i : nat) (x : A) :
  l !! i = Some x → P x = false → filter P (delete i l) = filter P l.
Proof.
  intros Hi HP. rewrite delete_take_drop.
  rewrite <- (take_drop_middle l i x Hi) at 3.
  rewrite !filter_app, filter_cons. rewrite HP. simpl.
  destruct (decide (false)) as [[]|]. done.
Qed.

Lemma spawn_unit (t : task) (s : state) :
  is_save_task t = false → unit_ok s (spawn t s).
Proof.
  intros Ht Hinv.
  assert (quiet s (spawn t s)) as Hq.
  { unfold quiet, in_flight. simpl. rewrite filter_app. simpl.
    rewrite filter_cons, filter_nil, Ht. simpl.
    by rewrite !app_nil_r. }
  split; [|split; [by apply frame_same|done]].
  apply (inv_heap_same s); [done|done| |done]. intros q. by rewrite (quiet_work _ _ Hq).
Qed.

Lemma remove_unit (i : nat) (t : task) (s : state) :
  tasks s !! i = Some t → is_save_task t = false →
  unit_ok s (with_tasks (delete i (tasks s)) s).
Proof.
  intros Hi Ht Hinv.
  assert (quiet s (with_tasks (delete i (tasks s)) s)) as Hq.
  { unfold quiet, in_flight. simpl.
    by rewrite (filter_delete_false _ _ _ _ Hi Ht). }
  split; [|split; [by apply frame_same|done]].
  apply (inv_heap_same s); [done|done| |done]. intros q. by rewrite (quiet_work _ _ Hq).
Qed.

Lemma set_prop_inv_heap (l : loc) (k : string) (v : jsval) (s : state) :
  inv_heap s → (∀ r, v = VRef r → stable_loc s r) →
  inv_heap (set_prop l k v s).
Proof.
  intros (H1 & H2 & H3) Hv.
  assert (∀ r, stable_loc s r → stable_loc (set_prop l k v s) r) as Hst.
  { intros r. apply stable_loc_mono; simpl; [by rewrite length_alter|done]. }
  split; [|split].
  - simpl. intros id e He. rewrite length_alter. by eapply H1.
  - simpl. intros l' o k' r Hl' Hk'. apply Hst.
    rewrite list_lookup_alter in Hl'. case_decide as Hll; subst.
    + destruct (heap s !! l') as [o0|] eqn:Ho0; simpl in Hl'; [|done].
      injection Hl' as <-. rewrite lookup_insert in Hk'. case_decide; subst.
      * apply Hv. congruence.
      * by eapply H2.
    + by eapply H2.
  - intros q Hq. apply Hst, H3. done.
Qed.

Lemma set_prop_unit (log : loc) (k : string) (v : jsval) (s : state) :
  is_entry s log → (∀ r, v = VRef r → stable_loc s r) →
  unit_ok s (set_prop log k v s).
Proof.
  intros [id Hid] Hv Hinv. split; [|split].
  - by apply set_prop_inv_heap.
  - split; [simpl; by rewrite length_alter|]. split; [|simpl; auto].
    intros l [_ Hl]. simpl. apply list_lookup_alter_ne. intros ->. by eapply Hl.
  - by repeat split.
Qed.

Lemma alloc_inv_heap (o : obj) (s : state) :
  inv_heap s → (∀ k r, o !! k = Some (VRef r) → stable_loc s r) →
  inv_heap (alloc o s).2.
Proof.
  intros (H1 & H2 & H3) Ho.
  assert (∀ r, stable_loc s r → stable_loc (alloc o s).2 r) as Hst.
  { intros r. apply stable_loc_mono; simpl; [rewrite length_app; lia|done]. }
  split; [|split].
  - simpl. intros id e He. rewrite length_app. apply H1 in He. lia.
  - simpl. intros l' o' k' r Hl' Hk'. apply Hst.
    apply lookup_app_Some in Hl' as [Hl'|[Hlen Hl']]; [by eapply H2|].
    apply list_lookup_singleton_Some in Hl' as [_ <-]. by eapply Ho.
  - intros q Hq. apply Hst, H3. done.
Qed.

Lemma alloc_frame (o : obj) (s : state) : frame s (alloc o s).2.
Proof.
  split; [simpl; rewrite length_app; lia|]. split; [|simpl; auto].
  intros l [Hl _]. simpl. by apply lookup_app_l.
Qed.

Lemma alloc_unit (o : obj) (s : state) :
  (∀ k r, o !! k = Some (VRef r) → stable_loc s r) → unit_ok s (alloc o s).2.
Proof.
  intros Ho Hinv. split; [by apply alloc_inv_heap|].
  split; [apply alloc_frame|by repeat split].
Qed.

(** ** The pending table *)

Lemma getOrCreatePending_entry (id : string) (s : state) :
  pendingRequests (getOrCreatePending id s).2 !! id
  = Some (getOrCreatePending id s).1.
Proof.
  unfold getOrCreatePending. destruct (pendingRequests s !! id) eqn:E; simpl.
  - done.
  - by rewrite lookup_insert_eq.
Qed.

Lemma getOrCreatePending_unit (id : string) (s : state) :
  unit_ok s (getOrCreatePending id s).2.
Proof.
  unfold getOrCreatePending.
  destruct (pendingRequests s !! id) as [l|] eqn:E; [apply unit_ok_refl|].
  intros (H1 & H2 & H3). simpl.
  set (n := length (heap s)).
  match goal with |- inv_heap ?x ∧ _ => set (s' := x) end.
  assert (length (heap s') = n + 3) as Hlen.
  { unfold s'. simpl. rewrite !length_app. simpl. unfold n. lia. }
  assert (∀ l, l < n → heap s' !! l = heap s !! l) as Hold.
  { intros l Hl. unfold s'. simpl.
    rewrite !lookup_app_l; [done|..]; rewrite ?length_app; unfold n; simpl; lia. }
  assert (∀ id' l, pendingRequests s' !! id' = Some l →
            pendingRequests s !! id' = Some l ∨ l = n + 2) as Hp.
  { intros id' l. unfold s'. simpl. rewrite lookup_insert.
    rewrite !length_app. simpl.
    case_decide; [intros [= <-]; right; unfold n; lia|by left]. }
  assert (∀ r, stable_loc s r → stable_loc s' r) as Hst.
  { intros r [Hr Hne]. split; [lia|]. intros id' Hid'.
    destruct (Hp _ _ Hid') as [?| ->]; [by eapply Hne|]. unfold n in *. lia. }
  assert (∀ l, l < n + 2 → (∀ id', pendingRequests s !! id' ≠ Some l) →
            stable_loc s' l) as Hnew.
  { intros l Hl Hne. split; [lia|]. intros id' Hid'.
    destruct (Hp _ _ Hid') as [?| ->]; [by eapply Hne|lia]. }
  assert (∀ l, n ≤ l → ∀ id', pendingRequests s !! id' ≠ Some l) as Hfresh.
  { intros l Hl id' Hid'. apply H1 in Hid'. unfold n in *. lia. }
  split; [split; [|split]|split; [split; [lia|split]|by repeat split]].
  - intros id' l Hid'. destruct (Hp _ _ Hid') as [Ho| ->]; [apply H1 in Ho|]; unfold n in *; lia.
  - intros l o k r Hl Hk.
    destruct (decide (l < n)) as [Hlt|Hge].
    { rewrite Hold in Hl by done. apply Hst. by eapply H2. }
    unfold s' in Hl. simpl in Hl.
    apply lookup_app_Some in Hl as [Hl|[Hlen' Hl]].
    + apply lookup_app_Some in Hl as [Hl|[Hlen'' Hl]].
      * apply lookup_app_Some in Hl as [Hl|[_ Hl]].
        { apply lookup_lt_Some in Hl. unfold n in *. lia. }
        apply list_lookup_singleton_Some in Hl as [_ <-]. done.
      * apply list_lookup_singleton_Some in Hl as [_ <-]. done.
    + apply list_lookup_singleton_Some in Hl as [_ <-].
      rewrite !length_app in *. simpl in *.
      repeat (rewrite lookup_insert in Hk; case_decide; simplify_eq);
        try (apply Hnew; [lia|apply Hfresh; lia]).
  - intros q Hq. apply Hst, H3. done.
  - intros l [Hl _]. by apply Hold.
  - intros id' l Hid'. destruct (Hp _ _ Hid') as [?| ->]; [by left|right; lia].
Qed.

Lemma getOrCreatePending_is_entry (id : string) (s : state) :
  is_entry (getOrCreatePending id s).2 (getOrCreatePending id s).1.
Proof. exists id. apply getOrCreatePending_entry. Qed.

(** ** Header maps *)

Lemma with_heap_with_heap (h1 h2 : heap_t) (s : state) :
  with_heap h2 (with_heap h1 s) = with_heap h2 s.
Proof. done. Qed.

Lemma list_alter_alter {A} (f g : A → A) (i : nat) (l : list A) :
  alter f i (alter g i l) = alter (λ x, f (g x)) i l.
Proof.
  revert i. induction l as [|a l IH]; intros [|i]; simpl; try done.
  f_equal. apply IH.
Qed.

Lemma alter_app_end {A} (f : A → A) (l : list A) (x : A) :
  alter f (length l) (l ++ [x]) = l ++ [f x].
Proof.
  rewrite <- (Nat.add_0_r (length l)) at 1. by rewrite alter_app_r.
Qed.

Lemma collect_headers_eq (hs : option (list HttpHeader)) (h : loc) (s : state) :
  collect_headers hs h s
  = with_heap (alter (fill_headers (default [] hs)) h (heap s)) s.
Proof.
  unfold collect_headers. generalize (default [] hs). clear hs. intros hs.
  revert s. induction hs as [|x hs IH]; intros s; simpl.
  - destruct s. unfold with_heap. simpl. f_equal.
    symmetry. by apply list_alter_id.
  - unfold set_computed. destruct (bool_decide (name x = "__proto__")) eqn:E.
    + rewrite IH. f_equal. apply list_alter_ext; [|done].
      intros o _. unfold fill_headers. simpl. by rewrite E.
    + rewrite IH. unfold set_prop. rewrite with_heap_with_heap. simpl.
      f_equal. rewrite list_alter_alter. apply list_alter_ext; [|done].
      intros o _. unfold fill_headers. simpl. by rewrite E.
Qed.

Lemma fill_headers_ref (hs : list HttpHeader) (o : obj) (k : string) (r : loc) :
  fill_headers hs o !! k = Some (VRef r) → o !! k = Some (VRef r).
Proof.
  revert o. induction hs as [|x hs IH]; intros o; simpl; [done|].
  intros H. apply IH in H. case_bool_decide; [done|].
  rewrite lookup_insert in H. by case_decide.
Qed.

Lemma merge_headers_eq (log : loc) (k : string) (hs : option (list HttpHeader))
    (s : state) :
  merge_headers log k hs s =
  let filled := fill_headers (default [] hs) ∅ in
  let s2 := (alloc filled s).2 in
  let merged := spread (props_of (get_prop log k s2) s2) filled in
  set_prop log k (VRef (S (length (heap s)))) (alloc merged s2).2.
Proof.
  unfold merge_headers. simpl. rewrite collect_headers_eq. simpl.
  rewrite !alter_app_end.
  rewrite (list_lookup_middle (heap s) [] _ (length (heap s))) by done.
  unfold set_prop, get_prop, props_of. simpl.
  rewrite length_app. simpl. by rewrite Nat.add_1_r.
Qed.

Lemma merge_headers_unit (log : loc) (k : string) (hs : option (list HttpHeader))
    (s : state) :
  is_entry s log → unit_ok s (merge_headers log k hs s).
Proof.
  intros Hent Hinv. rewrite merge_headers_eq.
  set (filled := fill_headers (default [] hs) ∅).
  cbv zeta.
  set (s2 := (alloc filled s).2).
  set (merged := spread (props_of (get_prop log k s2) s2) filled).
  assert (∀ k r, filled !! k = Some (VRef r) → False) as Hfilled.
  { intros k' r H. apply fill_headers_ref in H. by rewrite lookup_empty in H. }
  destruct (alloc_unit filled s) as (Hinv2 & Hf2 & Hq2); [|done|].
  { intros k' r H. by destruct (Hfilled _ _ H). }
  fold s2 in Hinv2, Hf2, Hq2.
  destruct (alloc_unit merged s2) as (Hinv3 & Hf3 & Hq3); [|done|].
  { intros k' r H. unfold merged, spread in H.
    apply lookup_union_Some_raw in H as [H|[_ H]]; [by destruct (Hfilled _ _ H)|].
    unfold props_of in H.
    destruct (get_prop log k s2) as [[| | |l]|]; try by rewrite lookup_empty in H.
    destruct (heap s2 !! l) as [o|] eqn:Ho; simpl in H;
      [|by rewrite lookup_empty in H].
    destruct Hinv2 as (_ & H2 & _). by eapply H2. }
  set (s3 := (alloc merged s2).2) in *.
  destruct (set_prop_unit log k (VRef (S (length (heap s)))) s3)
    as (Hinv4 & Hf4 & Hq4); [done| |done|].
  { intros r [= <-]. split.
    - unfold s3, s2. simpl. rewrite !length_app. simpl. lia.
    - intros id Hid. destruct Hinv as (H1 & _). apply H1 in Hid. lia. }
  split; [done|]. split.
  - eapply frame_trans; [|done]. by eapply frame_trans.
  - eapply quiet_trans; [|done]. by eapply quiet_trans.
Qed.

Lemma capture_body_unit (log : loc) (d : details) (s : state) :
  is_entry s log → unit_ok s (capture_body log d s).
Proof.
  intros Hent. unfold capture_body.
  destruct (requestBody d) as [body|]; [|apply unit_ok_refl].
  destruct (raw body) as [[|first ?]|].
  - destruct (formData body); [by apply set_prop_unit|apply unit_ok_refl].
  - destruct (TextDecoder_decode (bytes first)); by apply set_prop_unit.
  - destruct (formData body); [by apply set_prop_unit|apply unit_ok_refl].
Qed.


Lemma merge_headers_pending (log : loc) (k : string)
    (hs : option (list HttpHeader)) (s : state) :
  pendingRequests (merge_headers log k hs s) = pendingRequests s.
Proof. by rewrite merge_headers_eq. Qed.

(** ** The storage queue *)

Lemma in_flight_app (l1 l2 : list task) :
  filter is_save_task (l1 ++ l2)
  = filter is_save_task l1 ++ filter is_save_task l2.
Proof. apply filter_app. Qed.

Lemma in_flight_one (t : task) :
  filter is_save_task [t] = if is_save_task t then [t] else [].
Proof. rewrite filter_cons, filter_nil. by destruct (is_save_task t). Qed.

Lemma processQueue_busy (s : state) : isSaving s = true → processQueue s = s.
Proof. intros H. unfold processQueue. by rewrite H. Qed.

Lemma saveLog_inv (log : loc) (s : state) :
  inv s →
  inv (saveLog log s) ∧ frame s (saveLog log s) ∧
  work (saveLog log s) = work s ++ [length (heap s)] ∧
  heap (saveLog log s) = heap s ++ [default ∅ (heap s !! log)] ∧
  pendingRequests (saveLog log s) = pendingRequests s ∧
  storage_logs (saveLog log s) = storage_logs s ∧
  storage_isRecording (saveLog log s) = storage_isRecording s ∧
  clock (saveLog log s) = clock s.
Proof.
  intros (Hh & Hs).
  set (o := default ∅ (heap s !! log)).
  assert (heap (saveLog log s) = heap s ++ [o]) as Hheap.
  { unfold saveLog, processQueue. simpl. destruct (isSaving s); [done|].
    by destruct (saveQueue s). }
  assert (pendingRequests (saveLog log s) = pendingRequests s) as Hp.
  { unfold saveLog, processQueue. simpl. destruct (isSaving s); [done|].
    by destruct (saveQueue s). }
  assert (storage_logs (saveLog log s) = storage_logs s) as Hlogs.
  { unfold saveLog, processQueue. simpl. destruct (isSaving s); [done|].
    by destruct (saveQueue s). }
  assert (work (saveLog log s) = work s ++ [length (heap s)]) as Hw.
  { unfold inv_save in Hs. unfold saveLog, processQueue, work, in_flight. simpl.
    destruct (isSaving s) eqn:E; simpl.
    - by rewrite app_assoc.
    - destruct Hs as [Hfl ->]. simpl. unfold in_flight in Hfl.
      rewrite in_flight_app, in_flight_one, Hfl. simpl. done. }
  assert (frame s (saveLog log s)) as Hf.
  { split; [rewrite Hheap, length_app; lia|]. split.
    - intros l [Hl _]. rewrite Hheap. by apply lookup_app_l.
    - intros id l. rewrite Hp. auto. }
  assert (inv_heap (saveLog log s)) as Hh'.
  { pose proof Hh as (H1 & H2 & H3).
    assert (∀ r, stable_loc s r → stable_loc (saveLog log s) r) as Hst
      by (intros r; by apply frame_stable).
    split; [|split].
    - rewrite Hheap, Hp, length_app. intros id l Hid. apply H1 in Hid. lia.
    - rewrite Hheap. intros l o' k r Hl Hk. apply Hst.
      apply lookup_app_Some in Hl as [Hl|[_ Hl]]; [by eapply H2|].
      apply list_lookup_singleton_Some in Hl as [_ <-].
      unfold o in Hk. destruct (heap s !! log) as [o0|] eqn:Ho0; simpl in Hk.
      + by eapply H2.
      + by rewrite lookup_empty in Hk.
    - rewrite Hw. intros q Hq. apply elem_of_app in Hq as [Hq|Hq].
      + by apply Hst, H3.
      + apply list_elem_of_singleton in Hq as ->. split.
        * rewrite Hheap, length_app. simpl. lia.
        * rewrite Hp. intros id Hid. apply H1 in Hid. lia. }
  assert (inv_save (saveLog log s)) as Hs'.
  { unfold inv_save in *. unfold saveLog, processQueue, in_flight. simpl.
    destruct (isSaving s) eqn:E; simpl.
    + rewrite E. destruct Hs as (t & Ht & Hok). exists t. split; [done|].
      destruct t; simpl in *; try done.
      assert (stable_loc s logToSave) as Hst.
      { destruct Hh as (_ & _ & H3). apply H3. unfold work. rewrite Ht.
        simpl. by left. }
      pose proof (snapshot_frame s (saveLog log s) logToSave Hh Hf Hst) as Hsn.
      rewrite Hheap in Hsn. fold o. by rewrite Hsn.
    + destruct Hs as [Hfl ->]. simpl. unfold in_flight in Hfl.
      rewrite in_flight_app, in_flight_one, Hfl. simpl.
      by exists (GetLogs (length (heap s))). }
  split; [done|].
  do 5 (split; [done|]).
  split; unfold saveLog, processQueue; simpl;
    (destruct (isSaving s); [done|]); by destruct (saveQueue s).
Qed.

Lemma unit_step (s s' : state) :
  inv s → unit_ok s s' → inv s' ∧ frame s s' ∧ queue_step s s'.
Proof.
  intros Hinv Hu. destruct (inv_unit _ _ Hinv Hu) as [Hinv' Hf].
  split; [done|]. split; [done|]. left. exists [].
  destruct Hinv as (Hh & _). destruct (Hu Hh) as (_ & _ & Hq).
  rewrite app_nil_r. split; [by apply quiet_work|]. by destruct Hq as (_&_&_&?).
Qed.

Lemma saveLog_step (log : loc) (s s1 s3 : state) :
  inv s → unit_ok s s1 → unit_ok (saveLog log s1) s3 →
  inv s3 ∧ frame s s3 ∧ queue_step s s3.
Proof.
  intros Hinv H1 H3. pose proof Hinv as (Hh & _).
  destruct (inv_unit _ _ Hinv H1) as [Hinv1 Hf1].
  destruct (H1 Hh) as (_ & _ & Hq1).
  destruct (saveLog_inv log s1 Hinv1) as (Hinv2 & Hf2 & Hw2 & _ & _ & Hl2 & _).
  destruct (inv_unit _ _ Hinv2 H3) as [Hinv3 Hf3].
  destruct Hinv2 as (Hh2 & _). destruct (H3 Hh2) as (_ & _ & Hq3).
  split; [done|]. split.
  - eapply frame_trans; [done|]. by eapply frame_trans.
  - left. exists [length (heap s1)]. split.
    + by rewrite (quiet_work _ _ Hq3), Hw2, (quiet_work _ _ Hq1).
    + destruct Hq3 as (_&_&_&->). rewrite Hl2. by destruct Hq1 as (_&_&_&->).
Qed.

Lemma delete_pending_unit (id : string) (s : state) :
  unit_ok s (with_pending (delete id (pendingRequests s)) s).
Proof.
  intros (H1 & H2 & H3).
  assert (∀ r, stable_loc s r →
            stable_loc (with_pending (delete id (pendingRequests s)) s) r) as Hst.
  { intros r [Hr Hne]. split; [done|]. simpl. intros id' Hid'.
    apply lookup_delete_Some in Hid' as [_ Hid']. by eapply Hne. }
  split; [split; [|split]|split; [split; [done|split]|by repeat split]].
  - simpl. intros id' l Hid'. apply lookup_delete_Some in Hid' as [_ Hid'].
    by eapply H1.
  - simpl. intros l o k r Hl Hk. apply Hst. by eapply H2.
  - intros q Hq. apply Hst, H3. done.
  - done.
  - simpl. intros id' l Hid'. apply lookup_delete_Some in Hid' as [_ Hid'].
    by left.
Qed.

Lemma storage_unit (s s' : state) :
  heap s' = heap s → pendingRequests s' = pendingRequests s →
  isSaving s' = isSaving s → saveQueue s' = saveQueue s →
  tasks s' = tasks s → storage_logs s' = storage_logs s →
  unit_ok s s'.
Proof.
  intros Hh Hp Hi Hq Ht Hl Hinv.
  assert (quiet s s') as Hquiet.
  { unfold quiet, in_flight. by rewrite Hi, Hq, Ht, Hl. }
  split; [|split; [by apply frame_same|done]].
  apply (inv_heap_same s); [done|done| |done]. intros q.
  by rewrite (quiet_work _ _ Hquiet).
Qed.

Lemma in_flight_remove (s : state) (i : nat) (t t0 : task) :
  tasks s !! i = Some t → is_save_task t = true → in_flight s = [t0] →
  t0 = t ∧ in_flight (with_tasks (delete i (tasks s)) s) = [].
Proof.
  intros Hi Ht. unfold in_flight. simpl. rewrite delete_take_drop.
  rewrite <- (take_drop_middle (tasks s) i t Hi) at 1.
  rewrite !in_flight_app. rewrite filter_cons, Ht. simpl.
  destruct (filter _ (take i (tasks s))) as [|a [|b l]]; simpl.
  - by intros [= <- ->].
  - by intros [= _ H].
  - by intros [= _ H].
Qed.

Lemma busy_when_in_flight (s : state) (i : nat) (t : task) :
  inv_save s → tasks s !! i = Some t → is_save_task t = true →
  isSaving s = true ∧ in_flight s = [t] ∧ task_ok s t ∧
  in_flight (with_tasks (delete i (tasks s)) s) = [].
Proof.
  intros Hs Hi Ht. unfold inv_save in Hs. destruct (isSaving s).
  - destruct Hs as (t0 & Hfl & Hok).
    destruct (in_flight_remove s i t t0 Hi Ht Hfl) as [-> Hrm]. done.
  - destruct Hs as [Hfl _]. exfalso.
    assert (t ∈ in_flight s) as Hin.
    { apply list_elem_of_filter. split; [by rewrite Ht|].
      by eapply list_elem_of_lookup_2. }
    rewrite Hfl in Hin. by apply elem_of_nil in Hin.
Qed.

Lemma save_step_inv (s s' : state) :
  inv s → heap s' = heap s → pendingRequests s' = pendingRequests s →
  inv_save s' →
  (∀ q, q ∈ work s' → q ∈ work s) →
  inv s' ∧ frame s s'.
Proof.
  intros (Hh & _) Hheap Hp Hs' Hw.
  split; [|by apply frame_same].
  split; [by apply (inv_heap_same s)|done].
Qed.

(** what the two callbacks do once the write is settled: release the flag
    and start on the next queued record *)
Lemma processQueue_set_spec (s0 : state) :
  in_flight s0 = [] →
  inv_save (processQueue_set s0) ∧
  work (processQueue_set s0) = saveQueue s0 ∧
  heap (processQueue_set s0) = heap s0 ∧
  pendingRequests (processQueue_set s0) = pendingRequests s0 ∧
  storage_logs (processQueue_set s0) = storage_logs s0.
Proof.
  intros Hfl. unfold processQueue_set, processQueue, inv_save, work. simpl.
  unfold in_flight in *.
  destruct (saveQueue s0) as [|x rest] eqn:Hq; simpl.
  - rewrite Hfl, Hq. done.
  - rewrite in_flight_app, in_flight_one, Hfl. simpl.
    repeat split; try done. by exists (GetLogs x).
Qed.

(** ** Every step keeps the invariant *)

Lemma recording_got_step (p : phase) (d : details) (r : bool) (s0 s : state) :
  inv s0 → unit_ok s0 s →
  inv (recording_got p d r s) ∧ frame s0 (recording_got p d r s) ∧
  queue_step s0 (recording_got p d r s).
Proof.
  intros Hinv Hu. unfold recording_got.
  destruct r; simpl; [|by apply unit_step].
  pose proof (getOrCreatePending_unit (requestId d) s) as Hg.
  pose proof (getOrCreatePending_is_entry (requestId d) s) as He.
  destruct (getOrCreatePending (requestId d) s) as [log s1]. simpl in *.
  destruct p.
  - eapply saveLog_step; [done| |apply unit_ok_refl].
    eapply unit_ok_trans; [done|]. eapply unit_ok_trans; [done|].
    eapply unit_ok_trans; [|apply capture_body_unit; exact He].
    eapply unit_ok_trans; [|apply set_prop_unit; [exact He|by intros ? [=]]].
    eapply unit_ok_trans; [|apply set_prop_unit; [exact He|by intros ? [=]]].
    apply set_prop_unit; [exact He|by intros ? [=]].
  - eapply saveLog_step; [done| |apply unit_ok_refl].
    eapply unit_ok_trans; [done|]. eapply unit_ok_trans; [done|].
    by apply merge_headers_unit.
  - eapply saveLog_step; [done| |apply unit_ok_refl].
    eapply unit_ok_trans; [done|]. eapply unit_ok_trans; [done|].
    by apply merge_headers_unit.
Qed.

Lemma run_save_task_inv (i : nat) (t : task) (s s' : state) :
  inv s → tasks s !! i = Some t → is_save_task t = true →
  run_task t (with_tasks (delete i (tasks s)) s) = Some s' →
  inv s' ∧ frame s s' ∧ queue_step s s'.
Proof.
  intros Hinv Hi Ht Hrun. pose proof Hinv as (Hh & Hs).
  destruct (busy_when_in_flight s i t Hs Hi Ht) as (Hbusy & Hfl & Hok & Hrm).
  set (s0 := with_tasks (delete i (tasks s)) s) in *.
  assert (work s = omap unapplied [t] ++ saveQueue s) as Hws.
  { unfold work. by rewrite Hfl. }
  destruct t as [| |q|q r|q newLogs|q|]; try done; simpl in Hrun, Hok;
    injection Hrun as <-.
  - (* the backend reads the stored logs *)
    assert (in_flight (spawn (CbGetLogs q (storage_logs s0)) s0)
            = [CbGetLogs q (storage_logs s)]) as Hfl'.
    { unfold in_flight in *. simpl. simpl in Hrm.
      by rewrite in_flight_app, in_flight_one, Hrm. }
    assert (work (spawn (CbGetLogs q (storage_logs s0)) s0) = work s) as Hw'.
    { unfold work at 1. rewrite Hfl', Hws. done. }
    destruct (save_step_inv s (spawn (CbGetLogs q (storage_logs s0)) s0))
      as [Hinv' Hf']; try done.
    + unfold inv_save. simpl. rewrite Hbusy. eexists. split; [done|]. done.
    + intros q'. by rewrite Hw'.
    + split; [done|]. split; [done|]. left. exists []. by rewrite app_nil_r.
  - (* the callback of the read *)
    subst r. unfold processQueue_got.
    change (heap s0) with (heap s).
    destruct (decide_save (snapshot (heap s) q) (storage_logs s)) as [newLogs|]
      eqn:Hdec.
    + assert (in_flight (spawn (SetLogs q newLogs) s0) = [SetLogs q newLogs])
        as Hfl'.
      { unfold in_flight in *. simpl. simpl in Hrm.
        by rewrite in_flight_app, in_flight_one, Hrm. }
      assert (work (spawn (SetLogs q newLogs) s0) = work s) as Hw'.
      { unfold work at 1. rewrite Hfl', Hws. done. }
      destruct (save_step_inv s (spawn (SetLogs q newLogs) s0))
        as [Hinv' Hf']; try done.
      * unfold inv_save. simpl. rewrite Hbusy. eexists. split; [done|]. done.
      * intros q'. by rewrite Hw'.
      * split; [done|]. split; [done|]. left. exists []. by rewrite app_nil_r.
    + destruct (processQueue_set_spec s0 Hrm) as (Hs' & Hw' & Hh' & Hp' & Hl').
      fold (processQueue_set s0).
      destruct (save_step_inv s (processQueue_set s0)) as [Hinv' Hf'];
        try done.
      * intros q'. rewrite Hw', Hws. simpl. by right.
      * split; [done|]. split; [done|]. right. exists q, (saveQueue s).
        split; [by rewrite Hws|]. split; [done|].
        rewrite Hl'. unfold apply_record. by rewrite Hdec.
  - (* the backend performs the write *)
    assert (in_flight (spawn (CbSetLogs q) (with_logs (Some newLogs) s0))
            = [CbSetLogs q]) as Hfl'.
    { unfold in_flight in *. simpl. simpl in Hrm.
      by rewrite in_flight_app, in_flight_one, Hrm. }
    assert (work (spawn (CbSetLogs q) (with_logs (Some newLogs) s0))
            = saveQueue s) as Hw'.
    { unfold work at 1. rewrite Hfl'. done. }
    destruct (save_step_inv s (spawn (CbSetLogs q) (with_logs (Some newLogs) s0)))
      as [Hinv' Hf']; try done.
    + unfold inv_save. simpl. rewrite Hbusy. eexists. split; [done|]. done.
    + intros q'. rewrite Hw', Hws. simpl. by right.
    + split; [done|]. split; [done|]. right. exists q, (saveQueue s).
      split; [by rewrite Hws|]. split; [done|].
      simpl. unfold apply_record. by rewrite Hok.
  - (* the callback of the write *)
    destruct (processQueue_set_spec s0 Hrm) as (Hs' & Hw' & Hh' & Hp' & Hl').
    destruct (save_step_inv s (processQueue_set s0)) as [Hinv' Hf']; try done.
    + intros q'. by rewrite Hw', Hws.
    + split; [done|]. split; [done|]. left. exists [].
      rewrite Hw', Hws, app_nil_r. done.
Qed.

Lemma exec_inv (a : action) (s s' : state) :
  inv s → exec a s = Some s' →
  inv s' ∧ frame s s' ∧ queue_step s s'.
Proof.
  intros Hinv. destruct a as [d|d|d|d|d|b|dt|i]; simpl.
  - intros [= <-]. apply unit_step; [done|]. unfold onBeforeRequest.
    destruct (_ || _); [apply unit_ok_refl|by apply spawn_unit].
  - intros [= <-]. apply unit_step; [done|]. unfold onBeforeSendHeaders.
    destruct (_ || _); [apply unit_ok_refl|by apply spawn_unit].
  - intros [= <-]. apply unit_step; [done|]. unfold onHeadersReceived.
    destruct (_ || _); [apply unit_ok_refl|by apply spawn_unit].
  - intros [= <-]. unfold onCompleted.
    destruct (pendingRequests s !! requestId d) as [log|] eqn:E;
      [|apply unit_step; [done|apply unit_ok_refl]].
    destruct (isApiRequest d); [|apply unit_step; [done|apply unit_ok_refl]].
    eapply saveLog_step; [done| |by apply spawn_unit].
    apply set_prop_unit; [by exists (requestId d)|by intros ? [=]].
  - intros [= <-]. unfold onErrorOccurred.
    destruct (pendingRequests s !! requestId d) as [log|] eqn:E;
      [|apply unit_step; [done|apply unit_ok_refl]].
    destruct (isApiRequest d); [|apply unit_step; [done|apply unit_ok_refl]].
    eapply saveLog_step; [done| |apply delete_pending_unit].
    eapply unit_ok_trans;
      [|apply set_prop_unit; [by exists (requestId d)|by intros ? [=]]].
    apply set_prop_unit; [by exists (requestId d)|by intros ? [=]].
  - intros [= <-]. apply unit_step; [done|]. by apply storage_unit.
  - case_bool_decide; [|done]. intros [= <-]. apply unit_step; [done|].
    by apply storage_unit.
  - destruct (tasks s !! i) as [t|] eqn:Hi; simpl; [|done].
    destruct (is_save_task t) eqn:Ht; [by apply run_save_task_inv|].
    pose proof (remove_unit i t s Hi Ht) as Hrm.
    destruct t as [p d|p d r| | | | |id due]; try done; simpl.
    + intros [= <-]. apply unit_step; [done|].
      eapply unit_ok_trans; [done|]. by apply spawn_unit.
    + intros [= <-]. by apply recording_got_step.
    + case_bool_decide; [|done]. intros [= <-]. apply unit_step; [done|].
      eapply unit_ok_trans; [done|].
      apply (delete_pending_unit id (with_tasks (delete i (tasks s)) s)).
Qed.

Lemma init_inv (isRecording : bool) (logs : option (list srec)) (now : Z) :
  inv (init isRecording logs now).
Proof.
  split.
  - split; [|split]; simpl.
    + intros id l H. by rewrite lookup_empty in H.
    + intros l o k r H. by rewrite lookup_nil in H.
    + intros q Hq. unfold work, in_flight in Hq. simpl in Hq.
      by apply elem_of_nil in Hq.
  - unfold inv_save, in_flight. simpl. done.
Qed.

Lemma run_inv (tr : list action) (s s' : state) :
  inv s → run tr s = Some s' → inv s'.
Proof.
  revert s. induction tr as [|a tr IH]; intros s Hinv; simpl.
  - by intros [= <-].
  - destruct (exec a s) as [s1|] eqn:E; simpl; [|done].
    apply IH. by destruct (exec_inv _ _ _ Hinv E).
Qed.

Lemma reachable_inv (s : state) :
  reachable s → inv s.
Proof.
  intros (isRec & logs & now & tr & Hlen & Hrun).
  eapply run_inv; [|done]. apply init_inv.
Qed.

Lemma exec_bounded (a : action) (s s' : state) :
  inv s → bounded s → exec a s = Some s' → bounded s'.
Proof.
  intros Hinv Hb Hex. unfold bounded in *.
  destruct (exec_inv _ _ _ Hinv Hex) as (_ & _ & [(new & _ & ->)|(q & rest & _ & _ & ->)]);
    [done|by apply apply_record_length].
Qed.

Lemma run_bounded (tr : list action) (s s' : state) :
  inv s → bounded s → run tr s = Some s' → bounded s'.
Proof.
  revert s. induction tr as [|a tr IH]; intros s Hinv Hb; simpl.
  - by intros [= <-].
  - destruct (exec a s) as [s1|] eqn:E; simpl; [|done].
    apply IH; [by destruct (exec_inv _ _ _ Hinv E)|by eapply exec_bounded].
Qed.

Lemma reachable_bounded (s : state) :
  reachable s → bounded s.
Proof.
  intros (isRec & logs & now & tr & Hlen & Hrun).
  eapply run_bounded; [apply init_inv| |done]. done.
Qed.

(** * The claims *)

Lemma queue_step_order (s s' : state) (l1 l2 l3 : list loc) (r1 r2 : loc) :
  queue_step s s' → work s = l1 ++ r1 :: l2 ++ r2 :: l3 → r2 ∈ work s'.
Proof.
  intros [(new & -> & _)|(q & rest & Hw & -> & _)] Hw'.
  - rewrite Hw'. set_solver.
  - rewrite Hw' in Hw. destruct l1 as [|x l1]; simplify_eq/=; set_solver.
Qed.

Lemma clone_ext (h h' : heap_t) (o : obj) :
  (∀ k r, o !! k = Some (VRef r) → h' !! r = h !! r) →
  omap (clone h') o = omap (clone h) o.
Proof.
  intros Hr. apply map_eq. intros k. rewrite !lookup_omap.
  destruct (o !! k) as [[| | |r]|] eqn:Hk; simpl; try done.
  by rewrite (Hr k r Hk).
Qed.

Lemma saveLog_snapshot (log : loc) (s : state) :
  inv s →
  snapshot (heap (saveLog log s)) (length (heap s)) = snapshot (heap s) log.
Proof.
  intros Hinv. destruct (saveLog_inv log s Hinv) as (_ & _ & _ & Hheap & _).
  pose proof Hinv as ((_ & H2 & _) & _).
  unfold snapshot. rewrite Hheap.
  rewrite (list_lookup_middle (heap s) [] _ (length (heap s))) by done.
  destruct (heap s !! log) as [o|] eqn:Ho; simpl.
  - apply clone_ext. intros k r Hk. apply lookup_app_l.
    by destruct (H2 _ _ _ _ Ho Hk).
  - by rewrite !omap_empty.
Qed.


(** C3 (amended). In every reachable state the stored logs hold at most 100
    records.  Saving a record whose identifier is already stored merges it
    into the first such entry in place, the list keeping its length and
    order; saving a record with a new identifier and a non-empty url
    prepends it, and when the list is full exactly its last (oldest) entry
    is evicted. *)
Theorem C3_store_bounded (s : state) (r : srec) :
  reachable s →
  let cur := default [] (storage_logs s) in
  length cur ≤ MAX_LOGS ∧
  (∀ idx, findIndex r cur = Some idx →
     ∃ old, cur !! idx = Some old ∧
       strict_eq (old !! "id") (r !! "id") = true ∧
       decide_save r (storage_logs s) = Write (<[idx := spread old r]> cur) ∧
       length (<[idx := spread old r]> cur) = length cur ∧
       ∀ j, j ≠ idx → <[idx := spread old r]> cur !! j = cur !! j) ∧
  (findIndex r cur = None → struthy (r !! "url") = true →
     decide_save r (storage_logs s) = Write (take MAX_LOGS (r :: cur)) ∧
     (length cur < MAX_LOGS → take MAX_LOGS (r :: cur) = r :: cur) ∧
     (length cur = MAX_LOGS →
        ∃ front oldest, cur = front ++ [oldest] ∧
                        take MAX_LOGS (r :: cur) = r :: front)).
Proof.
  intros Hr cur. apply reachable_bounded in Hr as Hlen.
  fold cur in Hlen. split; [done|]. split.
  - intros idx Hidx. destruct (findIndex_Some _ _ _ Hidx) as (old & Hold & Heq & _).
    exists old. split; [done|]. split; [done|]. split.
    + unfold decide_save. fold cur. by rewrite Hidx, Hold.
    + split; [by rewrite length_insert|].
      intros j Hj. by apply list_lookup_insert_ne.
  - intros Hnone Hurl. split; [by apply decide_save_prepend|]. split.
    + intros Hlt. apply take_ge. simpl. lia.
    + intros Hfull. destruct (decide (cur = [])) as [Hnil|Hne].
      { rewrite Hnil in Hfull. discriminate Hfull. }
      destruct (exists_last Hne) as (front & oldest & Hcur).
      exists front, oldest. split; [done|].
      rewrite Hcur in Hfull. rewrite length_app in Hfull. simpl in Hfull.
      rewrite Hcur. change (r :: front ++ [oldest]) with ((r :: front) ++ [oldest]).
      rewrite take_app_le by (simpl; lia). apply take_ge. simpl. lia.
Qed.

(** C7. A dequeued record whose identifier is not in the stored logs and
    whose url is absent (or empty, which [!logToSave.url] treats alike) is
    dropped: running the callback of its read
    succeeds, writes nothing (the stored logs are unchanged and no write is
    issued), releases the flag and goes on with the next queued record when
    there is one. *)
Theorem C7_urlless_new_record_dropped (s : state) (i : nat) (q : loc)
    (result : option (list srec)) :
  reachable s →
  tasks s !! i = Some (CbGetLogs q result) →
  findIndex (snapshot (heap s) q) (default [] (storage_logs s)) = None →
  struthy (snapshot (heap s) q !! "url") = false →
  ∃ s', exec (Run i) s = Some s' ∧
    storage_logs s' = storage_logs s ∧
    heap s' = heap s ∧ pendingRequests s' = pendingRequests s ∧
    match saveQueue s with
    | [] => isSaving s' = false ∧ saveQueue s' = [] ∧
            tasks s' = delete i (tasks s)
    | next :: rest => isSaving s' = true ∧ saveQueue s' = rest ∧
            tasks s' = delete i (tasks s) ++ [GetLogs next]
    end.
Proof.
  intros Hr Hi Hidx Hurl. apply reachable_inv in Hr as (_ & Hs).
  destruct (busy_when_in_flight s i _ Hs Hi eq_refl) as (_ & _ & Hok & _).
  simpl in Hok. subst result.
  eexists. split.
  { simpl. rewrite Hi. simpl. reflexivity. }
  unfold processQueue_got.
  change (heap (with_tasks (delete i (tasks s)) s)) with (heap s).
  rewrite (decide_save_drop _ _ Hidx) by done.
  simpl. unfold processQueue. simpl.
  destruct (saveQueue s) as [|next rest] eqn:E; simpl; rewrite ?E; done.
Qed.

Lemma saveLog_heap (log : loc) (s : state) :
  heap (saveLog log s) = heap s ++ [default ∅ (heap s !! log)].
Proof.
  unfold saveLog, processQueue. simpl. destruct (isSaving s); [done|].
  by destruct (saveQueue s).
Qed.

Lemma saveLog_pending (log : loc) (s : state) :
  pendingRequests (saveLog log s) = pendingRequests s.
Proof.
  unfold saveLog, processQueue. simpl. destruct (isSaving s); [done|].
  by destruct (saveQueue s).
Qed.



Lemma set_prop_length (l : loc) (k : string) (v : jsval) (s : state) :
  length (heap (set_prop l k v s)) = length (heap s).
Proof. simpl. apply length_alter. Qed.

Lemma capture_body_length (log : loc) (d : details) (s : state) :
  length (heap (capture_body log d s)) = length (heap s).
Proof.
  unfold capture_body.
  destruct (requestBody d) as [body|]; [|done].
  destruct (raw body) as [[|first ?]|].
  - destruct (formData body); [apply set_prop_length|done].
  - destruct (TextDecoder_decode (bytes first)); apply set_prop_length.
  - destruct (formData body); [apply set_prop_length|done].
Qed.


(** ** The rule manager *)

Lemma split_qmark_0_no_qmark (u : string) :
  has_char "?" (JsString.split_qmark_0 u) = false.
Proof.
  induction u as [|c u IH]; [done|]. cbn [JsString.split_qmark_0].
  destruct (Ascii.eqb_spec c "?") as [->|Hc]; [done|]. cbn [has_char].
  rewrite IH, orb_false_r. apply Ascii.eqb_neq. congruence.
Qed.

Lemma updateSessionRules_remove (active : list Dnr.Rule) :
  updateSessionRules [1%Z] [] active
  = (filter (λ r, Dnr.id r ∉ [1%Z]) active, None).
Proof. unfold updateSessionRules. simpl. by rewrite app_nil_r. Qed.

Lemma updateSessionRules_replace (r : Dnr.Rule) (active : list Dnr.Rule) :
  updateSessionRules [1%Z] [r] active
  = match rule_error r with
    | Some msg => (active, Some msg)
    | None => (filter (λ r, Dnr.id r ∉ [1%Z]) active ++ [r], None)
    end.
Proof.
  unfold updateSessionRules. simpl.
  destruct (rule_error r) as [msg|] eqn:E.
  - destruct (decide (is_Some (rule_error r))) as [Hs|Hs].
    + simpl. by rewrite E.
    + destruct Hs. by rewrite E.
  - destruct (decide (is_Some (rule_error r))) as [Hs|Hs]; simpl; [|done].
    rewrite E in Hs. by destruct Hs.
Qed.

Lemma single_slot_removed (active : list Dnr.Rule) :
  single_slot active → filter (λ r, Dnr.id r ∉ [1%Z]) active = [].
Proof.
  intros [->|(url & hs & ->)]; [done|].
  rewrite filter_cons, filter_nil. simpl.
  destruct (decide (1%Z ∉ [1%Z])) as [Hn|]; [|done].
  destruct Hn. by left.
Qed.

Lemma onMessage_single_slot (m : Dnr.message) (active : list Dnr.Rule) :
  single_slot active → single_slot (onMessage m active).1.
Proof.
  intros Hs. destruct m as [url hs| |ty]; unfold onMessage; [| |done].
  - rewrite updateSessionRules_replace.
    destruct (rule_error (override_rule url hs)); cbn [fst]; [done|].
    rewrite single_slot_removed by done. right. by exists url, hs.
  - rewrite updateSessionRules_remove. cbn [fst].
    rewrite single_slot_removed by done. by left.
Qed.

Lemma rules_after_snoc (ms : list Dnr.message) (m : Dnr.message) :
  rules_after (ms ++ [m]) = (onMessage m (rules_after ms)).1.
Proof. unfold rules_after. by rewrite foldl_app. Qed.

Lemma rules_after_single_slot (ms : list Dnr.message) :
  single_slot (rules_after ms).
Proof.
  induction ms as [|m ms IH] using rev_ind; [by left|].
  rewrite rules_after_snoc. by apply onMessage_single_slot.
Qed.

Lemma override_rule_header (url : string) (headers : list Dnr.KeyValue)
    (i : nat) (h : Dnr.KeyValue) :
  headers !! i = Some h →
  ∃ m, Dnr.requestHeaders (Dnr.action (override_rule url headers)) !! i = Some m ∧
       Dnr.operation m = Dnr.SET ∧ Dnr.value m = Dnr.kv_value h ∧
       (∀ k, Dnr.key h = Some k → k ≠ "" → Dnr.header m = Some k) ∧
       (Dnr.key h = None ∨ Dnr.key h = Some "" → Dnr.header m = Dnr.name h).
Proof.
  intros Hi. eexists. split.
  { cbn [override_rule Dnr.action Dnr.requestHeaders].
    rewrite list_lookup_fmap, Hi. reflexivity. }
  cbn [Dnr.operation Dnr.value Dnr.header]. split; [done|]. split; [done|].
  unfold key_or_name. split.
  - intros k -> Hk. by destruct k.
  - by intros [->| ->].
Qed.

(** C8 (amended). The rule of a [SET_REQUEST_HEADERS] message has the
    fixed id 1 and matches the url cut before its first question mark; it
    sets one header for each element of the message's list, in order, named
    by the element's [key] when that is a non-empty string and by its
    [name] otherwise; it is installed by one update that removes id 1 and
    adds the rule.  Whatever messages were handled, at most one rule with
    id 1 is active.  Of two [SET_REQUEST_HEADERS] messages in a row, when
    the browser accepts the rule of the second, that rule alone is active,
    with the second header list, and the message is answered with success;
    when the browser rejects it, the rules stay as the first message left
    them and the message is answered with the browser's error.  After a
    [CLEAR_REQUEST_HEADERS], whatever came before, no rule is active. *)
Theorem C8_single_override_rule (ms : list Dnr.message) (url1 url2 : string)
    (headers1 headers2 : list Dnr.KeyValue) :
  let r2 := override_rule url2 headers2 in
  let set1 := Dnr.SET_REQUEST_HEADERS url1 headers1 in
  let set2 := Dnr.SET_REQUEST_HEADERS url2 headers2 in
  (Dnr.id r2 = 1%Z ∧
   Dnr.urlFilter (Dnr.condition r2) = JsString.split_qmark_0 url2 ∧
   has_char "?" (Dnr.urlFilter (Dnr.condition r2)) = false ∧
   (∃ rest, url2 = Dnr.urlFilter (Dnr.condition r2) +:+ rest ∧
            (rest = "" ∨ ∃ rest', rest = String "?" rest')) ∧
   length (Dnr.requestHeaders (Dnr.action r2)) = length headers2 ∧
   (∀ i h, headers2 !! i = Some h →
      ∃ m, Dnr.requestHeaders (Dnr.action r2) !! i = Some m ∧
           Dnr.operation m = Dnr.SET ∧ Dnr.value m = Dnr.kv_value h ∧
           (∀ k, Dnr.key h = Some k → k ≠ "" → Dnr.header m = Some k) ∧
           (Dnr.key h = None ∨ Dnr.key h = Some "" →
            Dnr.header m = Dnr.name h))) ∧
  (∀ active, (onMessage set2 active).1
             = (updateSessionRules [1%Z] [r2] active).1) ∧
  (∀ ms', length (filter (λ r, Dnr.id r = 1%Z) (rules_after ms')) ≤ 1) ∧
  (rule_error r2 = None →
   rules_after (ms ++ [set1; set2]) = [r2] ∧
   (onMessage set2 (rules_after (ms ++ [set1]))).2
   = Some {| Dnr.success := true; Dnr.error := None |}) ∧
  (∀ msg, rule_error r2 = Some msg →
   rules_after (ms ++ [set1; set2]) = rules_after (ms ++ [set1]) ∧
   (onMessage set2 (rules_after (ms ++ [set1]))).2
   = Some {| Dnr.success := false; Dnr.error := Some msg |}) ∧
  rules_after (ms ++ [set1; set2; Dnr.CLEAR_REQUEST_HEADERS]) = [].
Proof.
  intros r2 set1 set2.
  assert (rules_after (ms ++ [set1; set2])
          = (onMessage set2 (rules_after (ms ++ [set1]))).1) as H2.
  { change (ms ++ [set1; set2]) with (ms ++ [set1] ++ [set2]).
    by rewrite app_assoc, rules_after_snoc. }
  split; [|split; [|split; [|split; [|split]]]].
  - split; [done|]. split; [done|]. split; [apply split_qmark_0_no_qmark|].
    split; [apply split_qmark_0_prefix|].
    split; [apply length_fmap|]. intros i h. apply override_rule_header.
  - intros active. unfold set2, onMessage. fold r2.
    by destruct (updateSessionRules [1%Z] [r2] active) as [a [e|]].
  - intros ms'. destruct (rules_after_single_slot ms') as [->|(u & h & ->)].
    + simpl. lia.
    + rewrite filter_cons, filter_nil. by destruct (decide _).
  - intros Hok. rewrite H2. unfold set2, onMessage. fold r2.
    rewrite updateSessionRules_replace, Hok. cbn [fst snd].
    rewrite single_slot_removed; [done|apply rules_after_single_slot].
  - intros msg Herr. rewrite H2. unfold set2, onMessage. fold r2.
    by rewrite updateSessionRules_replace, Herr.
  - change (ms ++ [set1; set2; Dnr.CLEAR_REQUEST_HEADERS])
      with (ms ++ [set1; set2] ++ [Dnr.CLEAR_REQUEST_HEADERS]).
    rewrite app_assoc, rules_after_snoc. unfold onMessage.
    rewrite updateSessionRules_remove. cbn [fst].
    apply single_slot_removed, rules_after_single_slot.
Qed.

(** ** Clones of entries *)

Lemma entry_allocated (s : state) (log : loc) :
  inv_heap s → is_entry s log → log < length (heap s).
Proof. intros (H1 & _) [id Hid]. by eapply H1. Qed.

Lemma entry_refs (s : state) (log r : loc) (o : obj) (k : string) :
  inv_heap s → is_entry s log → heap s !! log = Some o →
  o !! k = Some (VRef r) → r < length (heap s) ∧ r ≠ log.
Proof.
  intros (_ & H2 & _) [id Hid] Ho Hk.
  destruct (H2 _ _ _ _ Ho Hk) as [Hr Hne]. split; [done|].
  intros ->. by eapply Hne.
Qed.

Lemma snapshot_set_prop (log : loc) (k : string) (v : jsval) (a : leaf)
    (s : state) :
  inv_heap s → is_entry s log → leaf_of v = Some a →
  snapshot (heap (set_prop log k v s)) log
  = <[k := SLeaf a]> (snapshot (heap s) log).
Proof.
  intros Hinv Hent Hv. pose proof (entry_allocated _ _ Hinv Hent) as Hlog.
  destruct (lookup_lt_is_Some_2 _ _ Hlog) as [o Ho].
  unfold snapshot. simpl. rewrite list_lookup_alter_eq, Ho. simpl.
  rewrite (omap_insert_Some _ _ _ _ (SLeaf a)).
  - f_equal. apply clone_ext. intros k' r Hk'.
    apply list_lookup_alter_ne. intros ->.
    by destruct (entry_refs _ _ _ _ _ Hinv Hent Ho Hk').
  - destruct v; simpl in *; by simplify_eq.
Qed.

Lemma omap_union_total {A B} (f : A → option B) (m1 m2 : gmap string A) :
  (∀ k v, m1 !! k = Some v → is_Some (f v)) →
  omap f (m1 ∪ m2) = omap f m1 ∪ omap f m2.
Proof.
  intros Htot. apply map_eq. intros k.
  rewrite lookup_omap, !lookup_union, !lookup_omap.
  destruct (m1 !! k) as [v|] eqn:E1; simpl.
  - destruct (Htot _ _ E1) as [b Hb]. rewrite Hb.
    by destruct (m2 !! k) as [v2|]; simpl; [destruct (f v2)|].
  - destruct (m2 !! k) as [v2|]; simpl; [|done]. by destruct (f v2).
Qed.

Lemma fill_headers_leaves (hs : list HttpHeader) (o : obj) :
  omap leaf_of (fill_headers hs o)
  = foldl (λ m h, if bool_decide (name h = "__proto__") then m
                  else <[name h := LStr (value_or_empty h)]> m)
          (omap leaf_of o) hs.
Proof.
  revert o. induction hs as [|h hs IH]; intros o; simpl; [done|].
  rewrite IH. case_bool_decide; [done|].
  by rewrite (omap_insert_Some _ _ _ _ (LStr (value_or_empty h))).
Qed.

Lemma add_headers_leaves (hs : list HttpHeader) (m : gmap string string) :
  LStr <$> add_headers hs m
  = foldl (λ m h, if bool_decide (name h = "__proto__") then m
                  else <[name h := LStr (value_or_empty h)]> m)
          (LStr <$> m) hs.
Proof.
  revert m. induction hs as [|h hs IH]; intros m; simpl; [done|].
  unfold add_headers in *. simpl. rewrite IH.
  case_bool_decide; [done|]. by rewrite fmap_insert.
Qed.

Lemma fill_headers_total (hs : list HttpHeader) (k : string) (v : jsval) :
  fill_headers hs ∅ !! k = Some v → is_Some (leaf_of v).
Proof.
  intros Hk. destruct v as [| | |r]; simpl; try by eexists.
  apply fill_headers_ref in Hk. by rewrite lookup_empty in Hk.
Qed.

Lemma fill_headers_empty_leaves (hs : list HttpHeader) :
  omap leaf_of (fill_headers hs ∅) = LStr <$> add_headers hs ∅.
Proof.
  rewrite fill_headers_leaves, add_headers_leaves.
  by rewrite omap_empty, fmap_empty.
Qed.


Lemma snapshot_capture_body (log : loc) (d : details) (s : state) :
  inv_heap s → is_entry s log →
  snapshot (heap (capture_body log d s)) log
  = body_update d (snapshot (heap s) log).
Proof.
  intros Hinv Hent. unfold capture_body, body_update.
  destruct (requestBody d) as [body|]; [|done].
  destruct (raw body) as [[|first ?]|].
  - destruct (formData body); [by apply snapshot_set_prop|done].
  - destruct (TextDecoder_decode (bytes first)); by apply snapshot_set_prop.
  - destruct (formData body); [by apply snapshot_set_prop|done].
Qed.

Lemma snapshot_merge_headers (log : loc) (k : string)
    (hs : option (list HttpHeader)) (s : state) :
  inv_heap s → is_entry s log →
  snapshot (heap (merge_headers log k hs s)) log
  = headers_update k hs (snapshot (heap s) log).
Proof.
  intros Hinv Hent. pose proof (entry_allocated _ _ Hinv Hent) as Hlog.
  destruct (lookup_lt_is_Some_2 _ _ Hlog) as [o Ho].
  rewrite merge_headers_eq. cbv zeta.
  set (filled := fill_headers (default [] hs) ∅).
  set (s2 := (alloc filled s).2).
  set (P := props_of (get_prop log k s2) s2).
  set (n := length (heap s)) in *.
  assert (heap s2 = heap s ++ [filled]) as Hh2 by done.
  assert (∀ l, l < n → (heap s2 ++ [spread P filled]) !! l = heap s !! l) as Hold.
  { intros l Hl. rewrite lookup_app_l; [by rewrite Hh2, lookup_app_l|].
    rewrite Hh2, length_app. unfold n in *. lia. }
  assert ((heap s2 ++ [spread P filled]) !! S n = Some (spread P filled)) as Hnew.
  { rewrite Hh2. replace (S n) with (length (heap s ++ [filled])).
    - by rewrite list_lookup_middle.
    - rewrite length_app. simpl. unfold n. lia. }
  assert (omap leaf_of P
          = match snapshot (heap s) log !! k with Some (SObj x) => x | _ => ∅ end)
    as HP.
  { unfold P, get_prop, snapshot. rewrite Hh2, lookup_app_l, Ho by done. simpl.
    rewrite lookup_omap. destruct (o !! k) as [[| | |r]|] eqn:Hk; simpl;
      try by rewrite omap_empty.
    destruct (entry_refs _ _ _ _ _ Hinv Hent Ho Hk) as [Hr _].
    rewrite ?Hh2, lookup_app_l by done.
    destruct (lookup_lt_is_Some_2 _ _ Hr) as [old ->]. done. }
  rewrite Hh2 in Hold, Hnew.
  unfold headers_update. rewrite <- HP. unfold snapshot. simpl.
  rewrite list_lookup_alter_eq, Hold, Ho by done. simpl.
  rewrite (omap_insert_Some _ _ _ _ (SObj (omap leaf_of (spread P filled)))).
  - f_equal.
    + f_equal. unfold spread. rewrite omap_union_total.
      * by rewrite <- fill_headers_empty_leaves.
      * intros k' v. apply fill_headers_total.
    + apply clone_ext. intros k' r Hk'.
      destruct (entry_refs _ _ _ _ _ Hinv Hent Ho Hk') as [Hr Hne].
      rewrite list_lookup_alter_ne by done. by apply (Hold r).
  - simpl. rewrite list_lookup_alter_ne by (unfold n; lia).
    by rewrite Hnew.
Qed.

Lemma snapshot_saveLog (log l : loc) (s : state) :
  inv_heap s → l < length (heap s) →
  snapshot (heap (saveLog log s)) l = snapshot (heap s) l.
Proof.
  intros (_ & H2 & _) Hl. unfold snapshot. rewrite saveLog_heap.
  rewrite lookup_app_l by done.
  destruct (heap s !! l) as [o|] eqn:Ho; [|done].
  apply clone_ext. intros k r Hk. apply lookup_app_l.
  by destruct (H2 _ _ _ _ Ho Hk).
Qed.

Lemma getOrCreatePending_snapshot (id : string) (s : state) :
  inv_heap s →
  let log := (getOrCreatePending id s).1 in
  let s1 := (getOrCreatePending id s).2 in
  pendingRequests s1 = <[id := log]> (pendingRequests s) ∧
  tasks s1 = tasks s ∧ isSaving s1 = isSaving s ∧ saveQueue s1 = saveQueue s ∧
  storage_logs s1 = storage_logs s ∧
  storage_isRecording s1 = storage_isRecording s ∧ clock s1 = clock s ∧
  snapshot (heap s1) log
  = match pendingRequests s !! id with
    | Some l => snapshot (heap s) l
    | None => fresh_record id (clock s)
    end.
Proof.
  intros Hinv. unfold getOrCreatePending.
  destruct (pendingRequests s !! id) as [l|] eqn:E; simpl.
  - by rewrite insert_id.
  - repeat split; try done.
    set (n := length (heap s)).
    assert (length (((heap s ++ [∅]) ++ [∅]) : list obj) = n + 2) as ->.
    { rewrite !length_app. simpl. unfold n. lia. }
    unfold snapshot.
    set (entry := <["id":=VStr id]> _).
    set (h1 := ((heap s ++ [∅]) ++ [∅]) ++ [entry]).
    assert (h1 !! (n + 2) = Some entry) as ->.
    { unfold h1. replace (n + 2) with (length ((heap s ++ [∅]) ++ [∅] : list obj)).
      - by rewrite list_lookup_middle.
      - rewrite !length_app. simpl. unfold n. lia. }
    assert (h1 !! n = Some ∅) as Hn.
    { unfold h1. rewrite lookup_app_l by (rewrite !length_app; simpl; unfold n; lia).
      rewrite lookup_app_l by (rewrite !length_app; simpl; unfold n; lia).
      by rewrite list_lookup_middle. }
    assert (h1 !! (n + 1) = Some ∅) as Hn1.
    { unfold h1. rewrite lookup_app_l by (rewrite !length_app; simpl; unfold n; lia).
      replace (n + 1) with (length (heap s ++ [∅] : list obj)).
      - by rewrite list_lookup_middle.
      - rewrite !length_app. simpl. unfold n. lia. }
    unfold entry, fresh_record.
    rewrite !length_app. simpl. fold n.
    replace (n + 1 + 1) with (n + 2) by lia.
    rewrite (omap_insert_Some _ _ _ _ (SLeaf (LStr id))) by done.
    rewrite (omap_insert_Some _ _ _ _ (SLeaf (LNum 0))) by done.
    rewrite (omap_insert_Some _ _ _ _ (SLeaf (LNum (clock s)))) by done.
    rewrite (omap_insert_Some _ _ _ _ (SObj ∅))
      by (unfold clone; rewrite Hn; simpl; by rewrite omap_empty).
    rewrite (omap_insert_Some _ _ _ _ (SObj ∅))
      by (unfold clone; rewrite Hn1; simpl; by rewrite omap_empty).
    by rewrite omap_empty.
Qed.

(** ** The listeners on an idle queue *)

Lemma same_ctl_trans (s1 s2 s3 : state) :
  same_ctl s1 s2 → same_ctl s2 s3 → same_ctl s1 s3.
Proof.
  intros (?&?&?&?&?&?&?) (?&?&?&?&?&?&?). repeat split; congruence.
Qed.

Lemma same_ctl_set_prop (l : loc) (k : string) (v : jsval) (s : state) :
  same_ctl s (set_prop l k v s).
Proof. by repeat split. Qed.

Lemma same_ctl_capture_body (log : loc) (d : details) (s : state) :
  same_ctl s (capture_body log d s).
Proof.
  unfold capture_body.
  destruct (requestBody d) as [body|]; [|by repeat split].
  destruct (raw body) as [[|first ?]|].
  - destruct (formData body); by repeat split.
  - destruct (TextDecoder_decode (bytes first)); by repeat split.
  - destruct (formData body); by repeat split.
Qed.

Lemma same_ctl_merge_headers (log : loc) (k : string)
    (hs : option (list HttpHeader)) (s : state) :
  same_ctl s (merge_headers log k hs s).
Proof. rewrite merge_headers_eq. by repeat split. Qed.

Lemma recording_got_body (p : phase) (d : details) (s : state) :
  recording_got p d true s
  = saveLog (getOrCreatePending (requestId d) s).1
      (phase_body p d (getOrCreatePending (requestId d) s).1
         (getOrCreatePending (requestId d) s).2).
Proof.
  unfold recording_got. simpl.
  destruct (getOrCreatePending (requestId d) s) as [log s1]. by destruct p.
Qed.

Lemma is_entry_same (s s' : state) (log : loc) :
  pendingRequests s' = pendingRequests s → is_entry s log → is_entry s' log.
Proof. intros Hp [id Hid]. exists id. by rewrite Hp. Qed.

Lemma phase_body_spec (p : phase) (d : details) (log : loc) (s : state) :
  inv_heap s → is_entry s log →
  unit_ok s (phase_body p d log s) ∧ same_ctl s (phase_body p d log s) ∧
  snapshot (heap (phase_body p d log s)) log
  = phase_update p d (snapshot (heap s) log).
Proof.
  intros Hinv Hent. destruct p; simpl.
  - set (s2 := set_prop log "url" (VStr (url d)) s).
    set (s3 := set_prop log "method" (VStr (method d)) s2).
    set (s4 := set_prop log "type" (VStr (type d)) s3).
    assert (unit_ok s s2) as U2 by (apply set_prop_unit; [done|by intros ? [=]]).
    assert (unit_ok s2 s3) as U3 by (apply set_prop_unit; [done|by intros ? [=]]).
    assert (unit_ok s3 s4) as U4 by (apply set_prop_unit; [done|by intros ? [=]]).
    assert (unit_ok s4 (capture_body log d s4)) as U5
      by (by apply capture_body_unit).
    destruct (U2 Hinv) as (Hinv2 & _). destruct (U3 Hinv2) as (Hinv3 & _).
    destruct (U4 Hinv3) as (Hinv4 & _).
    split; [|split].
    + eapply unit_ok_trans; [|done]. eapply unit_ok_trans; [|done].
      by eapply unit_ok_trans.
    + eapply same_ctl_trans; [|apply same_ctl_capture_body]. by repeat split.
    + rewrite snapshot_capture_body by done. f_equal. unfold s4.
      rewrite (snapshot_set_prop _ _ _ (LStr (type d))) by done. f_equal.
      unfold s3.
      rewrite (snapshot_set_prop _ _ _ (LStr (method d))) by done. f_equal.
      by apply snapshot_set_prop.
  - split; [by apply merge_headers_unit|].
    split; [apply same_ctl_merge_headers|by apply snapshot_merge_headers].
  - split; [by apply merge_headers_unit|].
    split; [apply same_ctl_merge_headers|by apply snapshot_merge_headers].
Qed.



(** ** Running the outstanding tasks *)










(** ** The stored record of one request *)

Lemma findIndex_ext (r1 r2 : srec) (logs : list srec) :
  r1 !! "id" = r2 !! "id" → findIndex r1 logs = findIndex r2 logs.
Proof.
  intros Hid. induction logs as [|l logs IH]; simpl; [done|].
  by rewrite Hid, IH.
Qed.

Lemma findIndex_insert (q r' : srec) (cur : list srec) (idx : nat) :
  findIndex q cur = Some idx →
  strict_eq (r' !! "id") (q !! "id") = true →
  findIndex q (<[idx := r']> cur) = Some idx.
Proof.
  revert idx. induction cur as [|l cur IH]; intros idx; simpl; [done|].
  destruct (strict_eq (l !! "id") (q !! "id")) eqn:E.
  - intros [= <-] Hr. simpl. by rewrite Hr.
  - destruct (findIndex q cur) as [i|] eqn:F; simpl; [|done].
    intros [= <-] Hr. simpl. rewrite E. by rewrite (IH i eq_refl Hr).
Qed.

Lemma strict_eq_id (id : string) :
  strict_eq (Some (SLeaf (LStr id))) (Some (SLeaf (LStr id))) = true.
Proof. simpl. by apply bool_decide_eq_true. Qed.






(** ** What the events do to the expected fields *)








Lemma body_update_lookup_ne (d : details) (r : srec) (k : string) :
  k ≠ "requestBody" → body_update d r !! k = r !! k.
Proof.
  intros Hk. unfold body_update.
  destruct (requestBody d) as [body|]; [|done].
  destruct (raw body) as [[|first ?]|].
  - destruct (formData body); [by rewrite lookup_insert_ne|done].
  - by rewrite lookup_insert_ne.
  - destruct (formData body); [by rewrite lookup_insert_ne|done].
Qed.

Lemma headers_update_lookup_ne (k k' : string) (hs : option (list HttpHeader))
    (r : srec) :
  k ≠ k' → headers_update k hs r !! k' = r !! k'.
Proof. intros Hk. unfold headers_update. by rewrite lookup_insert_ne. Qed.





(** ** One event, handled to the end *)

Lemma settle_inv (n : nat) (s : state) : inv s → inv (settle n s).
Proof.
  revert s. induction n as [|n IH]; intros s Hinv; [done|]. cbn [settle].
  destruct (next_task s) as [i|]; [|done].
  destruct (exec (Run i) s) as [s'|] eqn:E; [|done].
  apply IH. by destruct (exec_inv _ _ _ Hinv E).
Qed.








(** ** The invariant between events *)


















(** ** The status field *)

Lemma phase_update_status (p : phase) (d : details) (r : srec) :
  phase_update p d r !! "status" = r !! "status".
Proof.
  destruct p; simpl.
  - rewrite body_update_lookup_ne by done.
    by repeat (rewrite lookup_insert_ne by done).
  - by apply headers_update_lookup_ne.
  - by apply headers_update_lookup_ne.
Qed.

Lemma recording_got_snapshot (p : phase) (d : details) (s : state) :
  inv s →
  let log := (getOrCreatePending (requestId d) s).1 in
  let s2 := recording_got p d true s in
  let copy := length (heap s2) - 1 in
  let r := phase_update p d (base_record (requestId d) s) in
  pendingRequests s2 !! requestId d = Some log ∧
  work s2 = work s ++ [copy] ∧
  snapshot (heap s2) log = r ∧ snapshot (heap s2) copy = r.
Proof.
  intros Hinv log s2 copy r. pose proof Hinv as (Hh & _).
  pose proof (getOrCreatePending_unit (requestId d) s) as Ug.
  pose proof (getOrCreatePending_is_entry (requestId d) s) as Hent.
  destruct (getOrCreatePending_snapshot (requestId d) s Hh)
    as (Hp1 & _ & _ & _ & _ & _ & _ & Hs1).
  fold log in Hent, Hp1, Hs1. fold (base_record (requestId d) s) in Hs1.
  set (s1 := (getOrCreatePending (requestId d) s).2) in *.
  destruct (inv_unit _ _ Hinv Ug) as [Hinv1 _]. pose proof Hinv1 as (Hh1 & _).
  destruct (Ug Hh) as (_ & _ & Hq1).
  destruct (phase_body_spec p d log s1 Hh1 Hent) as (Ub & (Hp5 & _) & Hs5).
  set (s5 := phase_body p d log s1) in *.
  destruct (inv_unit _ _ Hinv1 Ub) as [Hinv5 _]. pose proof Hinv5 as (Hh5 & _).
  destruct (Ub Hh1) as (_ & _ & Hq5).
  assert (s2 = saveLog log s5) as Hs2 by apply recording_got_body.
  assert (is_entry s5 log) as Hent5 by by apply (is_entry_same s1).
  pose proof (entry_allocated _ _ Hh5 Hent5) as Hlog5.
  destruct (saveLog_inv log s5 Hinv5) as (_ & _ & Hw & Hheap2 & Hp2 & _).
  rewrite <- Hs2 in Hw, Hheap2, Hp2.
  assert (copy = length (heap s5)) as ->.
  { unfold copy. rewrite Hheap2, length_app. simpl. lia. }
  split. { rewrite Hp2, Hp5, Hp1. apply lookup_insert_eq. }
  split. { by rewrite Hw, (quiet_work _ _ Hq5), (quiet_work _ _ Hq1). }
  assert (snapshot (heap s5) log = r) as Hr by (by rewrite Hs5, Hs1).
  split.
  - rewrite Hs2, snapshot_saveLog by done. done.
  - rewrite Hs2, saveLog_snapshot by done. done.
Qed.

Lemma onCompleted_snapshot (d : details) (s : state) (log : loc) :
  inv s → pendingRequests s !! requestId d = Some log → isApiRequest d = true →
  let s2 := onCompleted d s in
  let r := <["status" := SLeaf (LNum (statusCode d))]> (snapshot (heap s) log) in
  pendingRequests s2 !! requestId d = Some log ∧
  snapshot (heap s2) log = r ∧ snapshot (heap s2) (length (heap s2) - 1) = r.
Proof.
  intros Hinv Hlog Hapi s2 r. pose proof Hinv as (Hh & _).
  assert (is_entry s log) as Hent by by exists (requestId d).
  set (s1 := set_prop log "status" (VNum (statusCode d)) s).
  assert (unit_ok s s1) as U1 by (apply set_prop_unit; [done|by intros ? [=]]).
  destruct (inv_unit _ _ Hinv U1) as [Hinv1 _]. pose proof Hinv1 as (Hh1 & _).
  assert (s2 = spawn (Timeout (requestId d) (clock (saveLog log s1) + GRACE_DELAY)%Z)
                 (saveLog log s1)) as Hs2.
  { unfold s2, onCompleted. by rewrite Hlog, Hapi. }
  assert (heap s2 = heap (saveLog log s1)) as Hheap by by rewrite Hs2.
  assert (log < length (heap s1)) as Hlt.
  { apply (entry_allocated s1); [done|]. by apply (is_entry_same s). }
  assert (snapshot (heap s1) log = r) as Hr by by apply snapshot_set_prop.
  split. { rewrite Hs2. simpl. by rewrite saveLog_pending. }
  rewrite Hheap. split.
  - by rewrite snapshot_saveLog.
  - assert (length (heap (saveLog log s1)) - 1 = length (heap s1)) as ->
      by (rewrite saveLog_heap, length_app; simpl; lia).
    by rewrite saveLog_snapshot.
Qed.

Lemma onErrorOccurred_snapshot (d : details) (s : state) (log : loc) :
  inv s → pendingRequests s !! requestId d = Some log → isApiRequest d = true →
  let s3 := onErrorOccurred d s in
  let r := <["error" := SLeaf (LStr (error d))]>
             (<["status" := SLeaf (LNum 0)]> (snapshot (heap s) log)) in
  pendingRequests s3 !! requestId d = None ∧
  work s3 = work s ++ [length (heap s3) - 1] ∧
  snapshot (heap s3) (length (heap s3) - 1) = r.
Proof.
  intros Hinv Hlog Hapi s3 r. pose proof Hinv as (Hh & _).
  assert (is_entry s log) as Hent by by exists (requestId d).
  set (s1 := set_prop log "status" (VNum 0) s).
  set (s2 := set_prop log "error" (VStr (error d)) s1).
  assert (unit_ok s s1) as U1 by (apply set_prop_unit; [done|by intros ? [=]]).
  assert (unit_ok s1 s2) as U2 by (apply set_prop_unit; [done|by intros ? [=]]).
  destruct (inv_unit _ _ Hinv U1) as [Hinv1 _]. pose proof Hinv1 as (Hh1 & _).
  destruct (inv_unit _ _ Hinv1 U2) as [Hinv2 _]. pose proof Hinv2 as (Hh2 & _).
  assert (s3 = with_pending (delete (requestId d) (pendingRequests (saveLog log s2)))
                 (saveLog log s2)) as Hs3.
  { unfold s3, onErrorOccurred. by rewrite Hlog, Hapi. }
  destruct (saveLog_inv log s2 Hinv2) as (_ & _ & Hw & Hheap & _).
  assert (heap s3 = heap (saveLog log s2)) as Hh3 by by rewrite Hs3.
  assert (length (heap s3) - 1 = length (heap s2)) as ->.
  { rewrite Hh3, Hheap, length_app. simpl. lia. }
  split. { rewrite Hs3. simpl. apply lookup_delete_eq. }
  split.
  { rewrite Hs3. change (work (saveLog log s2) = work s ++ [length (heap s2)]).
    rewrite Hw. done. }
  rewrite Hh3, saveLog_snapshot by done.
  unfold s2. rewrite (snapshot_set_prop _ _ _ (LStr (error d))) by done.
  unfold r. f_equal. by apply snapshot_set_prop.
Qed.

Lemma stored_status (id : string) (r : srec) (logs : option (list srec))
    (newLogs : list srec) (v : sval) :
  r !! "id" = Some (SLeaf (LStr id)) → r !! "status" = Some v →
  decide_save r logs = Write newLogs →
  ∃ stored, stored_in id (Some newLogs) = Some stored ∧
            stored !! "status" = Some v.
Proof.
  intros Hid Hv. unfold decide_save.
  set (q := {[ "id" := SLeaf (LStr id) ]} : srec).
  assert (q !! "id" = Some (SLeaf (LStr id))) as Hq by apply lookup_singleton_eq.
  destruct (findIndex r (default [] logs)) as [idx|] eqn:F.
  - destruct (findIndex_Some _ _ _ F) as (old & Hold & _). rewrite Hold.
    intros [= <-]. exists (spread old r). split.
    + unfold stored_in. cbn [default from_option Datatypes.id]. fold q.
      rewrite (findIndex_insert q (spread old r) _ idx).
      * simpl. apply list_lookup_insert_eq. by eapply findIndex_lt.
      * rewrite <- F. apply findIndex_ext. congruence.
      * unfold spread. rewrite (lookup_union_Some_l _ _ _ _ Hid), Hq.
        apply strict_eq_id.
    + unfold spread. by apply lookup_union_Some_l.
  - destruct (negb (struthy (r !! "url"))); [done|]. intros [= <-].
    exists r. split; [|done].
    unfold stored_in. cbn [default from_option Datatypes.id MAX_LOGS take findIndex].
    fold q. by rewrite Hid, Hq, strict_eq_id.
Qed.

(** C4 (amended). The status of a pending entry is 0 when the entry is
    made; a begin, request-headers or response-headers event handled for an
    entry that exists leaves its status as it is; a completed event sets it
    to the status code of the event; an errored event enqueues a snapshot
    with status 0 and the error text.  A write to the stored logs gives the
    stored record the status of the snapshot written.  (Hence a stored
    nonzero status goes back to 0 through an errored event, and through an
    event that makes the entry anew after its removal.) *)
Theorem C4_status_transitions (s : state) (d : details) (p : phase) :
  reachable s →
  (let s2 := recording_got p d true s in
   ∃ log,
     pendingRequests s2 !! requestId d = Some log ∧
     work s2 = work s ++ [length (heap s2) - 1] ∧
     snapshot (heap s2) (length (heap s2) - 1) !! "status"
     = snapshot (heap s2) log !! "status" ∧
     snapshot (heap s2) log !! "status"
     = match pendingRequests s !! requestId d with
       | Some old => snapshot (heap s) old !! "status"
       | None => Some (SLeaf (LNum 0))
       end) ∧
  (∀ log, pendingRequests s !! requestId d = Some log → isApiRequest d = true →
     (let s2 := onCompleted d s in
      snapshot (heap s2) log !! "status" = Some (SLeaf (LNum (statusCode d))) ∧
      snapshot (heap s2) (length (heap s2) - 1) !! "status"
      = Some (SLeaf (LNum (statusCode d)))) ∧
     (let s3 := onErrorOccurred d s in
      work s3 = work s ++ [length (heap s3) - 1] ∧
      snapshot (heap s3) (length (heap s3) - 1) !! "status"
      = Some (SLeaf (LNum 0)) ∧
      snapshot (heap s3) (length (heap s3) - 1) !! "error"
      = Some (SLeaf (LStr (error d))))) ∧
  (∀ r logs newLogs v,
     r !! "id" = Some (SLeaf (LStr (requestId d))) → r !! "status" = Some v →
     decide_save r logs = Write newLogs →
     ∃ stored, stored_in (requestId d) (Some newLogs) = Some stored ∧
               stored !! "status" = Some v).
Proof.
  intros Hr. apply reachable_inv in Hr. cbv zeta. split; [|split].
  - destruct (recording_got_snapshot p d s Hr) as (Hlog & Hw & Hs & Hc).
    eexists. split; [exact Hlog|]. split; [exact Hw|].
    rewrite Hs, Hc. split; [done|].
    rewrite phase_update_status. unfold base_record.
    by destruct (pendingRequests s !! requestId d).
  - intros log Hlog Hapi. split.
    + destruct (onCompleted_snapshot d s log Hr Hlog Hapi) as (_ & -> & ->).
      by rewrite lookup_insert_eq.
    + destruct (onErrorOccurred_snapshot d s log Hr Hlog Hapi) as (_ & Hw & ->).
      split; [done|]. rewrite lookup_insert_eq.
      rewrite lookup_insert_ne by done. by rewrite lookup_insert_eq.
  - intros r logs newLogs v. apply stored_status.
Qed.


(** * Further properties of the code *)

(** ** The rule manager, from any rule set *)

Lemma filter_other_ids (active : list Dnr.Rule) :
  filter (λ r, Dnr.id r ∉ [1%Z]) active = filter (λ r, Dnr.id r ≠ 1%Z) active.
Proof.
  apply list_filter_iff. intros r. rewrite list_elem_of_singleton. done.
Qed.

Lemma filter_id_1_other (active : list Dnr.Rule) :
  filter (λ r, Dnr.id r = 1%Z) (filter (λ r, Dnr.id r ≠ 1%Z) active) = [].
Proof.
  induction active as [|r active IH]; [done|].
  rewrite (filter_cons (λ r, Dnr.id r ≠ 1%Z)).
  destruct (decide (Dnr.id r ≠ 1%Z)) as [Hne|He]; [|done].
  rewrite filter_cons. by destruct (decide (Dnr.id r = 1%Z)).
Qed.

Lemma filter_other_idemp (active : list Dnr.Rule) :
  filter (λ r, Dnr.id r ≠ 1%Z) (filter (λ r, Dnr.id r ≠ 1%Z) active)
  = filter (λ r, Dnr.id r ≠ 1%Z) active.
Proof.
  induction active as [|r active IH]; [done|].
  rewrite (filter_cons (λ r, Dnr.id r ≠ 1%Z)).
  destruct (decide (Dnr.id r ≠ 1%Z)) as [Hne|He]; [|done].
  rewrite filter_cons. destruct (decide (Dnr.id r ≠ 1%Z)); [|done].
  by rewrite IH.
Qed.

Lemma onMessage_set_accepted (url : string) (headers : list Dnr.KeyValue)
    (active : list Dnr.Rule) :
  rule_error (override_rule url headers) = None →
  onMessage (Dnr.SET_REQUEST_HEADERS url headers) active
  = (filter (λ r, Dnr.id r ≠ 1%Z) active ++ [override_rule url headers],
     Some {| Dnr.success := true; Dnr.error := None |}).
Proof.
  intros Hok. unfold onMessage.
  by rewrite updateSessionRules_replace, Hok, filter_other_ids.
Qed.

Lemma onMessage_set_rejected (url : string) (headers : list Dnr.KeyValue)
    (active : list Dnr.Rule) (msg : string) :
  rule_error (override_rule url headers) = Some msg →
  onMessage (Dnr.SET_REQUEST_HEADERS url headers) active
  = (active, Some {| Dnr.success := false; Dnr.error := Some msg |}).
Proof.
  intros Herr. unfold onMessage.
  by rewrite updateSessionRules_replace, Herr.
Qed.

Lemma onMessage_clear (active : list Dnr.Rule) :
  onMessage Dnr.CLEAR_REQUEST_HEADERS active
  = (filter (λ r, Dnr.id r ≠ 1%Z) active,
     Some {| Dnr.success := true; Dnr.error := None |}).
Proof.
  unfold onMessage. by rewrite updateSessionRules_remove, filter_other_ids.
Qed.

Lemma filter_id_1_rule (url : string) (headers : list Dnr.KeyValue)
    (active : list Dnr.Rule) :
  filter (λ r, Dnr.id r = 1%Z)
    (filter (λ r, Dnr.id r ≠ 1%Z) active ++ [override_rule url headers])
  = [override_rule url headers].
Proof.
  rewrite filter_app, filter_id_1_other, filter_cons, filter_nil.
  by destruct (decide (Dnr.id (override_rule url headers) = 1%Z)).
Qed.

Lemma filter_other_rule (url : string) (headers : list Dnr.KeyValue)
    (active : list Dnr.Rule) :
  filter (λ r, Dnr.id r ≠ 1%Z)
    (filter (λ r, Dnr.id r ≠ 1%Z) active ++ [override_rule url headers])
  = filter (λ r, Dnr.id r ≠ 1%Z) active.
Proof.
  rewrite filter_app, filter_other_idemp, filter_cons, filter_nil.
  destruct (decide (Dnr.id (override_rule url headers) ≠ 1%Z)) as [Hne|_];
    [by destruct Hne|].
  by rewrite app_nil_r.
Qed.

Lemma onMessage_other_ids (m : Dnr.message) (active : list Dnr.Rule) :
  filter (λ r, Dnr.id r ≠ 1%Z) (onMessage m active).1
  = filter (λ r, Dnr.id r ≠ 1%Z) active.
Proof.
  destruct m as [url hs| |ty]; [| |done].
  - destruct (rule_error (override_rule url hs)) as [msg|] eqn:E.
    + by rewrite (onMessage_set_rejected _ _ _ msg).
    + rewrite onMessage_set_accepted by done. apply filter_other_rule.
  - rewrite onMessage_clear. apply filter_other_idemp.
Qed.

Lemma onMessage_count (m : Dnr.message) (active : list Dnr.Rule) :
  length (filter (λ r, Dnr.id r = 1%Z) active) ≤ 1 →
  length (filter (λ r, Dnr.id r = 1%Z) (onMessage m active).1) ≤ 1.
Proof.
  intros H. destruct m as [url hs| |ty]; [| |done].
  - destruct (rule_error (override_rule url hs)) as [msg|] eqn:E.
    + by rewrite (onMessage_set_rejected _ _ _ msg).
    + rewrite onMessage_set_accepted by done. cbn [fst].
      by rewrite filter_id_1_rule.
  - rewrite onMessage_clear. cbn [fst]. rewrite filter_id_1_other. simpl. lia.
Qed.

(** X1. Whatever rules are active, a message touches the rule with id 1
    only: the rules with another id stay as they are, in their order.  After
    a [SET_REQUEST_HEADERS] whose rule the browser accepts, the rule of the
    message is the one rule with id 1 (also when several were active
    before), and the message is answered with success; after a
    [CLEAR_REQUEST_HEADERS] no rule has id 1, the answer is success, and a
    second clear changes nothing; a message of another type is not answered
    and changes nothing. *)
Theorem X1_only_rule_1_touched (m : Dnr.message) (active : list Dnr.Rule) :
  filter (λ r, Dnr.id r ≠ 1%Z) (onMessage m active).1
  = filter (λ r, Dnr.id r ≠ 1%Z) active ∧
  (∀ url headers,
     m = Dnr.SET_REQUEST_HEADERS url headers →
     rule_error (override_rule url headers) = None →
     filter (λ r, Dnr.id r = 1%Z) (onMessage m active).1
     = [override_rule url headers] ∧
     (onMessage m active).2 = Some {| Dnr.success := true; Dnr.error := None |}) ∧
  (m = Dnr.CLEAR_REQUEST_HEADERS →
     filter (λ r, Dnr.id r = 1%Z) (onMessage m active).1 = [] ∧
     (onMessage m active).2 = Some {| Dnr.success := true; Dnr.error := None |} ∧
     (onMessage m (onMessage m active).1).1 = (onMessage m active).1) ∧
  (∀ type, m = Dnr.OtherMessage type → onMessage m active = (active, None)).
Proof.
  split; [apply onMessage_other_ids|]. split; [|split].
  - intros url hs -> Hok. rewrite onMessage_set_accepted by done.
    cbn [fst snd]. split; [apply filter_id_1_rule|done].
  - intros ->. rewrite !onMessage_clear. cbn [fst snd].
    split; [apply filter_id_1_other|]. split; [done|].
    apply filter_other_idemp.
  - by intros ty ->.
Qed.

(** X2. When the browser rejects the rule of a [SET_REQUEST_HEADERS]
    message, the active rules stay exactly as they were and the message is
    answered with [success: false] and the browser's error message.  An
    override that was in effect stays in effect: of two messages in a row,
    the first accepted and the second rejected, the rule of the first is
    the one that is active afterwards. *)
Theorem X2_rejected_rule_keeps_rules (url : string) (headers : list Dnr.KeyValue)
    (active : list Dnr.Rule) (msg : string) :
  rule_error (override_rule url headers) = Some msg →
  onMessage (Dnr.SET_REQUEST_HEADERS url headers) active
  = (active, Some {| Dnr.success := false; Dnr.error := Some msg |}) ∧
  (∀ ms url1 headers1,
     rule_error (override_rule url1 headers1) = None →
     rules_after (ms ++ [Dnr.SET_REQUEST_HEADERS url1 headers1;
                         Dnr.SET_REQUEST_HEADERS url headers])
     = [override_rule url1 headers1]).
Proof.
  intros Herr. split; [by apply onMessage_set_rejected|].
  intros ms url1 headers1 Hok.
  change (ms ++ [Dnr.SET_REQUEST_HEADERS url1 headers1;
                 Dnr.SET_REQUEST_HEADERS url headers])
    with (ms ++ [Dnr.SET_REQUEST_HEADERS url1 headers1]
             ++ [Dnr.SET_REQUEST_HEADERS url headers]).
  rewrite app_assoc, !rules_after_snoc.
  rewrite (onMessage_set_rejected _ _ _ msg) by done. cbn [fst].
  rewrite onMessage_set_accepted by done. cbn [fst].
  rewrite <- filter_other_ids, single_slot_removed; [done|].
  apply rules_after_single_slot.
Qed.

(** ** The filters of the listeners *)

Lemma exec_event_of (p : phase) (d : details) (s : state) :
  exec (event_of p d) s
  = Some (if passes d then spawn (GetIsRecording p d) s else s).
Proof.
  unfold passes, isApiRequest.
  destruct p; simpl; unfold onBeforeRequest, onBeforeSendHeaders,
    onHeadersReceived, isApiRequest;
    destruct (isExtensionRequest d); simpl; try done;
    try (by destruct (bool_decide (type d = "xmlhttprequest"))).
  case_bool_decide as Hping; simpl.
  - rewrite Hping. done.
  - by destruct (bool_decide (type d = "xmlhttprequest")).
Qed.

(** X3. The begin, request-headers and response-headers listeners apply one
    and the same filter: an event is taken up exactly when it is not a
    request of the extension itself and its type is [xmlhttprequest] (the
    test for [ping] in the begin listener never decides).  An event that is
    taken up only issues the read of the toggle; any other event leaves the
    worker as it is. *)
Theorem X3_listeners_filter (p : phase) (d : details) (s : state) :
  exec (event_of p d) s
  = Some (if passes d then spawn (GetIsRecording p d) s else s) ∧
  (passes d = true ↔
   isExtensionRequest d = false ∧ type d = "xmlhttprequest").
Proof.
  split; [apply exec_event_of|].
  unfold passes, isApiRequest. rewrite andb_true_iff, negb_true_iff.
  by rewrite bool_decide_eq_true.
Qed.

(** ** The badge *)

Lemma processQueue_isRecording (s : state) :
  storage_isRecording (processQueue s) = storage_isRecording s.
Proof. unfold processQueue. destruct (isSaving s); [done|]. by destruct (saveQueue s). Qed.

Lemma saveLog_isRecording (log : loc) (s : state) :
  storage_isRecording (saveLog log s) = storage_isRecording s.
Proof.
  unfold saveLog, processQueue. simpl. destruct (isSaving s); [done|].
  by destruct (saveQueue s).
Qed.

Lemma phase_body_same_ctl (p : phase) (d : details) (log : loc) (s : state) :
  same_ctl s (phase_body p d log s).
Proof.
  destruct p; simpl.
  - eapply same_ctl_trans; [|apply same_ctl_capture_body]. by repeat split.
  - apply same_ctl_merge_headers.
  - apply same_ctl_merge_headers.
Qed.

Lemma getOrCreatePending_isRecording (id : string) (s : state) :
  storage_isRecording (getOrCreatePending id s).2 = storage_isRecording s.
Proof. unfold getOrCreatePending. by destruct (pendingRequests s !! id). Qed.

Lemma recording_got_isRecording (p : phase) (d : details) (r : bool) (s : state) :
  storage_isRecording (recording_got p d r s) = storage_isRecording s.
Proof.
  destruct r; [|done]. rewrite recording_got_body, saveLog_isRecording.
  destruct (phase_body_same_ctl p d (getOrCreatePending (requestId d) s).1
              (getOrCreatePending (requestId d) s).2) as (_&_&_&_&_&->&_).
  apply getOrCreatePending_isRecording.
Qed.

Lemma exec_isRecording (a : action) (s s' : state) :
  exec a s = Some s' → (∀ v, a ≠ SetRecording v) →
  storage_isRecording s' = storage_isRecording s.
Proof.
  destruct a as [d|d|d|d|d|v|dt|i]; simpl.
  - intros [= <-] _. unfold onBeforeRequest. by destruct (_ || _).
  - intros [= <-] _. unfold onBeforeSendHeaders. by destruct (_ || _).
  - intros [= <-] _. unfold onHeadersReceived. by destruct (_ || _).
  - intros [= <-] _. unfold onCompleted.
    destruct (pendingRequests s !! requestId d); [|done].
    destruct (isApiRequest d); [|done]. simpl. by rewrite saveLog_isRecording.
  - intros [= <-] _. unfold onErrorOccurred.
    destruct (pendingRequests s !! requestId d); [|done].
    destruct (isApiRequest d); [|done]. simpl. by rewrite saveLog_isRecording.
  - intros _ H. by destruct (H v).
  - case_bool_decide; [|done]. by intros [= <-] _.
  - destruct (tasks s !! i) as [t|]; simpl; [|done].
    destruct t as [p d|p d r|q|q r|q newLogs|q|id due]; simpl.
    + by intros [= <-] _.
    + intros [= <-] _. by rewrite recording_got_isRecording.
    + by intros [= <-] _.
    + intros [= <-] _. unfold processQueue_got.
      destruct (decide_save _ _); [done|]. cbv zeta.
      case_bool_decide; [|done]. by rewrite processQueue_isRecording.
    + by intros [= <-] _.
    + intros [= <-] _. unfold processQueue_set. cbv zeta.
      case_bool_decide; [|done]. by rewrite processQueue_isRecording.
    + case_bool_decide; [|done]. by intros [= <-] _.
Qed.

Lemma updateBadge_text (v : bool) (a : option Badge) (x : Badge) :
  updateBadge v a = Some x → badgeText x = (if v then "REC" else "").
Proof.
  unfold updateBadge. destruct a as [b|]; [|done].
  destruct v; by intros [= <-].
Qed.

Lemma write_isRecording_sync (v : bool) (b : browser) :
  badge_in_sync b → badge_in_sync (write_isRecording v b).
Proof.
  intros Hb x. unfold write_isRecording. simpl.
  case_bool_decide as Hv.
  - rewrite <- Hv. apply Hb.
  - apply updateBadge_text.
Qed.

(** X4. The badge shows the toggle.  After the installation handler has
    run, and from then on after every step of the event loop (the user
    interface flipping the toggle included), the badge text is [REC] when
    the stored toggle is on and empty when it is off; when [chrome.action]
    is not available nothing is shown and nothing fails.  The steps of the
    worker itself are those of the event loop. *)
Theorem X4_badge_shows_toggle (b b' : browser) (a : action) :
  badge_in_sync (onInstalled b) ∧
  (badge_in_sync b → browser_exec a b = Some b' → badge_in_sync b') ∧
  (worker <$> browser_exec a b = exec a (worker b)) ∧
  (chrome_action b = None →
   chrome_action (onInstalled b) = None ∧
   (browser_exec a b = Some b' → chrome_action b' = None)).
Proof.
  split; [|split; [|split]].
  - intros x. unfold onInstalled. cbn [chrome_action worker storage_isRecording
      with_logs with_isRecording write_isRecording].
    apply updateBadge_text.
  - intros Hb Hex.
    assert ((∃ v, a = SetRecording v) ∨ (∀ v, a ≠ SetRecording v))
      as [[v ->]|Hno].
    { destruct a; try (right; by intros ? [=]). left. by eexists. }
    { injection Hex as <-. by apply write_isRecording_sync. }
    assert (∃ s', exec a (worker b) = Some s' ∧
              b' = {| worker := s'; chrome_action := chrome_action b;
                      sessionRules := sessionRules b |}) as (s' & Hs' & ->).
    { destruct a; cbn [browser_exec] in Hex; try (by edestruct Hno);
        destruct (exec _ (worker b)) as [s'|] eqn:E; simpl in Hex; try done;
        injection Hex as <-; by exists s'. }
    intros x Hx. simpl in *. rewrite (Hb x Hx).
    by rewrite (exec_isRecording _ _ _ Hs').
  - destruct a; cbn [browser_exec]; try done;
      by destruct (exec _ (worker b)).
  - intros Hn. split.
    + unfold onInstalled, write_isRecording. simpl. rewrite Hn.
      by case_bool_decide.
    + destruct a; cbn [browser_exec];
        try (destruct (exec _ (worker b)) as [s'|]; simpl; [|done];
             by intros [= <-]).
      intros [= <-]. unfold write_isRecording. simpl. rewrite Hn.
      by case_bool_decide.
Qed.

(** ** What a step does to the heap and to the pending table *)

Lemma processQueue_heap (s : state) : heap (processQueue s) = heap s.
Proof. unfold processQueue. destruct (isSaving s); [done|]. by destruct (saveQueue s). Qed.

Lemma processQueue_pending (s : state) :
  pendingRequests (processQueue s) = pendingRequests s.
Proof. unfold processQueue. destruct (isSaving s); [done|]. by destruct (saveQueue s). Qed.

Lemma processQueue_logs (s : state) :
  storage_logs (processQueue s) = storage_logs s.
Proof. unfold processQueue. destruct (isSaving s); [done|]. by destruct (saveQueue s). Qed.

Lemma saveLog_logs (log : loc) (s : state) :
  storage_logs (saveLog log s) = storage_logs s.
Proof.
  unfold saveLog, processQueue. simpl. destruct (isSaving s); [done|].
  by destruct (saveQueue s).
Qed.

Lemma run_save_task_heap (t : task) (s s' : state) :
  is_save_task t = true → run_task t s = Some s' →
  heap s' = heap s ∧ pendingRequests s' = pendingRequests s.
Proof.
  destruct t as [| |q|q r|q newLogs|q|]; try done; simpl; intros _ [= <-].
  - done.
  - unfold processQueue_got. destruct (decide_save _ _); [done|]. cbv zeta.
    case_bool_decide; [|done].
    by rewrite processQueue_heap, processQueue_pending.
  - done.
  - unfold processQueue_set. cbv zeta. case_bool_decide; [|done].
    by rewrite processQueue_heap, processQueue_pending.
Qed.

Lemma getOrCreatePending_fresh (id : string) (s : state) :
  pendingRequests s !! id = None →
  length (heap s) ≤ (getOrCreatePending id s).1.
Proof.
  intros Hn. unfold getOrCreatePending. rewrite Hn. simpl.
  rewrite !length_app. lia.
Qed.

Lemma getOrCreatePending_old (id : string) (s : state) (l : loc) :
  pendingRequests s !! id = Some l → getOrCreatePending id s = (l, s).
Proof. intros Hl. unfold getOrCreatePending. by rewrite Hl. Qed.

Lemma getOrCreatePending_heap (id : string) (s : state) (l : loc) :
  l < length (heap s) →
  heap (getOrCreatePending id s).2 !! l = heap s !! l ∧
  length (heap s) ≤ length (heap (getOrCreatePending id s).2).
Proof.
  intros Hl. unfold getOrCreatePending.
  destruct (pendingRequests s !! id); simpl; [done|].
  rewrite !length_app. split; [|lia].
  rewrite !lookup_app_l; [done|..]; rewrite ?length_app; lia.
Qed.

Lemma phase_body_heap (p : phase) (d : details) (log l : loc) (s : state) :
  l < length (heap s) → l ≠ log →
  heap (phase_body p d log s) !! l = heap s !! l ∧
  length (heap s) ≤ length (heap (phase_body p d log s)).
Proof.
  intros Hl Hne.
  assert (∀ k hs, heap (merge_headers log k hs s) !! l = heap s !! l ∧
                  length (heap s) ≤ length (heap (merge_headers log k hs s)))
    as Hm.
  { intros k hs. rewrite merge_headers_eq. simpl.
    rewrite length_alter, !length_app. split; [|lia].
    rewrite list_lookup_alter_ne by done.
    rewrite !lookup_app_l; [done|..]; rewrite ?length_app; lia. }
  destruct p; simpl; [|apply Hm..].
  set (s4 := set_prop log "type" _ _).
  assert (heap s4 !! l = heap s !! l ∧ length (heap s4) = length (heap s))
    as [H4 L4].
  { unfold s4. simpl. rewrite !length_alter.
    by rewrite !list_lookup_alter_ne by done. }
  rewrite capture_body_length, L4. split; [|done]. rewrite <- H4.
  unfold capture_body. destruct (requestBody d) as [body|]; [|done].
  destruct (raw body) as [[|first ?]|].
  - destruct (formData body); [|done]. simpl. by rewrite list_lookup_alter_ne.
  - destruct (TextDecoder_decode (bytes first)); simpl;
      by rewrite list_lookup_alter_ne.
  - destruct (formData body); [|done]. simpl. by rewrite list_lookup_alter_ne.
Qed.

Lemma recording_got_heap (p : phase) (d : details) (r : bool) (l : loc)
    (s : state) :
  l < length (heap s) →
  (r = true → pendingRequests s !! requestId d ≠ Some l) →
  heap (recording_got p d r s) !! l = heap s !! l.
Proof.
  intros Hl Hne. destruct r; [|done]. specialize (Hne eq_refl).
  rewrite recording_got_body, saveLog_heap.
  destruct (getOrCreatePending_heap (requestId d) s l Hl) as [Hg Hlen].
  set (log := (getOrCreatePending (requestId d) s).1) in *.
  set (s1 := (getOrCreatePending (requestId d) s).2) in *.
  assert (l ≠ log) as Hlog.
  { destruct (pendingRequests s !! requestId d) as [l0|] eqn:E.
    - unfold log. rewrite (getOrCreatePending_old _ _ _ E). simpl. congruence.
    - pose proof (getOrCreatePending_fresh _ _ E). fold log in H. lia. }
  destruct (phase_body_heap p d log l s1) as [Hb Hlen']; [lia|done|].
  rewrite lookup_app_l by lia. by rewrite Hb.
Qed.

Lemma exec_heap_other (a : action) (s s' : state) (l : loc) :
  exec a s = Some s' → l < length (heap s) →
  (∀ id, concerns id a s = true → pendingRequests s !! id ≠ Some l) →
  heap s' !! l = heap s !! l.
Proof.
  intros Hex Hl Hc. destruct a as [d|d|d|d|d|v|dt|i]; simpl in Hex.
  - injection Hex as <-. unfold onBeforeRequest. by destruct (_ || _).
  - injection Hex as <-. unfold onBeforeSendHeaders. by destruct (_ || _).
  - injection Hex as <-. unfold onHeadersReceived. by destruct (_ || _).
  - injection Hex as <-. unfold onCompleted.
    destruct (pendingRequests s !! requestId d) as [log|] eqn:E; [|done].
    destruct (isApiRequest d); [|done]. simpl. rewrite saveLog_heap. simpl.
    rewrite lookup_app_l by by rewrite length_alter.
    apply list_lookup_alter_ne. intros ->.
    apply (Hc (requestId d)); [|done]. simpl. by apply bool_decide_eq_true.
  - injection Hex as <-. unfold onErrorOccurred.
    destruct (pendingRequests s !! requestId d) as [log|] eqn:E; [|done].
    destruct (isApiRequest d); [|done]. simpl. rewrite saveLog_heap. simpl.
    rewrite lookup_app_l by by rewrite !length_alter.
    assert (log ≠ l) as Hne.
    { intros ->. apply (Hc (requestId d)); [|done]. simpl.
      by apply bool_decide_eq_true. }
    by rewrite !list_lookup_alter_ne.
  - by injection Hex as <-.
  - case_bool_decide; [|done]. by injection Hex as <-.
  - destruct (tasks s !! i) as [t|] eqn:Hi; simpl in Hex; [|done].
    destruct (is_save_task t) eqn:Ht.
    { by destruct (run_save_task_heap _ _ _ Ht Hex) as [-> _]. }
    destruct t as [p d|p d r| | | | |id due]; try done; simpl in Hex.
    + by injection Hex as <-.
    + injection Hex as <-. apply (recording_got_heap p d r l
        (with_tasks (delete i (tasks s)) s)); [done|]. simpl. intros ->.
      apply (Hc (requestId d)). simpl. rewrite Hi. by apply bool_decide_eq_true.
    + case_bool_decide; [|done]. by injection Hex as <-.
Qed.

Lemma recording_got_pending (p : phase) (d : details) (s : state) :
  pendingRequests (recording_got p d true s)
  = <[requestId d := (getOrCreatePending (requestId d) s).1]> (pendingRequests s).
Proof.
  rewrite recording_got_body, saveLog_pending.
  destruct (phase_body_same_ctl p d (getOrCreatePending (requestId d) s).1
              (getOrCreatePending (requestId d) s).2) as (-> & _).
  unfold getOrCreatePending.
  destruct (pendingRequests s !! requestId d) eqn:E; simpl; [|done].
  by rewrite insert_id.
Qed.

(** the pending table after a step: as it was, or without the entry of a
    request the step is about, or with a new entry for such a request *)
Lemma exec_pending_cases (a : action) (s s' : state) :
  exec a s = Some s' →
  pendingRequests s' = pendingRequests s ∨
  (∃ id, concerns id a s = true ∧
         pendingRequests s' = delete id (pendingRequests s)) ∨
  (∃ id l, concerns id a s = true ∧ pendingRequests s !! id = None ∧
           length (heap s) ≤ l ∧
           pendingRequests s' = <[id := l]> (pendingRequests s)).
Proof.
  intros Hex. destruct a as [d|d|d|d|d|v|dt|i]; simpl in Hex.
  - injection Hex as <-. left. unfold onBeforeRequest. by destruct (_ || _).
  - injection Hex as <-. left. unfold onBeforeSendHeaders. by destruct (_ || _).
  - injection Hex as <-. left. unfold onHeadersReceived. by destruct (_ || _).
  - injection Hex as <-. left. unfold onCompleted.
    destruct (pendingRequests s !! requestId d) as [log|] eqn:E; [|done].
    destruct (isApiRequest d); [|done]. simpl. by rewrite saveLog_pending.
  - injection Hex as <-. unfold onErrorOccurred.
    destruct (pendingRequests s !! requestId d) as [log|] eqn:E; [|by left].
    destruct (isApiRequest d); [|by left]. right. left.
    exists (requestId d). simpl. rewrite saveLog_pending. simpl.
    split; [by apply bool_decide_eq_true|done].
  - injection Hex as <-. by left.
  - case_bool_decide; [|done]. injection Hex as <-. by left.
  - destruct (tasks s !! i) as [t|] eqn:Hi; simpl in Hex; [|done].
    destruct (is_save_task t) eqn:Ht.
    { left. by destruct (run_save_task_heap _ _ _ Ht Hex) as [_ ->]. }
    destruct t as [p d|p d r| | | | |id due]; try done; simpl in Hex.
    + injection Hex as <-. by left.
    + injection Hex as <-. destruct r; [|by left].
      rewrite recording_got_pending. simpl.
      destruct (pendingRequests s !! requestId d) as [l0|] eqn:E.
      * left. unfold getOrCreatePending. simpl. rewrite E. simpl.
        by apply insert_id.
      * right. right. eexists (requestId d), _. split; [|split; [done|split; [|done]]].
        -- simpl. rewrite Hi. by apply bool_decide_eq_true.
        -- by apply (getOrCreatePending_fresh (requestId d)
                       (with_tasks (delete i (tasks s)) s)).
    + case_bool_decide; [|done]. injection Hex as <-. right. left.
      exists id. simpl. rewrite Hi. split; [by apply bool_decide_eq_true|done].
Qed.

Lemma exec_distinct (a : action) (s s' : state) :
  inv_heap s → entries_distinct s → exec a s = Some s' → entries_distinct s'.
Proof.
  intros (H1 & _) Hd Hex id1 id2 l.
  destruct (exec_pending_cases _ _ _ Hex)
    as [->|[(id & _ & ->)|(id & l0 & _ & Hn & Hl0 & ->)]].
  - apply Hd.
  - rewrite !lookup_delete_Some. intros [_ Ha] [_ Hb]. by eapply Hd.
  - rewrite !lookup_insert_Some.
    intros [[<- <-]|[Hne1 Ha]] [[<- Hb]|[Hne2 Hb]]; try done.
    + apply H1 in Hb. lia.
    + subst. apply H1 in Ha. lia.
    + by eapply Hd.
Qed.

Lemma run_distinct (tr : list action) (s s' : state) :
  inv s → entries_distinct s → run tr s = Some s' → entries_distinct s'.
Proof.
  revert s. induction tr as [|a tr IH]; intros s Hinv Hd; simpl.
  - by intros [= <-].
  - destruct (exec a s) as [s1|] eqn:E; simpl; [|done].
    apply IH.
    + by destruct (exec_inv _ _ _ Hinv E).
    + destruct Hinv as (Hh & _). by eapply exec_distinct.
Qed.

Lemma reachable_distinct (s : state) : reachable s → entries_distinct s.
Proof.
  intros (isRec & logs & now & tr & Hlen & Hrun).
  eapply run_distinct; [by apply init_inv| |done].
  intros id1 id2 l H. simpl in H. by rewrite lookup_empty in H.
Qed.

Lemma snapshot_same_object (s s' : state) (l : loc) :
  inv_heap s → frame s s' → heap s' !! l = heap s !! l →
  snapshot (heap s') l = snapshot (heap s) l.
Proof.
  intros (_ & H2 & _) (_ & Hh & _) Hl. unfold snapshot. rewrite Hl.
  destruct (heap s !! l) as [o|] eqn:Ho; [|done].
  apply clone_ext. intros k r Hk. apply Hh. by eapply H2.
Qed.

Lemma exec_entry_kept (a : action) (s s' : state) (id : string) (l : loc) :
  inv s → entries_distinct s → exec a s = Some s' →
  pendingRequests s !! id = Some l → concerns id a s = false →
  pendingRequests s' !! id = Some l ∧ heap s' !! l = heap s !! l ∧
  snapshot (heap s') l = snapshot (heap s) l.
Proof.
  intros Hinv Hd Hex Hl Hc. pose proof Hinv as (Hh & _).
  pose proof Hh as (H1 & _).
  assert (heap s' !! l = heap s !! l) as Hobj.
  { apply (exec_heap_other a); [done|by eapply H1|].
    intros id' Hc' Hl'. assert (id' = id) as -> by by eapply Hd. congruence. }
  split; [|split; [done|]].
  - destruct (exec_pending_cases _ _ _ Hex)
      as [->|[(id' & Hc' & ->)|(id' & l0 & Hc' & _ & _ & ->)]]; [done|..].
    + rewrite lookup_delete_ne; [done|]. intros ->. congruence.
    + rewrite lookup_insert_ne; [done|]. intros ->. congruence.
  - apply snapshot_same_object; [done| |done].
    by destruct (exec_inv _ _ _ Hinv Hex) as (_ & Hf & _).
Qed.

(** X5. In every reachable state two different requests have different
    pending entries; an entry is an allocated object that is not one of the
    queued copies, and the header maps it refers to are not entries. *)
Theorem X5_entries_not_shared (s : state) :
  reachable s →
  entries_distinct s ∧
  ∀ id l, pendingRequests s !! id = Some l →
    is_Some (heap s !! l) ∧ (l ∉ work s) ∧
    (∀ k r, get_prop l k s = Some (VRef r) →
            r ≠ l ∧ ∀ id', pendingRequests s !! id' ≠ Some r).
Proof.
  intros Hr. split; [by apply reachable_distinct|].
  apply reachable_inv in Hr as ((H1 & H2 & H3) & _).
  intros id l Hl. split; [|split].
  - apply lookup_lt_is_Some_2. by eapply H1.
  - intros Hw. destruct (H3 _ Hw) as [_ Hne]. by eapply Hne.
  - intros k r Hk. unfold get_prop in Hk.
    destruct (heap s !! l) as [o|] eqn:Ho; simpl in Hk; [|done].
    destruct (H2 _ _ _ _ Ho Hk) as [_ Hne]. split; [|done].
    intros ->. by eapply Hne.
Qed.

(** X6. A step that is not about the request [id] (not its completed or
    errored event, not the callback of a toggle read for one of its events,
    not its removal timer) leaves the pending entry of [id] alone: the entry
    stays in the table, the object is not written and its clone, header maps
    included, is the same.  In particular an entry is removed by its errored
    event or its timer only, and the events of one request never change the
    record of another. *)
Theorem X6_entry_untouched_by_others (s s' : state) (a : action) (id : string)
    (l : loc) :
  reachable s → exec a s = Some s' →
  pendingRequests s !! id = Some l → concerns id a s = false →
  pendingRequests s' !! id = Some l ∧ heap s' !! l = heap s !! l ∧
  snapshot (heap s') l = snapshot (heap s) l.
Proof.
  intros Hr. apply exec_entry_kept; [by apply reachable_inv|].
  by apply reachable_distinct.
Qed.

(** ** What a step hands to the queue *)

Lemma getOrCreatePending_logs (id : string) (s : state) :
  storage_logs (getOrCreatePending id s).2 = storage_logs s.
Proof. unfold getOrCreatePending. by destruct (pendingRequests s !! id). Qed.

Lemma recording_got_logs (p : phase) (d : details) (r : bool) (s : state) :
  storage_logs (recording_got p d r s) = storage_logs s.
Proof.
  destruct r; [|done]. rewrite recording_got_body, saveLog_logs.
  destruct (phase_body_same_ctl p d (getOrCreatePending (requestId d) s).1
              (getOrCreatePending (requestId d) s).2) as (_&_&_&_&->&_).
  apply getOrCreatePending_logs.
Qed.

Lemma onCompleted_work (d : details) (s : state) (log : loc) :
  inv s → pendingRequests s !! requestId d = Some log → isApiRequest d = true →
  work (onCompleted d s) = work s ++ [length (heap (onCompleted d s)) - 1] ∧
  storage_logs (onCompleted d s) = storage_logs s.
Proof.
  intros Hinv Hlog Hapi. pose proof Hinv as (Hh & _).
  assert (is_entry s log) as Hent by by exists (requestId d).
  set (s1 := set_prop log "status" (VNum (statusCode d)) s).
  assert (unit_ok s s1) as U1 by (apply set_prop_unit; [done|by intros ? [=]]).
  destruct (inv_unit _ _ Hinv U1) as [Hinv1 _].
  destruct (U1 Hh) as (_ & _ & Hq1).
  assert (onCompleted d s
          = spawn (Timeout (requestId d) (clock (saveLog log s1) + GRACE_DELAY)%Z)
              (saveLog log s1)) as ->.
  { unfold onCompleted. by rewrite Hlog, Hapi. }
  destruct (saveLog_inv log s1 Hinv1) as ((Hh2 & _) & _ & Hw & Hheap & _ & Hl & _).
  destruct (spawn_unit (Timeout (requestId d) (clock (saveLog log s1) + GRACE_DELAY)%Z)
              (saveLog log s1) eq_refl Hh2) as (_ & _ & Hq3).
  rewrite (quiet_work _ _ Hq3), Hw, (quiet_work _ _ Hq1). split.
  - do 2 f_equal. simpl. rewrite Hheap, length_app. simpl. lia.
  - done.
Qed.

Lemma run_save_task_work (i : nat) (t : task) (s s' : state) :
  inv s → tasks s !! i = Some t → is_save_task t = true →
  run_task t (with_tasks (delete i (tasks s)) s) = Some s' →
  (work s' = work s ∧ storage_logs s' = storage_logs s) ∨
  (∃ q, work s = q :: work s' ∧
        storage_logs s' = apply_record (snapshot (heap s) q) (storage_logs s)).
Proof.
  intros Hinv Hi Ht Hrun. pose proof Hinv as (Hh & Hs).
  destruct (busy_when_in_flight s i t Hs Hi Ht) as (Hbusy & Hfl & Hok & Hrm).
  set (s0 := with_tasks (delete i (tasks s)) s) in *.
  assert (work s = omap unapplied [t] ++ saveQueue s) as Hws.
  { unfold work. by rewrite Hfl. }
  assert (∀ t', is_save_task t' = true →
            in_flight (spawn t' s0) = [t']) as Hsp.
  { intros t' Ht'. unfold in_flight in *. simpl. simpl in Hrm.
    by rewrite in_flight_app, in_flight_one, Hrm, Ht'. }
  destruct t as [| |q|q r|q newLogs|q|]; try done; simpl in Hrun, Hok;
    injection Hrun as <-.
  - left. split; [|done]. unfold work at 1. by rewrite Hsp, Hws.
  - subst r. unfold processQueue_got. change (heap s0) with (heap s).
    destruct (decide_save (snapshot (heap s) q) (storage_logs s)) as [newLogs|]
      eqn:Hdec.
    + left. split; [|done]. unfold work at 1. by rewrite Hsp, Hws.
    + destruct (processQueue_set_spec s0 Hrm) as (_ & Hw' & _ & _ & Hl').
      fold (processQueue_set s0). right. exists q. rewrite Hw', Hl', Hws.
      split; [done|]. unfold apply_record. by rewrite Hdec.
  - right. exists q. split.
    + unfold work at 2.
      assert (in_flight (spawn (CbSetLogs q) (with_logs (Some newLogs) s0))
              = [CbSetLogs q]) as ->.
      { unfold in_flight in *. simpl. simpl in Hrm.
        by rewrite in_flight_app, in_flight_one, Hrm. }
      by rewrite Hws.
    + simpl. unfold apply_record. by rewrite Hok.
  - destruct (processQueue_set_spec s0 Hrm) as (_ & Hw' & _ & _ & Hl').
    left. by rewrite Hw', Hl', Hws.
Qed.

Lemma step_enqueues (a : action) (s s' : state) :
  inv s → exec a s = Some s' →
  match enqueued a s with
  | Some r =>
      work s' = work s ++ [length (heap s') - 1] ∧
      snapshot (heap s') (length (heap s') - 1) = r ∧
      storage_logs s' = storage_logs s
  | None =>
      (work s' = work s ∧ storage_logs s' = storage_logs s) ∨
      (∃ q, work s = q :: work s' ∧
            storage_logs s' = apply_record (snapshot (heap s) q) (storage_logs s))
  end.
Proof.
  intros Hinv Hex. pose proof Hinv as (Hh & _).
  assert (∀ s1, unit_ok s s1 →
            work s1 = work s ∧ storage_logs s1 = storage_logs s) as Hunit.
  { intros s1 U. destruct (U Hh) as (_ & _ & Hq).
    split; [by apply quiet_work|by destruct Hq as (_&_&_&?)]. }
  destruct a as [d|d|d|d|d|v|dt|i]; simpl in Hex; simpl.
  - injection Hex as <-. left. apply Hunit. unfold onBeforeRequest.
    destruct (_ || _); [apply unit_ok_refl|by apply spawn_unit].
  - injection Hex as <-. left. apply Hunit. unfold onBeforeSendHeaders.
    destruct (_ || _); [apply unit_ok_refl|by apply spawn_unit].
  - injection Hex as <-. left. apply Hunit. unfold onHeadersReceived.
    destruct (_ || _); [apply unit_ok_refl|by apply spawn_unit].
  - injection Hex as <-.
    destruct (pendingRequests s !! requestId d) as [log|] eqn:E; simpl;
      [|left; unfold onCompleted; by rewrite E].
    destruct (isApiRequest d) eqn:Hapi;
      [|left; unfold onCompleted; by rewrite E, Hapi].
    destruct (onCompleted_work d s log Hinv E Hapi) as [Hw Hl].
    destruct (onCompleted_snapshot d s log Hinv E Hapi) as (_ & _ & Hsn).
    done.
  - injection Hex as <-.
    destruct (pendingRequests s !! requestId d) as [log|] eqn:E; simpl;
      [|left; unfold onErrorOccurred; by rewrite E].
    destruct (isApiRequest d) eqn:Hapi;
      [|left; unfold onErrorOccurred; by rewrite E, Hapi].
    destruct (onErrorOccurred_snapshot d s log Hinv E Hapi) as (_ & Hw & Hsn).
    split; [done|]. split; [done|].
    unfold onErrorOccurred. rewrite E, Hapi. simpl. by rewrite saveLog_logs.
  - injection Hex as <-. left. apply Hunit. by apply storage_unit.
  - case_bool_decide; [|done]. injection Hex as <-. left. apply Hunit.
    by apply storage_unit.
  - destruct (tasks s !! i) as [t|] eqn:Hi; simpl in Hex; [|done].
    destruct (is_save_task t) eqn:Ht.
    { pose proof (run_save_task_work i t s s' Hinv Hi Ht Hex) as Hw.
      by destruct t. }
    pose proof (remove_unit i t s Hi Ht) as Hrm.
    destruct (Hunit _ Hrm) as [Hw0 Hl0].
    destruct (inv_unit _ _ Hinv Hrm) as [Hinv0 _].
    set (s0 := with_tasks (delete i (tasks s)) s) in *.
    destruct t as [p d|p d r| | | | |id due]; try done; simpl in Hex.
    + injection Hex as <-. left.
      destruct (Hunit (spawn (CbIsRecording p d (storage_isRecording s0)) s0)); [|done].
      eapply unit_ok_trans; [done|]. by apply spawn_unit.
    + injection Hex as <-. destruct r; [|by left].
      destruct (recording_got_snapshot p d s0 Hinv0) as (_ & Hw & _ & Hsn).
      rewrite Hw, Hw0, recording_got_logs. done.
    + case_bool_decide; [|done]. injection Hex as <-. left.
      destruct (Hunit (with_pending (delete id (pendingRequests s0)) s0)); [|done].
      eapply unit_ok_trans; [done|]. apply delete_pending_unit.
Qed.

(** X7. Every handled phase hands exactly one record to the queue, and it is
    the clone of the pending entry as the step has just updated it: for the
    callback of a toggle read that found recording on, the entry (a fresh one
    when there was none) with the fields of the event merged in (of its
    headers, all but those named [__proto__], which the assignment in the
    listener does not store); for a completed event, the entry with the
    status code; for an errored event, the entry with status 0 and the
    error text.  No other step enqueues anything: it leaves the unapplied
    records and the stored logs as they are, or applies the oldest
    unapplied record to the stored logs. *)
Theorem X7_one_snapshot_per_phase (s s' : state) (a : action) :
  reachable s → exec a s = Some s' →
  match enqueued a s with
  | Some r =>
      work s' = work s ++ [length (heap s') - 1] ∧
      snapshot (heap s') (length (heap s') - 1) = r ∧
      storage_logs s' = storage_logs s
  | None =>
      (work s' = work s ∧ storage_logs s' = storage_logs s) ∨
      (∃ q, work s = q :: work s' ∧
            storage_logs s' = apply_record (snapshot (heap s) q) (storage_logs s))
  end.
Proof. intros Hr. apply step_enqueues. by apply reachable_inv. Qed.

(** ** Whose requests are recorded *)

Lemma exec_entry_cases (a : action) (s s' : state) (id : string) (l : loc) :
  inv s → entries_distinct s → exec a s = Some s' →
  pendingRequests s' !! id = Some l →
  (pendingRequests s !! id = Some l ∧
   snapshot (heap s') l = snapshot (heap s) l) ∨
  (concerns id a s = true ∧ enqueued a s = Some (snapshot (heap s') l)).
Proof.
  intros Hinv Hd Hex Hl'.
  destruct (concerns id a s) eqn:Hc.
  - assert (∀ P : Prop, P → true = true ∧ P) as Htrue by done.
    destruct a as [d|d|d|d|d|v|dt|i]; try done; simpl in Hc, Hex.
    + apply bool_decide_eq_true in Hc. injection Hex as <-. simpl.
      destruct (pendingRequests s !! requestId d) as [log|] eqn:E; simpl;
        [|left; unfold onCompleted in *; rewrite E in *; by subst].
      destruct (isApiRequest d) eqn:Hapi;
        [|left; unfold onCompleted in *; rewrite E, Hapi in *; subst;
          by rewrite E in Hl'; simplify_eq].
      right. apply Htrue.
      destruct (onCompleted_snapshot d s log Hinv E Hapi) as (Hp & Hs & _).
      subst id. rewrite Hp in Hl'. injection Hl' as <-. by rewrite Hs.
    + apply bool_decide_eq_true in Hc. injection Hex as <-. simpl.
      destruct (pendingRequests s !! requestId d) as [log|] eqn:E; simpl;
        [|left; unfold onErrorOccurred in *; rewrite E in *; by subst].
      destruct (isApiRequest d) eqn:Hapi;
        [|left; unfold onErrorOccurred in *; rewrite E, Hapi in *; subst;
          by rewrite E in Hl'; simplify_eq].
      destruct (onErrorOccurred_snapshot d s log Hinv E Hapi) as (Hp & _).
      subst id. by rewrite Hp in Hl'.
    + destruct (tasks s !! i) as [t|] eqn:Hi; simpl in Hex; [|done].
      destruct t as [p d|p d r| | | | |id' due]; try done.
      * destruct r; [|done]. apply bool_decide_eq_true in Hc.
        simpl in Hex. injection Hex as <-. right. apply Htrue. simpl. rewrite Hi.
        pose proof (remove_unit i _ s Hi eq_refl) as Hrm.
        destruct (inv_unit _ _ Hinv Hrm) as [Hinv0 _].
        destruct (recording_got_snapshot p d _ Hinv0) as (Hp & _ & Hs & _).
        subst id. rewrite Hp in Hl'. injection Hl' as <-. by rewrite Hs.
      * apply bool_decide_eq_true in Hc. subst id'. simpl in Hex.
        case_bool_decide; [|done]. injection Hex as <-. simpl in Hl'.
        by rewrite lookup_delete_eq in Hl'.
  - left.
    assert (pendingRequests s !! id = Some l) as Hl.
    { destruct (exec_pending_cases _ _ _ Hex)
        as [Hp|[(id' & Hc' & Hp)|(id' & l0 & Hc' & _ & _ & Hp)]];
        rewrite Hp in Hl'; [done|..].
      - by apply lookup_delete_Some in Hl' as [_ ?].
      - apply lookup_insert_Some in Hl' as [[<- _]|[_ ?]]; [congruence|done]. }
    split; [done|].
    by destruct (exec_entry_kept a s s' id l Hinv Hd Hex Hl Hc) as (_ & _ & ?).
Qed.

Lemma own_scheme_filtered (d : details) :
  isExtensionRequest d = false → own_scheme (url d) = false.
Proof.
  unfold isExtensionRequest, own_scheme.
  destruct (match initiator d with Some i => _ | None => _ end);
    destruct (JsString.startsWith (url d) "chrome-extension://");
    destruct (JsString.startsWith (url d) "data:");
    by destruct (JsString.startsWith (url d) "blob:").
Qed.

Lemma passes_spec (d : details) :
  passes d = true → own_scheme (url d) = false ∧ type d = "xmlhttprequest".
Proof.
  unfold passes, isApiRequest. rewrite andb_true_iff, negb_true_iff.
  rewrite bool_decide_eq_true. intros [He Ht]. split; [|done].
  by apply own_scheme_filtered.
Qed.

Lemma recordable_insert (k : string) (v : sval) (r : srec) :
  k ≠ "url" → k ≠ "type" → recordable r → recordable (<[k := v]> r).
Proof.
  intros Hu Ht [H1 H2]. split; intros x; rewrite lookup_insert_ne by done; auto.
Qed.

Lemma recordable_fresh (id : string) (now : Z) : recordable (fresh_record id now).
Proof. split; intros v; unfold fresh_record; by repeat (rewrite lookup_insert_ne by done). Qed.

Lemma recordable_phase_update (p : phase) (d : details) (r : srec) :
  passes d = true → recordable r → recordable (phase_update p d r).
Proof.
  intros Hp Hr. destruct (passes_spec d Hp) as [Hown Hty].
  destruct p; simpl.
  - split; intros v; rewrite body_update_lookup_ne by done.
    + rewrite lookup_insert_ne by done. rewrite lookup_insert_ne by done.
      rewrite lookup_insert_eq. intros [= <-]. by exists (url d).
    + rewrite lookup_insert_eq. intros [= <-]. by rewrite Hty.
  - destruct Hr as [H1 H2].
    split; intros v; rewrite headers_update_lookup_ne by done; auto.
  - destruct Hr as [H1 H2].
    split; intros v; rewrite headers_update_lookup_ne by done; auto.
Qed.

Lemma recordable_spread (old r : srec) :
  recordable old → recordable r → recordable (spread old r).
Proof.
  intros [O1 O2] [R1 R2]. unfold spread.
  split; intros v Hv; apply lookup_union_Some_raw in Hv as [Hv|[_ Hv]]; auto.
Qed.

Lemma recordable_apply (r : srec) (logs : option (list srec)) :
  recordable r → Forall recordable (default [] logs) →
  Forall recordable (default [] (apply_record r logs)).
Proof.
  intros Hr Hl. unfold apply_record, decide_save.
  destruct (findIndex r (default [] logs)) as [idx|] eqn:F.
  - destruct (default [] logs !! idx) as [cur|] eqn:Hc; simpl; [|done].
    apply Forall_insert; [done|]. apply recordable_spread; [|done].
    by eapply Forall_lookup_1.
  - destruct (negb (struthy (r !! "url"))); [done|]. simpl.
    destruct (default [] logs) as [|x rest] eqn:E.
    + by constructor.
    + constructor; [done|]. by apply Forall_take.
Qed.

Lemma task_passes_other (t : task) : is_toggle_task t = false → task_passes t.
Proof. by destruct t. Qed.

Lemma processQueue_tasks_pass (s : state) :
  Forall task_passes (tasks s) → Forall task_passes (tasks (processQueue s)).
Proof.
  intros H. unfold processQueue. destruct (isSaving s); [done|].
  destruct (saveQueue s); [done|]. simpl. apply Forall_app. split; [done|].
  by constructor.
Qed.

Lemma saveLog_tasks_pass (log : loc) (s : state) :
  Forall task_passes (tasks s) → Forall task_passes (tasks (saveLog log s)).
Proof. intros H. unfold saveLog. simpl. by apply processQueue_tasks_pass. Qed.

Lemma getOrCreatePending_tasks (id : string) (s : state) :
  tasks (getOrCreatePending id s).2 = tasks s.
Proof. unfold getOrCreatePending. by destruct (pendingRequests s !! id). Qed.

Lemma recording_got_tasks_pass (p : phase) (d : details) (r : bool) (s : state) :
  Forall task_passes (tasks s) →
  Forall task_passes (tasks (recording_got p d r s)).
Proof.
  intros H. destruct r; [|done]. rewrite recording_got_body.
  apply saveLog_tasks_pass.
  destruct (phase_body_same_ctl p d (getOrCreatePending (requestId d) s).1
              (getOrCreatePending (requestId d) s).2) as (_ & -> & _).
  by rewrite getOrCreatePending_tasks.
Qed.

Lemma exec_tasks_pass (a : action) (s s' : state) :
  Forall task_passes (tasks s) → exec a s = Some s' →
  Forall task_passes (tasks s').
Proof.
  intros H Hex.
  assert (∀ p d, Forall task_passes
            (tasks (if passes d then spawn (GetIsRecording p d) s else s)))
    as Hev.
  { intros p d. destruct (passes d) eqn:Hp; [|done]. simpl.
    apply Forall_app. split; [done|]. by constructor. }
  destruct a as [d|d|d|d|d|v|dt|i].
  - change (exec (event_of BeforeRequest d) s = Some s') in Hex.
    rewrite exec_event_of in Hex. injection Hex as <-. apply Hev.
  - change (exec (event_of BeforeSendHeaders d) s = Some s') in Hex.
    rewrite exec_event_of in Hex. injection Hex as <-. apply Hev.
  - change (exec (event_of HeadersReceived d) s = Some s') in Hex.
    rewrite exec_event_of in Hex. injection Hex as <-. apply Hev.
  - simpl in Hex. injection Hex as <-. unfold onCompleted.
    destruct (pendingRequests s !! requestId d); [|done].
    destruct (isApiRequest d); [|done]. simpl.
    apply Forall_app. split; [by apply saveLog_tasks_pass|by constructor].
  - simpl in Hex. injection Hex as <-. unfold onErrorOccurred.
    destruct (pendingRequests s !! requestId d); [|done].
    destruct (isApiRequest d); [|done]. simpl. by apply saveLog_tasks_pass.
  - simpl in Hex. by injection Hex as <-.
  - simpl in Hex. case_bool_decide; [|done]. by injection Hex as <-.
  - simpl in Hex. destruct (tasks s !! i) as [t|] eqn:Hi; simpl in Hex; [|done].
    pose proof (Forall_lookup_1 _ _ _ _ H Hi) as Ht.
    pose proof (Forall_delete _ _ i H) as Hdel.
    destruct t as [p d|p d r|q|q r|q newLogs|q|id due]; simpl in Hex.
    + injection Hex as <-. simpl. apply Forall_app. split; [done|]. by constructor.
    + injection Hex as <-. by apply recording_got_tasks_pass.
    + injection Hex as <-. simpl. apply Forall_app. split; [done|]. by constructor.
    + injection Hex as <-. unfold processQueue_got.
      destruct (decide_save _ _).
      * simpl. apply Forall_app. split; [done|]. by constructor.
      * cbv zeta. case_bool_decide; [|done]. by apply processQueue_tasks_pass.
    + injection Hex as <-. simpl. apply Forall_app. split; [done|]. by constructor.
    + injection Hex as <-. unfold processQueue_set. cbv zeta.
      case_bool_decide; [|done]. by apply processQueue_tasks_pass.
    + case_bool_decide; [|done]. by injection Hex as <-.
Qed.

Lemma enqueued_recordable (a : action) (s : state) (r : srec) :
  inv_recordable s → enqueued a s = Some r → recordable r.
Proof.
  intros (Ht & He & _ & _). destruct a as [d|d|d|d|d|v|dt|i]; try done; simpl.
  - destruct (pendingRequests s !! requestId d) as [log|] eqn:E; [|done]. simpl.
    destruct (isApiRequest d); [|done]. intros [= <-].
    apply recordable_insert; [done..|]. by eapply He.
  - destruct (pendingRequests s !! requestId d) as [log|] eqn:E; [|done]. simpl.
    destruct (isApiRequest d); [|done]. intros [= <-].
    apply recordable_insert; [done..|]. apply recordable_insert; [done..|].
    by eapply He.
  - destruct (tasks s !! i) as [t|] eqn:Hi; [|done].
    destruct t as [|p d [|]| | | | |]; try done. intros [= <-].
    apply recordable_phase_update.
    + by apply (Forall_lookup_1 _ _ _ _ Ht Hi).
    + unfold base_record.
      destruct (pendingRequests s !! requestId d) as [l|] eqn:E.
      * by eapply He.
      * apply recordable_fresh.
Qed.

Lemma exec_recordable (a : action) (s s' : state) :
  inv s → entries_distinct s → inv_recordable s → exec a s = Some s' →
  inv_recordable s'.
Proof.
  intros Hinv Hd Hrec Hex. pose proof Hrec as (Ht & He & Hw & Hl).
  pose proof (step_enqueues a s s' Hinv Hex) as Hstep.
  destruct (exec_inv _ _ _ Hinv Hex) as (_ & Hf & _).
  pose proof Hinv as (Hh & _). pose proof Hh as (_ & _ & H3).
  assert (∀ q, q ∈ work s → recordable (snapshot (heap s') q)) as Hold.
  { intros q Hq. rewrite (snapshot_frame s s' q); auto. }
  split; [by eapply exec_tasks_pass|]. split; [|split].
  - intros id l Hl'.
    destruct (exec_entry_cases a s s' id l Hinv Hd Hex Hl') as [[Ho ->]|[_ Hen]].
    + by eapply He.
    + by eapply enqueued_recordable.
  - intros q Hq. destruct (enqueued a s) as [r|] eqn:Hen.
    + destruct Hstep as (Hw' & Hs' & _). rewrite Hw' in Hq.
      apply elem_of_app in Hq as [Hq|Hq]; [by apply Hold|].
      apply list_elem_of_singleton in Hq as ->. rewrite Hs'.
      by eapply enqueued_recordable.
    + destruct Hstep as [[Hw' _]|(q0 & Hw' & _)].
      * apply Hold. by rewrite <- Hw'.
      * apply Hold. rewrite Hw'. by right.
  - destruct (enqueued a s) as [r|] eqn:Hen.
    + by destruct Hstep as (_ & _ & ->).
    + destruct Hstep as [[_ ->]|(q0 & Hw' & ->)]; [done|].
      apply recordable_apply; [|done]. apply Hw. rewrite Hw'. by left.
Qed.

Lemma run_recordable (tr : list action) (s s' : state) :
  inv s → entries_distinct s → inv_recordable s → run tr s = Some s' →
  inv_recordable s'.
Proof.
  revert s. induction tr as [|a tr IH]; intros s Hinv Hd Hrec; simpl.
  - by intros [= <-].
  - destruct (exec a s) as [s1|] eqn:E; simpl; [|done].
    apply IH.
    + by destruct (exec_inv _ _ _ Hinv E).
    + destruct Hinv as (Hh & _). by eapply exec_distinct.
    + by eapply exec_recordable.
Qed.

(** X8. Only requests that passed the filters are recorded.  When the
    stored logs hold such records to begin with (none, for instance), then
    after any run every stored record, every pending entry and every queued
    copy that has a url has one that does not start with
    [chrome-extension://], [data:] or [blob:], and has no type other than
    [xmlhttprequest]. *)
Theorem X8_only_api_requests_stored (tr : list action) (isRecording : bool)
    (logs : option (list srec)) (now : Z) (s : state) :
  length (default [] logs) ≤ MAX_LOGS →
  Forall recordable (default [] logs) →
  run tr (init isRecording logs now) = Some s →
  Forall recordable (default [] (storage_logs s)) ∧
  (∀ id l, pendingRequests s !! id = Some l → recordable (snapshot (heap s) l)) ∧
  (∀ q, q ∈ work s → recordable (snapshot (heap s) q)).
Proof.
  intros Hlen Hlogs Hrun.
  destruct (run_recordable tr (init isRecording logs now) s) as (_ & He & Hw & Hl);
    [by apply init_inv| | |done|done].
  - intros id1 id2 l H. simpl in H. by rewrite lookup_empty in H.
  - split; [by constructor|]. split; [|split; [|done]].
    + intros id l H. simpl in H. by rewrite lookup_empty in H.
    + intros q Hq. unfold work, in_flight in Hq. simpl in Hq.
      by apply elem_of_nil in Hq.
Qed.

(** ** The queue drains *)

Lemma steps_spawn (t : task) (s : state) :
  steps_left (spawn t s) = steps_left s + task_steps t.
Proof.
  unfold steps_left. simpl. rewrite sum_list_with_app. simpl. lia.
Qed.

Lemma steps_remove (i : nat) (t : task) (s : state) :
  tasks s !! i = Some t →
  steps_left (with_tasks (delete i (tasks s)) s) + task_steps t = steps_left s.
Proof.
  intros Hi. unfold steps_left. simpl. rewrite delete_take_drop.
  rewrite <- (take_drop_middle (tasks s) i t Hi) at 3.
  rewrite !sum_list_with_app. simpl. lia.
Qed.

Lemma steps_processQueue (s : state) :
  steps_left (processQueue s) = steps_left s.
Proof.
  unfold processQueue. destruct (isSaving s); [done|].
  destruct (saveQueue s) as [|q rest] eqn:E; [done|].
  rewrite steps_spawn. unfold steps_left. simpl. rewrite E. simpl. lia.
Qed.

Lemma steps_release (s : state) :
  steps_left
    (let s1 := with_isSaving false s in
     if bool_decide (0 < length (saveQueue s1)) then processQueue s1 else s1)
  = steps_left s.
Proof.
  cbv zeta. case_bool_decide; [|done]. by rewrite steps_processQueue.
Qed.

Lemma steps_saveLog (log : loc) (s : state) :
  steps_left (saveLog log s) = steps_left s + 4.
Proof.
  unfold saveLog. simpl. rewrite steps_processQueue.
  unfold steps_left. simpl. rewrite length_app. simpl. lia.
Qed.

Lemma getOrCreatePending_saveQueue (id : string) (s : state) :
  saveQueue (getOrCreatePending id s).2 = saveQueue s.
Proof. unfold getOrCreatePending. by destruct (pendingRequests s !! id). Qed.

Lemma steps_recording_got (p : phase) (d : details) (r : bool) (s : state) :
  steps_left (recording_got p d r s) ≤ steps_left s + 4.
Proof.
  destruct r; [|unfold recording_got; simpl; lia].
  rewrite recording_got_body, steps_saveLog.
  destruct (phase_body_same_ctl p d (getOrCreatePending (requestId d) s).1
              (getOrCreatePending (requestId d) s).2) as (_ & Ht & _ & Hq & _).
  unfold steps_left. rewrite Ht, Hq.
  by rewrite getOrCreatePending_tasks, getOrCreatePending_saveQueue.
Qed.

(** a task that can run does run, and fewer steps are left afterwards *)
Lemma run_step_decreases (i : nat) (t : task) (s : state) :
  tasks s !! i = Some t → runnable (clock s) t = true →
  ∃ s', exec (Run i) s = Some s' ∧ steps_left s' < steps_left s.
Proof.
  intros Hi Hrun. cbn [exec]. rewrite Hi. cbn [mbind option_bind].
  pose proof (steps_remove i t s Hi) as Hrm.
  set (s0 := with_tasks (delete i (tasks s)) s) in *.
  destruct t as [p d|p d r|q|q r|q newLogs|q|id due];
    cbn [run_task task_steps runnable] in *.
  - eexists. split; [done|]. rewrite steps_spawn. cbn [task_steps]. lia.
  - eexists. split; [done|]. pose proof (steps_recording_got p d r s0). lia.
  - eexists. split; [done|]. rewrite steps_spawn. cbn [task_steps]. lia.
  - eexists. split; [done|]. unfold processQueue_got.
    destruct (decide_save _ _).
    + rewrite steps_spawn. cbn [task_steps]. lia.
    + rewrite steps_release. lia.
  - eexists. split; [done|]. rewrite steps_spawn.
    change (steps_left (with_logs (Some newLogs) s0)) with (steps_left s0).
    cbn [task_steps]. lia.
  - eexists. split; [done|]. unfold processQueue_set. rewrite steps_release. lia.
  - change (clock s0) with (clock s). rewrite Hrun. eexists. split; [done|].
    change (steps_left (with_pending (delete id (pendingRequests s0)) s0))
      with (steps_left s0). lia.
Qed.

Lemma next_task_Some (s : state) (i : nat) :
  next_task s = Some i →
  ∃ t, tasks s !! i = Some t ∧ runnable (clock s) t = true.
Proof.
  unfold next_task. destruct (list_find _ _) as [[j t]|] eqn:E; [|done].
  simpl. intros [= <-]. apply list_find_Some in E as (Hj & Ht & _).
  exists t. split; [done|]. by apply Is_true_true.
Qed.

Lemma next_task_None (s : state) : next_task s = None → waiting s.
Proof.
  unfold next_task, waiting. destruct (list_find _ _) as [[j t]|] eqn:E; [done|].
  intros _. apply list_find_None in E. eapply Forall_impl; [exact E|].
  intros t Ht. simpl in Ht. by destruct (runnable (clock s) t).
Qed.

Lemma no_steps_no_tasks (s : state) : steps_left s = 0 → tasks s = [].
Proof.
  unfold steps_left. destruct (tasks s) as [|t ts]; [done|].
  simpl. destruct t; simpl; lia.
Qed.

Lemma settle_waiting (n : nat) (s : state) :
  steps_left s ≤ n → waiting (settle n s).
Proof.
  revert s. induction n as [|n IH]; intros s Hn; cbn [settle].
  - unfold waiting. rewrite no_steps_no_tasks by lia. constructor.
  - destruct (next_task s) as [i|] eqn:E; [|by apply next_task_None].
    destruct (next_task_Some _ _ E) as (t & Hi & Hrun).
    destruct (run_step_decreases i t s Hi Hrun) as (s' & Hex & Hlt).
    rewrite Hex. apply IH. lia.
Qed.

Lemma filter_none {A} (P : A → bool) (l : list A) :
  Forall (λ x, P x = false) l → filter P l = [].
Proof.
  induction 1 as [|x l Hx _ IH]; [done|].
  rewrite filter_cons, Hx. simpl. by destruct (decide (false)) as [[]|].
Qed.

(** when only timers that are not due remain, no record is waiting *)
Lemma waiting_idle (s : state) :
  inv s → waiting s →
  isSaving s = false ∧ saveQueue s = [] ∧ in_flight s = [] ∧ work s = [].
Proof.
  intros (_ & Hs) Hw.
  assert (in_flight s = []) as Hfl.
  { unfold in_flight. apply filter_none.
    eapply Forall_impl; [exact Hw|]. intros t Ht. by destruct t. }
  unfold inv_save in Hs. destruct (isSaving s).
  - destruct Hs as (t & Ht & _). by rewrite Hfl in Ht.
  - destruct Hs as [_ Hq]. unfold work. by rewrite Hfl, Hq.
Qed.

Lemma exec_run_decreases (i : nat) (s s' : state) :
  exec (Run i) s = Some s' → steps_left s' < steps_left s.
Proof.
  intros Hex. pose proof Hex as Hex'. cbn [exec] in Hex'.
  destruct (tasks s !! i) as [t|] eqn:Hi; [|done].
  cbn [mbind option_bind] in Hex'.
  assert (runnable (clock s) t = true) as Hrun.
  { destruct t; try done. cbn [run_task] in Hex'. cbn [runnable].
    change (clock (with_tasks (delete i (tasks s)) s)) with (clock s) in Hex'.
    by destruct (bool_decide _). }
  destruct (run_step_decreases i t s Hi Hrun) as (s'' & Hex'' & Hlt).
  congruence.
Qed.

Lemma run_steps_bound (tr : list action) (s s' : state) :
  Forall is_run tr → run tr s = Some s' →
  length tr + steps_left s' ≤ steps_left s.
Proof.
  revert s. induction tr as [|a tr IH]; intros s Hruns; simpl.
  - intros [= <-]. lia.
  - destruct (exec a s) as [s1|] eqn:E; simpl; [|done]. intros Hrun.
    apply Forall_cons in Hruns as [Ha Hruns]. destruct a; try done.
    pose proof (exec_run_decreases _ _ _ E).
    pose proof (IH s1 Hruns Hrun). lia.
Qed.

(** X9. The queue always drains.  From any reachable state, however the
    outstanding tasks are scheduled, they can take at most [steps_left]
    steps as long as no event arrives; and whenever a run has left only
    timers that are not yet due, no read-merge-write is outstanding, the
    saving flag is released and no record waits in the queue (the flag
    cannot get stuck, also where a record is dropped).  Running the tasks
    oldest first for [steps_left] steps reaches such a state. *)
Theorem X9_queue_drains (s : state) :
  reachable s →
  (∀ tr s1, Forall is_run tr → run tr s = Some s1 →
            length tr + steps_left s1 ≤ steps_left s) ∧
  (∀ tr s1, run tr s = Some s1 → waiting s1 →
            isSaving s1 = false ∧ saveQueue s1 = [] ∧ in_flight s1 = [] ∧
            work s1 = []) ∧
  (let s' := settle (steps_left s) s in
   waiting s' ∧ isSaving s' = false ∧ saveQueue s' = [] ∧ in_flight s' = [] ∧
   work s' = [] ∧
   Forall (λ t, ∃ id due, t = Timeout id due ∧ (clock s' < due)%Z) (tasks s')).
Proof.
  intros Hr. apply reachable_inv in Hr.
  split; [intros tr s1; apply run_steps_bound|]. split.
  { intros tr s1 Hrun Hw. apply waiting_idle; [|done]. by eapply run_inv. }
  intros s'.
  assert (waiting s') as Hw by by apply settle_waiting.
  assert (inv s') as Hinv by by apply settle_inv.
  destruct (waiting_idle s' Hinv Hw) as (H1 & H2 & H3 & H4).
  do 5 (split; [done|]).
  eapply Forall_impl; [exact Hw|]. intros t Ht.
  destruct t; try done. simpl in Ht. apply bool_decide_eq_false in Ht.
  eexists _, _. split; [done|]. lia.
Qed.

Lemma processQueue_no_toggle (s : state) :
  Forall (λ t, is_toggle_task t = false) (tasks s) →
  Forall (λ t, is_toggle_task t = false) (tasks (processQueue s)).
Proof.
  intros H. unfold processQueue. destruct (isSaving s); [done|].
  destruct (saveQueue s); [done|]. simpl. apply Forall_app. split; [done|].
  by constructor.
Qed.

Lemma run_no_toggle (i : nat) (s s' : state) :
  Forall (λ t, is_toggle_task t = false) (tasks s) →
  exec (Run i) s = Some s' →
  Forall (λ t, is_toggle_task t = false) (tasks s').
Proof.
  intros H Hex. simpl in Hex.
  destruct (tasks s !! i) as [t|] eqn:Hi; simpl in Hex; [|done].
  pose proof (Forall_lookup_1 _ _ _ _ H Hi) as Ht.
  pose proof (Forall_delete _ _ i H) as Hdel.
  destruct t as [p d|p d r|q|q r|q newLogs|q|id due]; try done; simpl in Hex.
  - injection Hex as <-. simpl. apply Forall_app. split; [done|]. by constructor.
  - injection Hex as <-. unfold processQueue_got.
    destruct (decide_save _ _).
    + simpl. apply Forall_app. split; [done|]. by constructor.
    + cbv zeta. case_bool_decide; [|done]. by apply processQueue_no_toggle.
  - injection Hex as <-. simpl. apply Forall_app. split; [done|]. by constructor.
  - injection Hex as <-. unfold processQueue_set. cbv zeta.
    case_bool_decide; [|done]. by apply processQueue_no_toggle.
  - case_bool_decide; [|done]. by injection Hex as <-.
Qed.

Lemma apply_all_ext (h h' : heap_t) (qs : list loc) (logs : option (list srec)) :
  (∀ q, q ∈ qs → snapshot h' q = snapshot h q) →
  apply_all h' qs logs = apply_all h qs logs.
Proof.
  revert logs. induction qs as [|q qs IH]; intros logs Hq; [done|].
  unfold apply_all in *. simpl. rewrite (Hq q) by by left.
  apply IH. intros q' Hq'. apply Hq. by right.
Qed.

(** a step of a task that is not a toggle read leaves what the stored logs
    will be once the unapplied records are applied *)
Lemma exec_run_result (i : nat) (s s' : state) :
  inv s → Forall (λ t, is_toggle_task t = false) (tasks s) →
  exec (Run i) s = Some s' →
  apply_all (heap s') (work s') (storage_logs s')
  = apply_all (heap s) (work s) (storage_logs s).
Proof.
  intros Hinv Hno Hex.
  destruct (exec_inv _ _ _ Hinv Hex) as (Hinv' & Hf & _).
  pose proof (step_enqueues _ _ _ Hinv Hex) as Hstep.
  assert (enqueued (Run i) s = None) as Hen.
  { simpl. destruct (tasks s !! i) as [t|] eqn:Hi; [|done].
    pose proof (Forall_lookup_1 _ _ _ _ Hno Hi) as Ht. by destruct t. }
  rewrite Hen in Hstep.
  pose proof Hinv as ((_ & _ & H3) & _).
  assert (∀ q, q ∈ work s → snapshot (heap s') q = snapshot (heap s) q) as Hsn.
  { intros q Hq. apply snapshot_frame; [by destruct Hinv|done|by apply H3]. }
  destruct Hstep as [[Hw ->]|(q & Hw & ->)].
  - rewrite Hw. by apply apply_all_ext.
  - rewrite Hw. unfold apply_all at 2. simpl. apply apply_all_ext.
    intros q' Hq'. apply Hsn. rewrite Hw. by right.
Qed.

Lemma run_result (tr : list action) (s s' : state) :
  inv s → Forall (λ t, is_toggle_task t = false) (tasks s) →
  Forall is_run tr → run tr s = Some s' →
  apply_all (heap s') (work s') (storage_logs s')
  = apply_all (heap s) (work s) (storage_logs s).
Proof.
  revert s. induction tr as [|a tr IH]; intros s Hinv Hno Hruns; simpl.
  - by intros [= <-].
  - destruct (exec a s) as [s1|] eqn:E; simpl; [|done]. intros Hrun.
    apply Forall_cons in Hruns as [Ha Hruns]. destruct a; try done.
    rewrite <- (exec_run_result _ _ _ Hinv Hno E). apply IH; [|by eapply run_no_toggle|done..].
    by destruct (exec_inv _ _ _ Hinv E).
Qed.

Lemma settle_logs (n : nat) (s : state) :
  inv s → Forall (λ t, is_toggle_task t = false) (tasks s) →
  steps_left s ≤ n →
  storage_logs (settle n s) = apply_all (heap s) (work s) (storage_logs s).
Proof.
  revert s. induction n as [|n IH]; intros s Hinv Hno Hn; cbn [settle].
  - destruct (waiting_idle s Hinv) as (_ & _ & _ & ->); [|done].
    unfold waiting. rewrite no_steps_no_tasks by lia. constructor.
  - destruct (next_task s) as [i|] eqn:E.
    2:{ destruct (waiting_idle s Hinv) as (_ & _ & _ & ->); [|done].
        by apply next_task_None. }
    destruct (next_task_Some _ _ E) as (t & Hi & Hrun).
    destruct (run_step_decreases i t s Hi Hrun) as (s' & Hex & Hlt).
    rewrite Hex.
    destruct (exec_inv _ _ _ Hinv Hex) as (Hinv' & _).
    rewrite IH; [|done|by eapply run_no_toggle|lia].
    by apply (exec_run_result i).
Qed.

(** X10. What draining stores.  From a reachable state in which no read of
    the toggle is outstanding, the steps of the outstanding tasks, in
    whatever order they are taken, do not change what the stored logs will
    be once the unapplied records are applied to them; so when the tasks
    have run to the end the stored logs are exactly the result of applying
    the unapplied records, one after the other in the order in which they
    were handed to [saveLog], each as it is cloned in the state the
    draining starts from: no update is lost and none is applied twice. *)
Theorem X10_drain_applies_in_order (s : state) :
  reachable s →
  Forall (λ t, is_toggle_task t = false) (tasks s) →
  (∀ tr s1, Forall is_run tr → run tr s = Some s1 →
     apply_all (heap s1) (work s1) (storage_logs s1)
     = apply_all (heap s) (work s) (storage_logs s) ∧
     (waiting s1 →
      storage_logs s1 = apply_all (heap s) (work s) (storage_logs s))) ∧
  storage_logs (settle (steps_left s) s)
  = apply_all (heap s) (work s) (storage_logs s).
Proof.
  intros Hr Hno. apply reachable_inv in Hr. split.
  - intros tr s1 Hruns Hrun.
    pose proof (run_result tr s s1 Hr Hno Hruns Hrun) as Hres.
    split; [done|]. intros Hw.
    destruct (waiting_idle s1) as (_ & _ & _ & Hw1); [by eapply run_inv|done|].
    by rewrite Hw1 in Hres.
  - by apply settle_logs.
Qed.

(** ** The stored logs *)

Lemma strict_eq_sym (a b : option sval) : strict_eq a b = strict_eq b a.
Proof.
  destruct a as [[[x|x|x]|?]|], b as [[[y|y|y]|?]|]; simpl; try done;
    apply bool_decide_ext; split; congruence.
Qed.

Lemma spread_id (cur r : srec) :
  strict_eq (cur !! "id") (r !! "id") = true →
  spread cur r !! "id" = cur !! "id".
Proof.
  unfold spread. rewrite lookup_union.
  destruct (cur !! "id") as [[[x|x|x]|?]|], (r !! "id") as [[[y|y|y]|?]|];
    simpl; try done; intros H; apply bool_decide_eq_true in H; by subst.
Qed.

Lemma distinct_apply (r : srec) (logs : option (list srec)) :
  distinct_ids (default [] logs) →
  distinct_ids (default [] (apply_record r logs)).
Proof.
  intros Hd. unfold apply_record, decide_save.
  set (cur := default [] logs) in *.
  destruct (findIndex r cur) as [idx|] eqn:F.
  - destruct (findIndex_Some _ _ _ F) as (old & Hold & Heq & _).
    rewrite Hold. cbn [default from_option Datatypes.id].
    assert (∀ i x, <[idx := spread old r]> cur !! i = Some x →
              ∃ x0, cur !! i = Some x0 ∧ x0 !! "id" = x !! "id") as Hsame.
    { intros i x Hi. apply list_lookup_insert_Some in Hi
        as [(-> & <- & _)|[Hne Hi]].
      - exists old. split; [done|]. symmetry. by apply spread_id.
      - by exists x. }
    intros i j ri rj Hi Hj Hij.
    destruct (Hsame _ _ Hi) as (ri0 & Hi0 & Ei).
    destruct (Hsame _ _ Hj) as (rj0 & Hj0 & Ej).
    apply (Hd i j ri0 rj0); [done..|]. by rewrite Ei, Ej.
  - destruct (negb (struthy (r !! "url"))); [done|].
    cbn [default from_option Datatypes.id].
    pose proof (proj1 (findIndex_None r cur) F) as Hnone.
    intros i j ri rj Hi Hj Hij.
    apply lookup_take_Some in Hi as [Hi _].
    apply lookup_take_Some in Hj as [Hj _].
    destruct i as [|i], j as [|j]; simpl in Hi, Hj; simplify_eq; try done.
    + rewrite strict_eq_sym, Hnone in Hij; [done|].
      by eapply list_elem_of_lookup_2.
    + rewrite Hnone in Hij; [done|]. by eapply list_elem_of_lookup_2.
    + f_equal. by eapply Hd.
Qed.

Lemma exec_distinct_ids (a : action) (s s' : state) :
  inv s → exec a s = Some s' →
  distinct_ids (default [] (storage_logs s)) →
  distinct_ids (default [] (storage_logs s')).
Proof.
  intros Hinv Hex Hd.
  destruct (exec_inv _ _ _ Hinv Hex) as (_ & _ & [(new & _ & ->)|(q & rest & _ & _ & ->)]);
    [done|]. by apply distinct_apply.
Qed.

(** X11. The stored logs never hold two records with the same identifier:
    when the records that the storage area holds when the worker starts
    have pairwise different identifiers, so have the stored records after
    any run; a record is merged into the entry with its identifier or put
    in front when no stored record has it. *)
Theorem X11_stored_ids_distinct (tr : list action) (isRecording : bool)
    (logs : option (list srec)) (now : Z) (s : state) :
  length (default [] logs) ≤ MAX_LOGS →
  distinct_ids (default [] logs) →
  run tr (init isRecording logs now) = Some s →
  distinct_ids (default [] (storage_logs s)).
Proof.
  intros Hlen Hd.
  assert (inv (init isRecording logs now)) as Hinv by by apply init_inv.
  change logs with (storage_logs (init isRecording logs now)) in Hd.
  revert Hinv Hd. generalize (init isRecording logs now). clear Hlen.
  induction tr as [|a tr IH]; intros s0 Hinv Hd; simpl.
  - by intros [= <-].
  - destruct (exec a s0) as [s1|] eqn:E; simpl; [|done].
    apply IH.
    + by destruct (exec_inv _ _ _ Hinv E).
    + by eapply exec_distinct_ids.
Qed.

Lemma apply_record_keeps (r : srec) (logs : option (list srec)) (i : nat)
    (old : srec) :
  length (default [] logs) ≤ MAX_LOGS →
  default [] logs !! i = Some old →
  (∃ new, default [] (apply_record r logs) !! i = Some new ∧
          (new = old ∨
           new = spread old r ∧ strict_eq (old !! "id") (r !! "id") = true) ∧
          ∀ k, is_Some (old !! k) → is_Some (new !! k)) ∨
  (default [] (apply_record r logs) !! S i = Some old) ∨
  (S i = MAX_LOGS ∧ length (default [] (apply_record r logs)) = MAX_LOGS).
Proof.
  intros Hlen Hi. unfold apply_record, decide_save.
  set (cur := default [] logs) in *.
  pose proof (lookup_lt_Some _ _ _ Hi) as Hlt.
  destruct (findIndex r cur) as [idx|] eqn:F.
  - left. destruct (findIndex_Some _ _ _ F) as (c & Hc & Heq & _).
    rewrite Hc. cbn [default from_option Datatypes.id].
    destruct (decide (i = idx)) as [->|Hne].
    + exists (spread old r). assert (c = old) as -> by congruence.
      split; [by apply list_lookup_insert_eq|].
      split; [by right|]. intros k [v Hv]. unfold spread.
      rewrite lookup_union, Hv. by destruct (r !! k); eexists.
    + exists old. rewrite list_lookup_insert_ne by done. auto.
  - destruct (negb (struthy (r !! "url"))).
    + left. exists old. auto.
    + cbn [default from_option Datatypes.id]. right.
      destruct (decide (S i < MAX_LOGS)) as [Hlt'|Hge].
      * left. apply lookup_take_Some. split; [done|lia].
      * right. split; [lia|]. rewrite length_take. cbn [length]. lia.
Qed.

Lemma apply_record_grows (r : srec) (logs : option (list srec)) :
  length (default [] logs) ≤ MAX_LOGS →
  length (default [] logs) ≤ length (default [] (apply_record r logs)).
Proof.
  intros Hlen. unfold apply_record, decide_save.
  destruct (findIndex r _) as [idx|] eqn:F.
  - destruct (_ !! idx); cbn [default from_option Datatypes.id]; [|done].
    by rewrite length_insert.
  - destruct (negb (struthy (r !! "url"))); [done|].
    cbn [default from_option Datatypes.id]. rewrite length_take.
    cbn [length]. lia.
Qed.

(** X12. Nothing is taken out of the stored logs but the oldest record of a
    full log.  At every step the stored list does not get shorter, and a
    stored record stays at its place, unchanged or merged with a snapshot
    that has its identifier (in which case it keeps every field it had), or
    moves down by one place because a record is put in front of it, or is
    the last record of a full list and is evicted by that. *)
Theorem X12_stored_records_kept (s s' : state) (a : action) (i : nat)
    (old : srec) :
  reachable s → exec a s = Some s' →
  default [] (storage_logs s) !! i = Some old →
  length (default [] (storage_logs s)) ≤ length (default [] (storage_logs s')) ∧
  ((∃ new, default [] (storage_logs s') !! i = Some new ∧
           (new = old ∨ ∃ r, new = spread old r ∧
                             strict_eq (old !! "id") (r !! "id") = true) ∧
           ∀ k, is_Some (old !! k) → is_Some (new !! k)) ∨
   default [] (storage_logs s') !! S i = Some old ∨
   (S i = MAX_LOGS ∧ length (default [] (storage_logs s')) = MAX_LOGS)).
Proof.
  intros Hr Hex Hi. pose proof (reachable_bounded s Hr) as Hlen.
  apply reachable_inv in Hr.
  destruct (exec_inv _ _ _ Hr Hex)
    as (_ & _ & [(new & _ & ->)|(q & rest & _ & _ & ->)]).
  - split; [done|]. left. exists old. auto.
  - set (r := snapshot (heap s) q). split; [by apply apply_record_grows|].
    destruct (apply_record_keeps r _ i old Hlen Hi)
      as [(new & Hn & Hor & Hk)|[H|H]]; [|by right; left|by right; right].
    left. exists new. split; [done|]. split; [|done].
    destruct Hor as [->|[-> Heq]]; [by left|]. right. by exists r.
Qed.

(** ** The installation handler *)

(** X13. After the installation handler has run, whatever rules were active
    before, at most one rule with id 1 is active after any series of
    messages (none right after the installation), and the rules with
    another id are never touched; the stored toggle is off and the stored
    logs are empty, and the messages do not change what the worker holds. *)
Theorem X13_installed_rules (b : browser) (ms : list Dnr.message) :
  let b' := foldl (λ b m, browser_message m b) (onInstalled b) ms in
  length (filter (λ r, Dnr.id r = 1%Z) (sessionRules b')) ≤ 1 ∧
  filter (λ r, Dnr.id r ≠ 1%Z) (sessionRules b')
  = filter (λ r, Dnr.id r ≠ 1%Z) (sessionRules b) ∧
  filter (λ r, Dnr.id r = 1%Z) (sessionRules (onInstalled b)) = [] ∧
  worker b' = with_logs (Some []) (with_isRecording false (worker b)) ∧
  chrome_action b' = chrome_action (onInstalled b).
Proof.
  cbv zeta.
  assert (sessionRules (onInstalled b)
          = filter (λ r, Dnr.id r ≠ 1%Z) (sessionRules b)) as Hinst.
  { unfold onInstalled. cbn [sessionRules write_isRecording].
    by rewrite updateSessionRules_remove, filter_other_ids. }
  induction ms as [|m ms IH] using rev_ind.
  - cbn [foldl]. rewrite Hinst, filter_id_1_other, filter_other_idemp.
    split; [simpl; lia|]. done.
  - rewrite foldl_app. cbn [foldl].
    destruct IH as (H1 & H2 & H3 & H4 & H5).
    set (bn := foldl (λ b m, browser_message m b) (onInstalled b) ms) in *.
    unfold browser_message. cbn [sessionRules worker chrome_action].
    split; [by apply onMessage_count|].
    split; [by rewrite onMessage_other_ids|]. done.
Qed.

(** ** Recording switched off *)

Lemma exec_recording_off (a : action) (s s' : state) :
  recording_off s → a ≠ SetRecording true → exec a s = Some s' →
  recording_off s' ∧ storage_logs s' = storage_logs s.
Proof.
  intros (Hoff & Hp & Hh & Hi & Hq & Ht) Hne Hex.
  assert (∀ t, off_task t →
            recording_off (spawn t s) ∧ storage_logs (spawn t s) = storage_logs s)
    as Hsp.
  { intros t Hof. split; [|done]. repeat split; try done. simpl.
    apply Forall_app. split; [done|]. by constructor. }
  assert (recording_off s) as Hs by by repeat split.
  destruct a as [d|d|d|d|d|v|dt|i].
  - change (exec (event_of BeforeRequest d) s = Some s') in Hex.
    rewrite exec_event_of in Hex. injection Hex as <-.
    destruct (passes d); [by apply Hsp|done].
  - change (exec (event_of BeforeSendHeaders d) s = Some s') in Hex.
    rewrite exec_event_of in Hex. injection Hex as <-.
    destruct (passes d); [by apply Hsp|done].
  - change (exec (event_of HeadersReceived d) s = Some s') in Hex.
    rewrite exec_event_of in Hex. injection Hex as <-.
    destruct (passes d); [by apply Hsp|done].
  - simpl in Hex. injection Hex as <-. unfold onCompleted.
    rewrite Hp, lookup_empty. done.
  - simpl in Hex. injection Hex as <-. unfold onErrorOccurred.
    rewrite Hp, lookup_empty. done.
  - simpl in Hex. injection Hex as <-. destruct v; [done|].
    split; [|done]. by repeat split.
  - simpl in Hex. case_bool_decide; [|done]. injection Hex as <-.
    split; [|done]. by repeat split.
  - simpl in Hex. destruct (tasks s !! i) as [t|] eqn:Hti; simpl in Hex; [|done].
    pose proof (Forall_lookup_1 _ _ _ _ Ht Hti) as Hof.
    pose proof (Forall_delete _ _ i Ht) as Hdel.
    destruct t as [p d|p d r| | | | |]; try done; simpl in Hex, Hof.
    + injection Hex as <-. rewrite Hoff. split; [|done].
      repeat split; try done. simpl. apply Forall_app. split; [done|].
      by constructor.
    + subst r. injection Hex as <-. split; [|done]. by repeat split.
Qed.

Lemma run_recording_off (tr : list action) (s0 s : state) :
  recording_off s0 → SetRecording true ∉ tr → run tr s0 = Some s →
  recording_off s ∧ storage_logs s = storage_logs s0.
Proof.
  revert s0. induction tr as [|a tr IH]; intros s0 Hoff Hno; simpl.
  - by intros [= <-].
  - destruct (exec a s0) as [s1|] eqn:E; simpl; [|done]. intros Hrun.
    destruct (exec_recording_off a s0 s1 Hoff) as [Hoff1 <-]; [|done|].
    { intros ->. apply Hno. by left. }
    apply IH; [done| |done]. intros Hin. apply Hno. by right.
Qed.

(** X14. While recording is off nothing is recorded.  From a worker that
    starts with the toggle off, a run in which the toggle is not switched
    on leaves the stored logs exactly as they were, creates no pending
    entry and no object, and never starts a read-merge-write: every event
    ends at the read of the toggle. *)
Theorem X14_off_records_nothing (tr : list action) (logs : option (list srec))
    (now : Z) (s : state) :
  SetRecording true ∉ tr →
  run tr (init false logs now) = Some s →
  storage_logs s = logs ∧ storage_isRecording s = false ∧
  pendingRequests s = ∅ ∧ heap s = [] ∧
  isSaving s = false ∧ saveQueue s = [] ∧ in_flight s = [].
Proof.
  intros Hno Hrun.
  destruct (run_recording_off tr (init false logs now) s)
    as ((H1 & H2 & H3 & H4 & H5 & H6) & Hl); [by repeat split|done..|].
  do 6 (split; [done|]). unfold in_flight. apply filter_none.
  eapply Forall_impl; [exact H6|]. intros t Ht. by destruct t.
Qed.

(** ** The events of one request *)

Lemma add_headers_snoc (hs : list HttpHeader) (h : HttpHeader)
    (m : gmap string string) :
  add_headers (hs ++ [h]) m
  = if bool_decide (name h = "__proto__") then add_headers hs m
    else <[name h := value_or_empty h]> (add_headers hs m).
Proof. unfold add_headers. by rewrite foldl_app. Qed.

Lemma last_named_snoc (n : string) (hs : list HttpHeader) (h : HttpHeader) :
  last_named n (hs ++ [h])
  = if decide (name h = n) then Some h else last_named n hs.
Proof.
  unfold last_named. rewrite filter_app, filter_cons, filter_nil.
  destruct (decide (name h = n)).
  - by rewrite last_snoc.
  - by rewrite app_nil_r.
Qed.

Lemma add_headers_lookup (hs : list HttpHeader) (m : gmap string string)
    (n : string) :
  add_headers hs m !! n
  = if bool_decide (n = "__proto__") then m !! n
    else match last_named n hs with
         | Some h => Some (value_or_empty h)
         | None => m !! n
         end.
Proof.
  induction hs as [|h hs IH] using rev_ind; [by case_bool_decide|].
  rewrite add_headers_snoc, last_named_snoc.
  destruct (bool_decide (name h = "__proto__")) eqn:Eh.
  - apply bool_decide_eq_true in Eh. rewrite IH.
    case_bool_decide; [done|]. destruct (decide (name h = n)); [congruence|done].
  - apply bool_decide_eq_false in Eh. rewrite lookup_insert.
    destruct (decide (name h = n)) as [<-|Hn].
    + by rewrite bool_decide_eq_false_2.
    + rewrite IH. by case_bool_decide.
Qed.

(** X15. A request-headers or response-headers event merges its headers
    into the header map of the entry by name.  A name other than
    [__proto__] that the event carries gets the value of the last header of
    the event with that name (a header without a value counts as the empty
    string), and a name the event does not carry keeps the value it had.  A
    header named [__proto__] is not stored: the assignment that would store
    it reaches the accessor of [Object.prototype], so the map keeps under
    that name what it had.  No other field of the entry changes, and the
    record handed to the queue is the clone of the entry after the merge. *)
Theorem X15_headers_merged_by_name (s : state) (d : details) (p : phase) :
  reachable s → p ≠ BeforeRequest →
  let s2 := recording_got p d true s in
  let base := base_record (requestId d) s in
  ∃ log m,
    pendingRequests s2 !! requestId d = Some log ∧
    snapshot (heap s2) log !! header_field p = Some (SObj m) ∧
    (∀ n, n ≠ "__proto__" →
          m !! n = match last_named n (headers_of p d) with
                   | Some h => Some (LStr (value_or_empty h))
                   | None => header_map (header_field p) base !! n
                   end) ∧
    m !! "__proto__" = header_map (header_field p) base !! "__proto__" ∧
    (∀ k, k ≠ header_field p → snapshot (heap s2) log !! k = base !! k) ∧
    snapshot (heap s2) (length (heap s2) - 1) = snapshot (heap s2) log.
Proof.
  intros Hr Hp s2 base. apply reachable_inv in Hr.
  destruct (recording_got_snapshot p d s Hr) as (Hlog & _ & Hs & Hc).
  fold s2 base in Hlog, Hs, Hc.
  assert (phase_update p d base
          = headers_update (header_field p) (Some (headers_of p d)) base) as Hu.
  { destruct p; [done|..]; simpl; unfold headers_update;
      by destruct (_ d). }
  rewrite Hu in Hs, Hc. unfold headers_update in Hs.
  eexists _, _. split; [exact Hlog|]. rewrite Hc, Hs.
  split; [apply lookup_insert_eq|]. split; [|split; [|split; [|done]]].
  - intros n Hn. rewrite lookup_union, lookup_fmap, add_headers_lookup.
    rewrite bool_decide_eq_false_2 by done.
    cbn [default from_option Datatypes.id]. unfold header_map.
    destruct (last_named n (headers_of p d)) as [h|]; simpl.
    + by destruct (_ !! n).
    + rewrite lookup_empty. simpl. by destruct (_ !! n).
  - rewrite lookup_union, lookup_fmap, add_headers_lookup.
    rewrite bool_decide_eq_true_2 by done.
    cbn [default from_option Datatypes.id]. unfold header_map.
    rewrite lookup_empty. simpl. by destruct (_ !! "__proto__").
  - intros k Hk. by rewrite lookup_insert_ne.
Qed.

(** X16. A begin event sets the url, the method and the type of the entry
    to those of the event, also when the entry has them already (a second
    begin event for the same request overwrites them); the status, the
    timestamp, the header maps and every other field stay as they are, and
    so does a request body captured earlier when the event carries none.
    The record handed to the queue is the clone of the entry after these
    writes. *)
Theorem X16_begin_sets_scalars (s : state) (d : details) :
  reachable s →
  let s2 := recording_got BeforeRequest d true s in
  let base := base_record (requestId d) s in
  ∃ log,
    pendingRequests s2 !! requestId d = Some log ∧
    snapshot (heap s2) log !! "url" = Some (SLeaf (LStr (url d))) ∧
    snapshot (heap s2) log !! "method" = Some (SLeaf (LStr (method d))) ∧
    snapshot (heap s2) log !! "type" = Some (SLeaf (LStr (type d))) ∧
    (∀ k, k ∉ ["url"; "method"; "type"; "requestBody"] →
          snapshot (heap s2) log !! k = base !! k) ∧
    ((requestBody d = None ∨
      ∃ body, requestBody d = Some body ∧ formData body = None ∧
              (raw body = None ∨ raw body = Some [])) →
     snapshot (heap s2) log !! "requestBody" = base !! "requestBody") ∧
    snapshot (heap s2) (length (heap s2) - 1) = snapshot (heap s2) log.
Proof.
  intros Hr s2 base. apply reachable_inv in Hr.
  destruct (recording_got_snapshot BeforeRequest d s Hr) as (Hlog & _ & Hs & Hc).
  fold s2 base in Hlog, Hs, Hc. cbn [phase_update] in Hs.
  eexists. split; [exact Hlog|]. rewrite Hc, Hs.
  split; [|split; [|split; [|split; [|split; [|done]]]]].
  - rewrite body_update_lookup_ne by done.
    do 2 (rewrite lookup_insert_ne by done). apply lookup_insert_eq.
  - rewrite body_update_lookup_ne by done.
    rewrite lookup_insert_ne by done. apply lookup_insert_eq.
  - rewrite body_update_lookup_ne by done. apply lookup_insert_eq.
  - intros k Hk.
    assert (k ≠ "url" ∧ k ≠ "method" ∧ k ≠ "type" ∧ k ≠ "requestBody")
      as (H1 & H2 & H3 & H4).
    { repeat split; intros ->; apply Hk; apply list_elem_of_In; simpl; auto. }
    rewrite body_update_lookup_ne by done.
    by do 3 (rewrite lookup_insert_ne by done).
  - intros Hb.
    assert (∀ r, body_update d r = r) as ->.
    { intros r. unfold body_update.
      destruct Hb as [->|(body & -> & Hf & [-> | ->])]; [done|..];
        by rewrite Hf. }
    by do 3 (rewrite lookup_insert_ne by done).
Qed.

(** X17. [getOrCreatePending] is a lookup that fills the table on a miss.
    Afterwards the table maps the request to the object it returns; a
    second call returns the same object and changes nothing; the entries of
    other requests are the same; on a hit nothing changes at all, and on a
    miss the object is a new one whose clone has the identifier, status 0,
    the current time as timestamp and two empty header maps. *)
Theorem X17_getOrCreatePending_lookup (s : state) (id : string) :
  reachable s →
  let log := (getOrCreatePending id s).1 in
  let s1 := (getOrCreatePending id s).2 in
  pendingRequests s1 !! id = Some log ∧
  getOrCreatePending id s1 = (log, s1) ∧
  (∀ id', id' ≠ id → pendingRequests s1 !! id' = pendingRequests s !! id') ∧
  (∀ l, pendingRequests s !! id = Some l → log = l ∧ s1 = s) ∧
  (pendingRequests s !! id = None →
   length (heap s) ≤ log ∧
   snapshot (heap s1) log = fresh_record id (clock s) ∧
   ∀ l, l < length (heap s) → heap s1 !! l = heap s !! l).
Proof.
  intros Hr log s1. apply reachable_inv in Hr as (Hh & _).
  destruct (getOrCreatePending_snapshot id s Hh) as (Hp & _ & _ & _ & _ & _ & _ & Hs).
  fold log s1 in Hp, Hs.
  pose proof (getOrCreatePending_entry id s) as He. fold log s1 in He.
  split; [done|]. split; [by apply getOrCreatePending_old|].
  split; [intros id' Hne; rewrite Hp; by apply lookup_insert_ne|]. split.
  - intros l Hl. unfold log, s1. by rewrite (getOrCreatePending_old _ _ _ Hl).
  - intros Hn. split; [by apply getOrCreatePending_fresh|]. split.
    + by rewrite Hs, Hn.
    + intros l Hl. by apply getOrCreatePending_heap.
Qed.

Lemma saveLog_timers (log : loc) (s : state) :
  filter is_timeout (tasks (saveLog log s)) = filter is_timeout (tasks s).
Proof.
  unfold saveLog, processQueue. simpl. destruct (isSaving s); [done|].
  destruct (saveQueue s ++ _); [done|]. simpl.
  rewrite filter_app, filter_cons, filter_nil. simpl.
  destruct (decide (false)) as [[]|]. by rewrite app_nil_r.
Qed.

(** X18. The two listeners that end a request.  For an API request that has
    a pending entry, the completed listener keeps the entry in the table and
    leaves exactly one new timer, due one grace delay after the current
    time; an event of the request that comes next finds the entry with all
    its fields and the status code.  The errored listener removes the entry
    in the same step and leaves no timer; an event of the request that
    comes next starts from a new, empty entry.  Neither touches the stored
    logs. *)
Theorem X18_completed_keeps_errored_removes (s : state) (d : details) (log : loc) :
  reachable s →
  pendingRequests s !! requestId d = Some log → isApiRequest d = true →
  (pendingRequests (onCompleted d s) = pendingRequests s ∧
   filter is_timeout (tasks (onCompleted d s))
   = filter is_timeout (tasks s)
     ++ [Timeout (requestId d) (clock s + GRACE_DELAY)%Z] ∧
   storage_logs (onCompleted d s) = storage_logs s ∧
   base_record (requestId d) (onCompleted d s)
   = <["status" := SLeaf (LNum (statusCode d))]> (snapshot (heap s) log)) ∧
  (pendingRequests (onErrorOccurred d s)
   = delete (requestId d) (pendingRequests s) ∧
   filter is_timeout (tasks (onErrorOccurred d s)) = filter is_timeout (tasks s) ∧
   storage_logs (onErrorOccurred d s) = storage_logs s ∧
   base_record (requestId d) (onErrorOccurred d s)
   = fresh_record (requestId d) (clock s)).
Proof.
  intros Hr Hlog Hapi. apply reachable_inv in Hr. split.
  - destruct (onCompleted_snapshot d s log Hr Hlog Hapi) as (Hp & Hs & _).
    unfold base_record. rewrite Hp, Hs.
    unfold onCompleted. rewrite Hlog, Hapi.
    cbn [pendingRequests spawn with_tasks tasks storage_logs].
    rewrite saveLog_pending, saveLog_logs, filter_app, saveLog_timers.
    split; [done|]. split; [|done]. f_equal.
    unfold saveLog, processQueue. simpl. destruct (isSaving s); [done|].
    by destruct (saveQueue s ++ _).
  - destruct (onErrorOccurred_snapshot d s log Hr Hlog Hapi) as (Hp & _).
    unfold base_record. rewrite Hp.
    unfold onErrorOccurred. rewrite Hlog, Hapi. simpl.
    rewrite saveLog_pending, saveLog_logs, saveLog_timers.
    do 3 (split; [done|]). f_equal.
    unfold saveLog, processQueue. simpl. destruct (isSaving s); [done|].
    by destruct (saveQueue s ++ _).
Qed.

(** ** The shape of the entries *)


Lemma well_formed_fresh (id : string) (now : Z) :
  well_formed id (fresh_record id now).
Proof.
  unfold well_formed, fresh_record.
  split; [by rewrite lookup_insert_eq|].
  split; [exists 0%Z; by rewrite lookup_insert_ne, lookup_insert_eq|].
  split; [exists now; by do 2 (rewrite lookup_insert_ne by done);
           rewrite lookup_insert_eq|].
  split; [exists ∅; by do 3 (rewrite lookup_insert_ne by done);
           rewrite lookup_insert_eq|].
  exists ∅. do 4 (rewrite lookup_insert_ne by done). by rewrite lookup_insert_eq.
Qed.

Lemma well_formed_headers_update (id k : string) (hs : option (list HttpHeader))
    (r : srec) :
  k = "requestHeaders" ∨ k = "responseHeaders" →
  well_formed id r → well_formed id (headers_update k hs r).
Proof.
  intros Hk (H1 & H2 & H3 & H4 & H5). unfold well_formed, headers_update.
  destruct Hk as [-> | ->].
  - do 3 (rewrite lookup_insert_ne by done). rewrite lookup_insert_eq.
    rewrite lookup_insert_ne by done. repeat split; try done. by eexists.
  - do 4 (rewrite lookup_insert_ne by done). rewrite lookup_insert_eq.
    repeat split; try done. by eexists.
Qed.

Lemma well_formed_insert (id k : string) (v : sval) (r : srec) :
  k ∉ ["id"; "status"; "timestamp"; "requestHeaders"; "responseHeaders"] →
  well_formed id r → well_formed id (<[k := v]> r).
Proof.
  intros Hk Hr.
  assert (∀ k', k' ∈ ["id"; "status"; "timestamp"; "requestHeaders";
                      "responseHeaders"] → <[k := v]> r !! k' = r !! k') as Hl.
  { intros k' Hk'. apply lookup_insert_ne. intros ->. done. }
  unfold well_formed.
  rewrite !Hl by (apply list_elem_of_In; simpl; auto 10). done.
Qed.

Lemma well_formed_phase_update (id : string) (p : phase) (d : details)
    (r : srec) :
  well_formed id r → well_formed id (phase_update p d r).
Proof.
  intros Hr. destruct p; simpl.
  - assert (∀ k, k ≠ "requestBody" →
              body_update d (<["type" := SLeaf (LStr (type d))]>
                (<["method" := SLeaf (LStr (method d))]>
                (<["url" := SLeaf (LStr (url d))]> r))) !! k
              = <["type" := SLeaf (LStr (type d))]>
                (<["method" := SLeaf (LStr (method d))]>
                (<["url" := SLeaf (LStr (url d))]> r)) !! k) as Hb.
    { intros k Hk. by apply body_update_lookup_ne. }
    assert (well_formed id (<["type" := SLeaf (LStr (type d))]>
                (<["method" := SLeaf (LStr (method d))]>
                (<["url" := SLeaf (LStr (url d))]> r)))) as Hw.
    { do 3 (apply well_formed_insert; [not_in_list|]). done. }
    unfold well_formed. rewrite !Hb by done. done.
  - apply well_formed_headers_update; auto.
  - apply well_formed_headers_update; auto.
Qed.

Lemma concerns_unique (a : action) (s : state) (id id' : string) :
  concerns id a s = true → concerns id' a s = true → id = id'.
Proof.
  destruct a as [d|d|d|d|d|v|dt|i]; try done; simpl.
  - rewrite !bool_decide_eq_true. congruence.
  - rewrite !bool_decide_eq_true. congruence.
  - destruct (tasks s !! i) as [t|]; [|done].
    destruct t as [|p d [|]| | | | |]; try done;
      rewrite !bool_decide_eq_true; congruence.
Qed.

Lemma enqueued_shape (a : action) (s : state) (r : srec) :
  entries_well_formed s → enqueued a s = Some r →
  ∃ id, concerns id a s = true ∧ well_formed id r.
Proof.
  intros Hwf Hen.
  destruct a as [d|d|d|d|d|v|dt|i]; try done; simpl in Hen; simpl.
  - destruct (pendingRequests s !! requestId d) as [log|] eqn:E; [|done].
    simpl in Hen. destruct (isApiRequest d); [|done]. injection Hen as <-.
    exists (requestId d). split; [by apply bool_decide_eq_true|].
    destruct (Hwf _ _ E) as (H1 & H2 & H3 & H4 & H5).
    unfold well_formed. rewrite lookup_insert_eq.
    do 4 (rewrite lookup_insert_ne by done). repeat split; try done.
    by eexists.
  - destruct (pendingRequests s !! requestId d) as [log|] eqn:E; [|done].
    simpl in Hen. destruct (isApiRequest d); [|done]. injection Hen as <-.
    exists (requestId d). split; [by apply bool_decide_eq_true|].
    apply well_formed_insert; [not_in_list|].
    destruct (Hwf _ _ E) as (H1 & H2 & H3 & H4 & H5).
    unfold well_formed. rewrite lookup_insert_eq.
    do 4 (rewrite lookup_insert_ne by done). repeat split; try done.
    by eexists.
  - destruct (tasks s !! i) as [t|] eqn:Hi; [|done].
    destruct t as [|p d [|]| | | | |]; try done. injection Hen as <-.
    exists (requestId d). split; [by apply bool_decide_eq_true|].
    apply well_formed_phase_update. unfold base_record.
    destruct (pendingRequests s !! requestId d) as [l0|] eqn:E.
    + by apply Hwf.
    + apply well_formed_fresh.
Qed.

Lemma well_formed_spread (id : string) (old r : srec) :
  well_formed id r → well_formed id (spread old r).
Proof.
  intros (H1 & (st & H2) & (t & H3) & (m1 & H4) & (m2 & H5)).
  unfold well_formed, spread.
  rewrite (lookup_union_Some_l _ _ _ _ H1), (lookup_union_Some_l _ _ _ _ H2),
    (lookup_union_Some_l _ _ _ _ H3), (lookup_union_Some_l _ _ _ _ H4),
    (lookup_union_Some_l _ _ _ _ H5).
  repeat split; try done; by eexists.
Qed.

Lemma shaped_apply (r : srec) (logs : option (list srec)) :
  (∃ id, well_formed id r) →
  Forall (λ x, ∃ id, well_formed id x) (default [] logs) →
  Forall (λ x, ∃ id, well_formed id x) (default [] (apply_record r logs)).
Proof.
  intros [id Hr] Hl. unfold apply_record, decide_save.
  destruct (findIndex r (default [] logs)) as [idx|] eqn:F.
  - destruct (default [] logs !! idx) as [cur|] eqn:Hc; simpl; [|done].
    apply Forall_insert; [done|]. exists id. by apply well_formed_spread.
  - destruct (negb (struthy (r !! "url"))); [done|]. simpl.
    destruct (default [] logs) as [|x rest] eqn:E.
    + constructor; [by exists id|constructor].
    + constructor; [by exists id|]. by apply Forall_take.
Qed.

Lemma exec_shaped (a : action) (s s' : state) :
  inv s → entries_distinct s → shaped s → exec a s = Some s' → shaped s'.
Proof.
  intros Hinv Hd (Hwf & Hw & Hl) Hex.
  pose proof (step_enqueues a s s' Hinv Hex) as Hstep.
  destruct (exec_inv _ _ _ Hinv Hex) as (_ & Hf & _).
  pose proof Hinv as (Hh & _). pose proof Hh as (_ & _ & H3).
  assert (∀ q, q ∈ work s → ∃ id, well_formed id (snapshot (heap s') q)) as Hold.
  { intros q Hq. rewrite (snapshot_frame s s' q); auto. }
  split; [|split].
  - intros id l Hl'.
    destruct (exec_entry_cases a s s' id l Hinv Hd Hex Hl') as [[Ho ->]|[Hc Hen]].
    + by apply Hwf.
    + destruct (enqueued_shape _ _ _ Hwf Hen) as (id0 & Hc0 & Hwf0).
      by rewrite (concerns_unique _ _ _ _ Hc Hc0).
  - intros q Hq. destruct (enqueued a s) as [r|] eqn:Hen.
    + destruct Hstep as (Hw' & Hs' & _). rewrite Hw' in Hq.
      apply elem_of_app in Hq as [Hq|Hq]; [by apply Hold|].
      apply list_elem_of_singleton in Hq as ->. rewrite Hs'.
      destruct (enqueued_shape _ _ _ Hwf Hen) as (id0 & _ & Hwf0).
      by exists id0.
    + destruct Hstep as [[Hw' _]|(q0 & Hw' & _)].
      * apply Hold. by rewrite <- Hw'.
      * apply Hold. rewrite Hw'. by right.
  - destruct (enqueued a s) as [r|] eqn:Hen.
    + by destruct Hstep as (_ & _ & ->).
    + destruct Hstep as [[_ ->]|(q0 & Hw' & ->)]; [done|].
      apply shaped_apply; [|done]. apply Hw. rewrite Hw'. by left.
Qed.

Lemma run_shaped (tr : list action) (s s' : state) :
  inv s → entries_distinct s → shaped s → run tr s = Some s' → shaped s'.
Proof.
  revert s. induction tr as [|a tr IH]; intros s Hinv Hd Hsh; simpl.
  - by intros [= <-].
  - destruct (exec a s) as [s1|] eqn:E; simpl; [|done].
    apply IH.
    + by destruct (exec_inv _ _ _ Hinv E).
    + destruct Hinv as (Hh & _). by eapply exec_distinct.
    + by eapply exec_shaped.
Qed.

(** X19. The records keep their shape.  Every pending entry is a record of
    its request: its [id] is the request identifier under which the table
    holds it, its status and its timestamp are numbers, and its request and
    response headers are objects.  Every copy that waits in the queue has
    this shape too, and so has every stored record when the records that
    the storage area holds at the start have it. *)
Theorem X19_records_well_formed (tr : list action) (isRecording : bool)
    (logs : option (list srec)) (now : Z) (s : state) :
  length (default [] logs) ≤ MAX_LOGS →
  Forall (λ r, ∃ id, well_formed id r) (default [] logs) →
  run tr (init isRecording logs now) = Some s →
  (∀ id l, pendingRequests s !! id = Some l →
           well_formed id (snapshot (heap s) l)) ∧
  (∀ q, q ∈ work s → ∃ id, well_formed id (snapshot (heap s) q)) ∧
  Forall (λ r, ∃ id, well_formed id r) (default [] (storage_logs s)).
Proof.
  intros Hlen Hlogs Hrun.
  apply (run_shaped tr (init isRecording logs now) s); [by apply init_inv| | |done].
  - intros id1 id2 l H. simpl in H. by rewrite lookup_empty in H.
  - split; [|split; [|done]].
    + intros id l H. simpl in H. by rewrite lookup_empty in H.
    + intros q Hq. unfold work, in_flight in Hq. simpl in Hq.
      by apply elem_of_nil in Hq.
Qed.

(** ** No stale write *)

(** X20. A read-merge-write never works on stale logs.  In every reachable
    state, the logs that an outstanding callback of the read carries are
    the logs that are stored now, and the list that an outstanding write
    carries is what the merge of its record into the logs stored now gives:
    nothing has changed the stored logs since the read.  At most one such
    task is outstanding, and none when the saving flag is not set. *)
Theorem X20_no_stale_write (s : state) (i : nat) (t : task) :
  reachable s → tasks s !! i = Some t → is_save_task t = true →
  isSaving s = true ∧ in_flight s = [t] ∧
  match t with
  | CbGetLogs q result => result = storage_logs s
  | SetLogs q newLogs =>
      decide_save (snapshot (heap s) q) (storage_logs s) = Write newLogs ∧
      apply_record (snapshot (heap s) q) (storage_logs s) = Some newLogs
  | _ => True
  end.
Proof.
  intros Hr Hi Ht. apply reachable_inv in Hr as (_ & Hs).
  destruct (busy_when_in_flight s i t Hs Hi Ht) as (Hb & Hfl & Hok & _).
  split; [done|]. split; [done|].
  destruct t; try done. simpl in Hok. split; [done|].
  unfold apply_record. by rewrite Hok.
Qed.
(** * The storage queue and the toggle, over whole runs *)

(** ** Records are applied in the order of their hand-over *)

Lemma elem_of_take_1 {A} (x : A) (n : nat) (l : list A) :
  x ∈ take n l → x ∈ l.
Proof.
  intros H. rewrite <- (take_drop n l). apply elem_of_app. by left.
Qed.

Lemma apply_all_app (h : heap_t) (qs1 qs2 : list loc) (logs : option (list srec)) :
  apply_all h (qs1 ++ qs2) logs = apply_all h qs2 (apply_all h qs1 logs).
Proof. unfold apply_all. by rewrite foldl_app. Qed.

Lemma apply_all_records (h : heap_t) (qs : list loc) (logs : option (list srec)) :
  apply_all h qs logs = apply_records (snapshot h <$> qs) logs.
Proof.
  revert logs. induction qs as [|q qs IH]; intros logs; [done|]. apply IH.
Qed.

Lemma apply_records_app (rs1 rs2 : list srec) (logs : option (list srec)) :
  apply_records (rs1 ++ rs2) logs = apply_records rs2 (apply_records rs1 logs).
Proof. unfold apply_records. by rewrite foldl_app. Qed.

(** Along a run, the records that were unapplied when it started are applied
    oldest first, and before any record that is handed over during the
    run: [k] of them are applied, then those of [later]. *)
Lemma run_applies_prefix (tr : list action) (s s1 : state) :
  inv s → run tr s = Some s1 →
  ∃ k new later,
    k ≤ length (work s) ∧ work s1 = drop k (work s) ++ new ∧
    (k < length (work s) → later = []) ∧
    storage_logs s1
    = apply_records later
        (apply_all (heap s) (take k (work s)) (storage_logs s)).
Proof.
  revert s. induction tr as [|a tr IH]; intros s Hinv; cbn [run].
  - intros [= <-]. exists 0, [], []. rewrite drop_0, app_nil_r.
    split; [lia|]. done.
  - destruct (exec a s) as [s'|] eqn:E; cbn [mbind option_bind]; [|done].
    intros Hrun.
    destruct (exec_inv _ _ _ Hinv E) as (Hinv' & Hf & Hq).
    destruct (IH s' Hinv' Hrun) as (k' & new' & later' & Hk' & Hw' & Hl' & Hlogs').
    pose proof Hinv as ((_ & _ & H3) & _).
    assert (∀ qs, (∀ q, q ∈ qs → q ∈ work s) →
              ∀ logs, apply_all (heap s') qs logs = apply_all (heap s) qs logs)
      as Hext.
    { intros qs Hqs logs. apply apply_all_ext. intros q Hq'.
      apply snapshot_frame; [by destruct Hinv|done|]. by apply H3, Hqs. }
    destruct Hq as [(new0 & Hw0 & Hl0)|(q & rest & Hws & Hws' & Hl0)].
    + destruct (decide (k' ≤ length (work s))) as [Hle|Hgt].
      * exists k', (new0 ++ new'), later'. split; [done|]. split.
        { rewrite Hw', Hw0, drop_app_le by done. by rewrite <- app_assoc. }
        split. { intros Hlt. apply Hl'. rewrite Hw0, length_app. lia. }
        rewrite Hlogs', Hw0, Hl0, take_app_le by done. f_equal.
        apply Hext. intros q. apply elem_of_take_1.
      * exists (length (work s)),
          (drop (k' - length (work s)) new0 ++ new'),
          ((snapshot (heap s') <$> take (k' - length (work s)) new0) ++ later').
        split; [done|]. split.
        { rewrite Hw', Hw0, drop_app_ge, drop_all by lia. done. }
        split; [lia|].
        rewrite Hlogs', Hw0, Hl0, take_app_ge, firstn_all by lia.
        rewrite apply_all_app, apply_records_app, <- apply_all_records.
        by rewrite (Hext (work s)).
    + exists (S k'), new', later'. rewrite Hws' in Hk', Hw', Hl', Hlogs'.
      rewrite Hws. cbn [length drop take]. split; [lia|]. split; [done|].
      split; [intros Hlt; apply Hl'; lia|].
      rewrite Hlogs', Hl0. f_equal.
      change (apply_all (heap s) (q :: take k' rest) (storage_logs s))
        with (apply_all (heap s) (take k' rest)
                (apply_record (snapshot (heap s) q) (storage_logs s))).
      apply Hext. intros q' Hq'. rewrite Hws. right.
      by eapply elem_of_take_1.
Qed.

(** running the oldest task over and over is a run of task steps *)
Lemma settle_is_run (n : nat) (s : state) :
  ∃ tr, Forall is_run tr ∧ run tr s = Some (settle n s).
Proof.
  revert s. induction n as [|n IH]; intros s; cbn [settle].
  - by exists [].
  - destruct (next_task s) as [i|]; [|by exists []].
    destruct (exec (Run i) s) as [s'|] eqn:E; [|by exists []].
    destruct (IH s') as (tr & Htr & Hrun). exists (Run i :: tr).
    split; [by constructor|]. cbn [run]. by rewrite E.
Qed.

Lemma saveLog_busy (log : loc) (s : state) :
  inv s →
  work (saveLog log s) = work s ++ [length (heap s)] ∧
  isSaving (saveLog log s) = true ∧ length (in_flight (saveLog log s)) = 1.
Proof.
  intros Hinv.
  assert (isSaving (saveLog log s) = true) as Hb.
  { unfold saveLog, processQueue. simpl. destruct (isSaving s) eqn:E; [done|].
    by destruct (saveQueue s). }
  destruct (saveLog_inv log s Hinv) as ((_ & Hs) & _ & Hw & _).
  split; [done|]. split; [done|].
  unfold inv_save in Hs. rewrite Hb in Hs. by destruct Hs as (t & -> & _).
Qed.

(** C1. Records handed to [saveLog] are applied to the stored logs in the
    order in which they were handed over, whatever the order in which the
    asynchronous storage reads, writes and callbacks are performed and
    whatever events arrive in between.

    - In every reachable state a step either appends to the list of
      unapplied records or applies the oldest of them (its
      read-merge-write yields the stored logs), so a record is never
      applied while one handed over before it is unapplied.
    - A step leaves at most one read-merge-write outstanding, one exactly
      when [isSaving] is set; [processQueue] does nothing while the flag
      is set, and [saveLog] puts its record last among the unapplied ones
      and never leaves the queue idle: after it the flag is set and one
      read-merge-write is outstanding.
    - Along every run, the records that were unapplied at its start are
      applied oldest first, each as it was cloned, and before any record
      handed over later: the stored logs are those at the start with the
      first [k] of them applied in order, followed by later records only
      when all of them are applied; and all of them are applied when the
      run ends with nothing left to do but to wait for timers.
    - They are applied: when the outstanding tasks are run to the end
      (at most [steps_left] steps), no record is left unapplied, the flag
      is released, and the stored logs are those at the start with all
      the unapplied records applied in order, followed by the records
      that the outstanding callbacks of toggle reads handed over
      meanwhile (by none when no such callback is outstanding). *)
Theorem C1_serializer_fifo (s s' : state) (a : action) :
  reachable s → exec a s = Some s' →
  queue_step s s' ∧
  (∀ l1 r1 l2 r2 l3, work s = l1 ++ r1 :: l2 ++ r2 :: l3 → r2 ∈ work s') ∧
  length (in_flight s') = (if isSaving s' then 1 else 0) ∧
  (isSaving s' = true → processQueue s' = s') ∧
  (∀ log, work (saveLog log s) = work s ++ [length (heap s)] ∧
          isSaving (saveLog log s) = true ∧
          length (in_flight (saveLog log s)) = 1) ∧
  (∀ tr s1, run tr s = Some s1 →
     ∃ k new later,
       k ≤ length (work s) ∧ work s1 = drop k (work s) ++ new ∧
       (k < length (work s) → later = []) ∧
       (waiting s1 → k = length (work s) ∧ new = []) ∧
       storage_logs s1
       = apply_records later
           (apply_all (heap s) (take k (work s)) (storage_logs s))) ∧
  (let s1 := settle (steps_left s) s in
   waiting s1 ∧ work s1 = [] ∧ isSaving s1 = false ∧
   (∃ later,
      storage_logs s1
      = apply_records later (apply_all (heap s) (work s) (storage_logs s))) ∧
   (Forall (λ t, is_toggle_task t = false) (tasks s) →
    storage_logs s1 = apply_all (heap s) (work s) (storage_logs s))).
Proof.
  intros Hr Hexec. apply reachable_inv in Hr.
  destruct (exec_inv a s s' Hr Hexec) as ((_ & Hs) & _ & Hq).
  split; [done|]. split; [intros ?????; by eapply queue_step_order|].
  split.
  { unfold inv_save in Hs. destruct (isSaving s').
    - destruct Hs as (t & -> & _). done.
    - destruct Hs as [-> _]. done. }
  split; [apply processQueue_busy|].
  split; [intros log; by apply saveLog_busy|].
  split.
  { intros tr s1 Hrun.
    destruct (run_applies_prefix tr s s1 Hr Hrun)
      as (k & new & later & Hk & Hw1 & Hl & Hlogs).
    exists k, new, later. do 3 (split; [done|]). split; [|done].
    intros Hw. destruct (waiting_idle s1) as (_ & _ & _ & Hwork);
      [by eapply run_inv|done|].
    rewrite Hwork in Hw1. symmetry in Hw1.
    apply app_eq_nil in Hw1 as [Hdrop ->]. split; [|done].
    apply (f_equal length) in Hdrop. rewrite length_drop in Hdrop.
    simpl in Hdrop. lia. }
  intros s1.
  assert (waiting s1) as Hw by by apply settle_waiting.
  assert (inv s1) as Hinv1 by by apply settle_inv.
  destruct (waiting_idle s1 Hinv1 Hw) as (Hidle & _ & _ & Hwork).
  do 3 (split; [done|]). split; [|intros Hno; by apply settle_logs].
  destruct (settle_is_run (steps_left s) s) as (tr & _ & Hrun).
  destruct (run_applies_prefix tr s s1 Hr Hrun)
    as (k & new & later & Hk & Hw1 & _ & Hlogs).
  exists later. rewrite Hlogs. do 2 f_equal.
  rewrite Hwork in Hw1. symmetry in Hw1. apply app_eq_nil in Hw1 as [Hdrop _].
  apply take_ge. apply (f_equal length) in Hdrop.
  rewrite length_drop in Hdrop. simpl in Hdrop. lia.
Qed.

(** ** The toggle and the five listeners *)

Lemma with_isRecording_inv (b : bool) (s : state) :
  inv s → inv (with_isRecording b s).
Proof.
  intros Hinv. by destruct (exec_inv (SetRecording b) s _ Hinv eq_refl).
Qed.

(** C5 (amended). The begin, request-headers and response-headers listeners
    apply their filters and then only issue the read of [isRecording]; when
    the value read is false their callback leaves the state as it is: the
    pending table is unchanged and nothing is enqueued.  The completed and
    errored listeners do not read the toggle: what they do is the same
    whatever [isRecording] is.  They ignore the event when the pending
    table has no entry for the request or the request is not an API
    request; otherwise they act, also while recording is off: the
    completed listener writes the status code to the entry, keeps the
    entry and hands its clone to the queue, and the errored listener hands
    the clone of the entry with status 0 and the error text to the queue
    and removes the entry. *)
Theorem C5_toggle_gate (s : state) (d : details) (p : phase) (b : bool) :
  (recording_got p d false s = s) ∧
  (∀ s', exec (event_of p d) s = Some s' →
     heap s' = heap s ∧ pendingRequests s' = pendingRequests s ∧
     saveQueue s' = saveQueue s ∧ isSaving s' = isSaving s ∧
     (tasks s' = tasks s ∨ tasks s' = tasks s ++ [GetIsRecording p d])) ∧
  (run_task (GetIsRecording p d) s
   = Some (spawn (CbIsRecording p d (storage_isRecording s)) s)) ∧
  (onCompleted d (with_isRecording b s) = with_isRecording b (onCompleted d s)) ∧
  (onErrorOccurred d (with_isRecording b s)
   = with_isRecording b (onErrorOccurred d s)) ∧
  (pendingRequests s !! requestId d = None ∨ isApiRequest d = false →
   onCompleted d s = s ∧ onErrorOccurred d s = s) ∧
  (∀ log, reachable s →
     pendingRequests s !! requestId d = Some log → isApiRequest d = true →
     let s0 := with_isRecording b s in
     (let s2 := onCompleted d s0 in
      pendingRequests s2 !! requestId d = Some log ∧
      snapshot (heap s2) log
      = <["status" := SLeaf (LNum (statusCode d))]> (snapshot (heap s) log) ∧
      work s2 = work s ++ [length (heap s2) - 1] ∧
      snapshot (heap s2) (length (heap s2) - 1) = snapshot (heap s2) log) ∧
     (let s3 := onErrorOccurred d s0 in
      pendingRequests s3 !! requestId d = None ∧
      work s3 = work s ++ [length (heap s3) - 1] ∧
      snapshot (heap s3) (length (heap s3) - 1)
      = <["error" := SLeaf (LStr (error d))]>
          (<["status" := SLeaf (LNum 0)]> (snapshot (heap s) log)))).
Proof.
  split; [done|]. split; [|split; [done|split; [|split; [|split]]]].
  - intros s'. destruct p; simpl; intros [= <-];
      unfold onBeforeRequest, onBeforeSendHeaders, onHeadersReceived;
      destruct (_ || _); simpl; auto 10.
  - unfold onCompleted. simpl.
    destruct (pendingRequests s !! requestId d); [|done].
    destruct (isApiRequest d); [|done].
    unfold saveLog, processQueue. simpl.
    destruct (isSaving s); [done|]. by destruct (saveQueue s).
  - unfold onErrorOccurred. simpl.
    destruct (pendingRequests s !! requestId d); [|done].
    destruct (isApiRequest d); [|done].
    unfold saveLog, processQueue. simpl.
    destruct (isSaving s); [done|]. by destruct (saveQueue s).
  - unfold onCompleted, onErrorOccurred. intros [->| ->]; [done|].
    by destruct (pendingRequests s !! requestId d).
  - intros log Hr Hlog Hapi s0. apply reachable_inv in Hr.
    pose proof (with_isRecording_inv b s Hr) as Hinv0. fold s0 in Hinv0.
    assert (pendingRequests s0 !! requestId d = Some log) as Hlog0 by done.
    split.
    + destruct (onCompleted_snapshot d s0 log Hinv0 Hlog0 Hapi) as (Hp & Hs & Hc).
      destruct (onCompleted_work d s0 log Hinv0 Hlog0 Hapi) as [Hw _].
      split; [done|]. split; [done|]. split; [done|]. by rewrite Hs, Hc.
    + destruct (onErrorOccurred_snapshot d s0 log Hinv0 Hlog0 Hapi)
        as (Hp & Hw & Hc).
      done.
Qed.

(** ** The stored record of one request, time passing after its last event *)






End Background.

(** * The statements at sample inputs *)

Lemma sample_busy_reachable :
  reachable sample_id ascii_decode (state_after sample_id ascii_decode sample_busy_trace).
Proof.
  exists true, None, 0%Z, sample_busy_trace. split; [simpl; lia|].
  vm_compute. reflexivity.
Qed.

Lemma C1_serializer_fifo_witness :
  let s := state_after sample_id ascii_decode sample_busy_trace in
  let s' := state_after sample_id ascii_decode (sample_busy_trace ++ [Run 0]) in
  work s = [3; 6] ∧
  (queue_step s s' ∧
   (∀ l1 r1 l2 r2 l3, work s = l1 ++ r1 :: l2 ++ r2 :: l3 → r2 ∈ work s') ∧
   length (in_flight s') = (if isSaving s' then 1 else 0) ∧
   (isSaving s' = true → processQueue s' = s') ∧
   (∀ log, work (saveLog log s) = work s ++ [length (heap s)] ∧
           isSaving (saveLog log s) = true ∧
           length (in_flight (saveLog log s)) = 1) ∧
   (∀ tr s1, run sample_id ascii_decode tr s = Some s1 →
      ∃ k new later,
        k ≤ length (work s) ∧ work s1 = drop k (work s) ++ new ∧
        (k < length (work s) → later = []) ∧
        (waiting s1 → k = length (work s) ∧ new = []) ∧
        storage_logs s1
        = apply_records later
            (apply_all (heap s) (take k (work s)) (storage_logs s))) ∧
   (let s1 := settle sample_id ascii_decode (steps_left s) s in
    waiting s1 ∧ work s1 = [] ∧ isSaving s1 = false ∧
    (∃ later,
       storage_logs s1
       = apply_records later (apply_all (heap s) (work s) (storage_logs s))) ∧
    (Forall (λ t, is_toggle_task t = false) (tasks s) →
     storage_logs s1 = apply_all (heap s) (work s) (storage_logs s)))).
Proof.
  intros s s'. split; [vm_compute; reflexivity|].
  apply (C1_serializer_fifo sample_id ascii_decode s s' (Run 0)).
  - apply sample_busy_reachable.
  - vm_compute. reflexivity.
Defined.


Lemma C3_store_bounded_witness :
  let s := state_after sample_id ascii_decode (sample_busy_trace ++ [Run 0]) in
  let r := snapshot (heap s) 6 in
  let cur := default [] (storage_logs s) in
  length cur ≤ MAX_LOGS ∧
  (∀ idx, findIndex r cur = Some idx →
     ∃ old, cur !! idx = Some old ∧
       strict_eq (old !! "id") (r !! "id") = true ∧
       decide_save r (storage_logs s) = Write (<[idx := spread old r]> cur) ∧
       length (<[idx := spread old r]> cur) = length cur ∧
       ∀ j, j ≠ idx → <[idx := spread old r]> cur !! j = cur !! j) ∧
  (findIndex r cur = None → struthy (r !! "url") = true →
     decide_save r (storage_logs s) = Write (take MAX_LOGS (r :: cur)) ∧
     (length cur < MAX_LOGS → take MAX_LOGS (r :: cur) = r :: cur) ∧
     (length cur = MAX_LOGS →
        ∃ front oldest, cur = front ++ [oldest] ∧
                        take MAX_LOGS (r :: cur) = r :: front)).
Proof.
  intros s r.
  apply (C3_store_bounded sample_id ascii_decode s r).
  exists true, None, 0%Z, (sample_busy_trace ++ [Run 0]). split; [simpl; lia|].
  vm_compute. reflexivity.
Defined.

(** C3, as stated, fails for a record with a new identifier and no url: the
    stored logs stay as they are, the record is not prepended. *)
Lemma C3_counterexample :
  findIndex sample_urlless [] = None ∧
  apply_record sample_urlless (Some []) = Some [] ∧
  apply_record sample_urlless (Some []) ≠ Some (take MAX_LOGS [sample_urlless]).
Proof.
  assert (apply_record sample_urlless (Some []) = Some []) as H
    by (vm_compute; reflexivity).
  split; [reflexivity|]. split; [exact H|]. rewrite H. discriminate.
Qed.

Lemma C7_urlless_new_record_dropped_witness :
  let s := state_after sample_id ascii_decode sample_urlless_trace in
  ∃ s', exec sample_id ascii_decode (Run 0) s = Some s' ∧
    storage_logs s' = storage_logs s ∧
    heap s' = heap s ∧ pendingRequests s' = pendingRequests s ∧
    match saveQueue s with
    | [] => isSaving s' = false ∧ saveQueue s' = [] ∧
            tasks s' = delete 0 (tasks s)
    | next :: rest => isSaving s' = true ∧ saveQueue s' = rest ∧
            tasks s' = delete 0 (tasks s) ++ [GetLogs next]
    end.
Proof.
  intros s.
  apply (C7_urlless_new_record_dropped sample_id ascii_decode s 0 5 None).
  - exists true, None, 0%Z, sample_urlless_trace. split; [simpl; lia|].
    vm_compute. reflexivity.
  - vm_compute. reflexivity.
  - vm_compute. reflexivity.
  - vm_compute. reflexivity.
Defined.

Lemma C5_toggle_gate_witness :
  let s := state_after sample_id ascii_decode sample_toggled_off_trace in
  let d := sample_details "7" in
  let s0 := with_isRecording false s in
  storage_isRecording s = false ∧
  (let s2 := onCompleted d s0 in
   pendingRequests s2 !! requestId d = Some 2 ∧
   snapshot (heap s2) 2
   = <["status" := SLeaf (LNum (statusCode d))]> (snapshot (heap s) 2) ∧
   work s2 = work s ++ [length (heap s2) - 1] ∧
   snapshot (heap s2) (length (heap s2) - 1) = snapshot (heap s2) 2) ∧
  (let s3 := onErrorOccurred d s0 in
   pendingRequests s3 !! requestId d = None ∧
   work s3 = work s ++ [length (heap s3) - 1] ∧
   snapshot (heap s3) (length (heap s3) - 1)
   = <["error" := SLeaf (LStr (error d))]>
       (<["status" := SLeaf (LNum 0)]> (snapshot (heap s) 2))).
Proof.
  intros s d s0. split; [reflexivity|].
  destruct (C5_toggle_gate sample_id ascii_decode s d BeforeRequest false)
    as (_ & _ & _ & _ & _ & _ & Hacts).
  apply (Hacts 2).
  - exists true, None, 0%Z, sample_toggled_off_trace. split; [simpl; lia|].
    vm_compute. reflexivity.
  - vm_compute. reflexivity.
  - reflexivity.
Defined.

(** C5, as stated, fails for the completed listener: with the toggle off it
    still updates the pending entry of a request that began earlier and
    enqueues its snapshot. *)
Lemma C5_counterexample :
  let s := state_after sample_id ascii_decode sample_toggled_off_trace in
  let s' := state_after sample_id ascii_decode
              (sample_toggled_off_trace ++ [CompletedEv (sample_details "7")]) in
  storage_isRecording s = false ∧
  exec sample_id ascii_decode (CompletedEv (sample_details "7")) s = Some s' ∧
  get_prop 2 "status" s = Some (VNum 0) ∧
  get_prop 2 "status" s' = Some (VNum 200) ∧
  work s = [] ∧ work s' = [4].
Proof. vm_compute. repeat split; reflexivity. Qed.

(** C6. At the failing input (request 7 has begun, then fails) the errored
    listener removes the pending entry at once and schedules no timer, while
    the completed listener keeps the entry and schedules its removal 2000 ms
    later.  A callback still outstanding at the error then builds a new
    entry, whose snapshot empties the stored request headers. *)
Lemma C6_errored_removes_at_once :
  let d := sample_details "7" in
  let s := state_after sample_id ascii_decode sample_headers_in_flight_trace in
  pendingRequests s !! "7" = Some 2 ∧
  (pendingRequests (onErrorOccurred d s) !! "7" = None ∧
   filter is_timeout (tasks (onErrorOccurred d s)) = []) ∧
  (pendingRequests (onCompleted d s) !! "7" = Some 2 ∧
   filter is_timeout (tasks (onCompleted d s)) = [Timeout "7" 2000]) ∧
  (let before := state_after sample_id ascii_decode
       (sample_headers_in_flight_trace ++ [ErrorOccurredEv d; Run 1; Run 1; Run 1; Run 1]) in
   let after := state_after sample_id ascii_decode
       (sample_headers_in_flight_trace
        ++ [ErrorOccurredEv d; Run 1; Run 1; Run 1; Run 1;
            Run 0; Run 0; Run 0; Run 0; Run 0]) in
   stored_field "requestHeaders" before
     = Some (SObj {[ "Authorization" := LStr "Bearer t" ]}) ∧
   stored_field "error" before = Some (SLeaf (LStr "net::ERR_FAILED")) ∧
   tasks before = [CbIsRecording HeadersReceived d true] ∧
   tasks after = [] ∧ isSaving after = false ∧
   stored_field "requestHeaders" after = Some (SObj ∅)).
Proof. vm_compute. repeat split; reflexivity. Qed.


Lemma C8_single_override_rule_witness :
  let r2 := override_rule "https://api.x/v2?draft=1" sample_token in
  let set1 := Dnr.SET_REQUEST_HEADERS "https://api.x/" sample_cookie in
  let set2 := Dnr.SET_REQUEST_HEADERS "https://api.x/v2?draft=1" sample_token in
  (Dnr.id r2 = 1%Z ∧
   Dnr.urlFilter (Dnr.condition r2) = "https://api.x/v2" ∧
   (∃ m, Dnr.requestHeaders (Dnr.action r2) !! 0 = Some m ∧
         Dnr.header m = Some "X-Token") ∧
   rules_after accept_all [set1; set2] = [r2] ∧
   rules_after accept_all [set1; set2; Dnr.CLEAR_REQUEST_HEADERS] = []).
Proof.
  intros r2 set1 set2.
  destruct (C8_single_override_rule accept_all [] "https://api.x/"
              "https://api.x/v2?draft=1" sample_cookie sample_token)
    as ((Hid & Hurl & _ & _ & _ & Hhs) & _ & _ & Hacc & _ & Hclear).
  destruct (Hacc eq_refl) as [Hset _].
  destruct (Hhs 0 _ eq_refl) as (m & Hm & _ & _ & _ & Hname).
  split; [exact Hid|]. split; [exact Hurl|].
  split; [exists m; split; [exact Hm|apply Hname; by left]|].
  split; [exact Hset|exact Hclear].
Defined.

(** C8, as stated, fails when the browser rejects the rule of the second
    message, as it does for a url that has nothing before its question
    mark (the filter of the rule is empty): the rule of the first message
    stays active, with the first header list, and the second message is
    answered with the error. *)
Lemma C8_counterexample :
  let set1 := Dnr.SET_REQUEST_HEADERS "https://api.x/" sample_cookie in
  let set2 := Dnr.SET_REQUEST_HEADERS "?page=2" sample_token in
  let r1 := override_rule "https://api.x/" sample_cookie in
  let r2 := override_rule "?page=2" sample_token in
  Dnr.urlFilter (Dnr.condition r2) = "" ∧
  rules_after reject_empty_filter [set1; set2] = [r1] ∧
  Dnr.requestHeaders (Dnr.action r1) ≠ Dnr.requestHeaders (Dnr.action r2) ∧
  (onMessage reject_empty_filter set2 (rules_after reject_empty_filter [set1])).2
  = Some {| Dnr.success := false;
            Dnr.error := Some "Rule with id 1 has an empty urlFilter" |}.
Proof.
  intros set1 set2 r1 r2. split; [reflexivity|].
  split; [vm_compute; reflexivity|]. split; [discriminate|].
  vm_compute. reflexivity.
Qed.




Lemma C4_status_transitions_witness :
  let s := state_after sample_id ascii_decode sample_busy_trace in
  let d := sample_details "7" in
  let p := BeforeSendHeaders in
  (let s2 := recording_got ascii_decode p d true s in
   ∃ log,
     pendingRequests s2 !! requestId d = Some log ∧
     work s2 = work s ++ [length (heap s2) - 1] ∧
     snapshot (heap s2) (length (heap s2) - 1) !! "status"
     = snapshot (heap s2) log !! "status" ∧
     snapshot (heap s2) log !! "status"
     = match pendingRequests s !! requestId d with
       | Some old => snapshot (heap s) old !! "status"
       | None => Some (SLeaf (LNum 0))
       end) ∧
  (∀ log, pendingRequests s !! requestId d = Some log →
     isApiRequest d = true →
     (let s2 := onCompleted d s in
      snapshot (heap s2) log !! "status" = Some (SLeaf (LNum (statusCode d))) ∧
      snapshot (heap s2) (length (heap s2) - 1) !! "status"
      = Some (SLeaf (LNum (statusCode d)))) ∧
     (let s3 := onErrorOccurred d s in
      work s3 = work s ++ [length (heap s3) - 1] ∧
      snapshot (heap s3) (length (heap s3) - 1) !! "status"
      = Some (SLeaf (LNum 0)) ∧
      snapshot (heap s3) (length (heap s3) - 1) !! "error"
      = Some (SLeaf (LStr (error d))))) ∧
  (∀ r logs newLogs v,
     r !! "id" = Some (SLeaf (LStr (requestId d))) → r !! "status" = Some v →
     decide_save r logs = Write newLogs →
     ∃ stored, stored_in (requestId d) (Some newLogs) = Some stored ∧
               stored !! "status" = Some v).
Proof.
  intros s d p.
  apply (C4_status_transitions sample_id ascii_decode s d p).
  apply sample_busy_reachable.
Defined.

(** C4, as stated, fails when an errored event follows the completed event
    of the same request while its entry is still pending: the stored status
    goes from 200 back to 0. *)
Lemma C4_counterexample :
  let before := run_settled sample_id ascii_decode sample_completed
                  (init true None 0%Z) in
  let after := run_settled sample_id ascii_decode sample_completed_then_failed
                 (init true None 0%Z) in
  stored_value "7" "status" before = Some (SLeaf (LNum 200)) ∧
  isSaving before = false ∧ tasks before = [Timeout "7" 2000] ∧
  stored_value "7" "status" after = Some (SLeaf (LNum 0)) ∧
  stored_value "7" "error" after = Some (SLeaf (LStr "net::ERR_FAILED")) ∧
  isSaving after = false ∧ tasks after = [Timeout "7" 2000].
Proof. vm_compute. repeat split; reflexivity. Qed.

(** * The further properties at sample inputs *)

Ltac sample_reachable tr :=
  exists true, None, 0%Z, tr; split; [simpl; lia|vm_compute; reflexivity].

Lemma X2_rejected_rule_keeps_rules_witness :
  onMessage reject_empty_filter
    (Dnr.SET_REQUEST_HEADERS "?page=2" sample_token) [sample_foreign_rule]
  = ([sample_foreign_rule],
     Some {| Dnr.success := false;
             Dnr.error := Some "Rule with id 1 has an empty urlFilter" |}) ∧
  (∀ ms url1 headers1,
     reject_empty_filter (override_rule url1 headers1) = None →
     rules_after reject_empty_filter
       (ms ++ [Dnr.SET_REQUEST_HEADERS url1 headers1;
               Dnr.SET_REQUEST_HEADERS "?page=2" sample_token])
     = [override_rule url1 headers1]).
Proof.
  apply (X2_rejected_rule_keeps_rules reject_empty_filter "?page=2" sample_token
           [sample_foreign_rule] "Rule with id 1 has an empty urlFilter").
  vm_compute. reflexivity.
Defined.

Lemma X5_entries_not_shared_witness :
  let s := state_after sample_id ascii_decode (sample_two_requests_trace ++ [Run 1]) in
  entries_distinct s ∧
  ∀ id l, pendingRequests s !! id = Some l →
    is_Some (heap s !! l) ∧ (l ∉ work s) ∧
    (∀ k r, get_prop l k s = Some (VRef r) →
            r ≠ l ∧ ∀ id', pendingRequests s !! id' ≠ Some r).
Proof.
  intros s. apply (X5_entries_not_shared sample_id ascii_decode s).
  sample_reachable (sample_two_requests_trace ++ [Run 1]).
Defined.

Lemma X6_entry_untouched_by_others_witness :
  let s := state_after sample_id ascii_decode sample_two_requests_trace in
  let s' := state_after sample_id ascii_decode (sample_two_requests_trace ++ [Run 1]) in
  pendingRequests s' !! "7" = Some 2 ∧ heap s' !! 2 = heap s !! 2 ∧
  snapshot (heap s') 2 = snapshot (heap s) 2.
Proof.
  intros s s'.
  apply (X6_entry_untouched_by_others sample_id ascii_decode s s' (Run 1) "7" 2).
  - sample_reachable sample_two_requests_trace.
  - vm_compute. reflexivity.
  - vm_compute. reflexivity.
  - vm_compute. reflexivity.
Defined.

Lemma X7_one_snapshot_per_phase_witness :
  let s := state_after sample_id ascii_decode sample_proto_callback_trace in
  let s' := state_after sample_id ascii_decode
              (sample_proto_callback_trace ++ [Run 1]) in
  (r ← enqueued ascii_decode (Run 1) s; r !! "requestHeaders")
  = Some (SObj {[ "Accept" := LStr "" ]}) ∧
  match enqueued ascii_decode (Run 1) s with
  | Some r =>
      work s' = work s ++ [length (heap s') - 1] ∧
      snapshot (heap s') (length (heap s') - 1) = r ∧
      storage_logs s' = storage_logs s
  | None =>
      (work s' = work s ∧ storage_logs s' = storage_logs s) ∨
      (∃ q, work s = q :: work s' ∧
            storage_logs s' = apply_record (snapshot (heap s) q) (storage_logs s))
  end.
Proof.
  intros s s'. split; [vm_compute; reflexivity|].
  apply (X7_one_snapshot_per_phase sample_id ascii_decode s s' (Run 1)).
  - sample_reachable sample_proto_callback_trace.
  - vm_compute. reflexivity.
Defined.

Lemma X8_only_api_requests_stored_witness :
  let s := state_after sample_id ascii_decode (sample_busy_trace ++ [Run 0]) in
  Forall (recordable) (default [] (storage_logs s)) ∧
  (∀ id l, pendingRequests s !! id = Some l → recordable (snapshot (heap s) l)) ∧
  (∀ q, q ∈ work s → recordable (snapshot (heap s) q)).
Proof.
  intros s.
  apply (X8_only_api_requests_stored sample_id ascii_decode
           (sample_busy_trace ++ [Run 0]) true None 0%Z s).
  - simpl. lia.
  - simpl. constructor.
  - vm_compute. reflexivity.
Defined.

Lemma X9_queue_drains_witness :
  let s := state_after sample_id ascii_decode sample_busy_trace in
  (∀ tr s1, Forall is_run tr → run sample_id ascii_decode tr s = Some s1 →
            length tr + steps_left s1 ≤ steps_left s) ∧
  (∀ tr s1, run sample_id ascii_decode tr s = Some s1 → waiting s1 →
            isSaving s1 = false ∧ saveQueue s1 = [] ∧ in_flight s1 = [] ∧
            work s1 = []) ∧
  (let s' := settle sample_id ascii_decode (steps_left s) s in
   waiting s' ∧ isSaving s' = false ∧ saveQueue s' = [] ∧ in_flight s' = [] ∧
   work s' = [] ∧
   Forall (λ t, ∃ id due, t = Timeout id due ∧ (clock s' < due)%Z) (tasks s')).
Proof.
  intros s. apply (X9_queue_drains sample_id ascii_decode s).
  sample_reachable sample_busy_trace.
Defined.

Lemma X10_drain_applies_in_order_witness :
  let s := state_after sample_id ascii_decode sample_busy_trace in
  (∀ tr s1, Forall is_run tr → run sample_id ascii_decode tr s = Some s1 →
     apply_all (heap s1) (work s1) (storage_logs s1)
     = apply_all (heap s) (work s) (storage_logs s) ∧
     (waiting s1 →
      storage_logs s1 = apply_all (heap s) (work s) (storage_logs s))) ∧
  storage_logs (settle sample_id ascii_decode (steps_left s) s)
  = apply_all (heap s) (work s) (storage_logs s).
Proof.
  intros s. apply (X10_drain_applies_in_order sample_id ascii_decode s).
  - sample_reachable sample_busy_trace.
  - vm_compute. repeat constructor.
Defined.

Lemma X11_stored_ids_distinct_witness :
  distinct_ids
    (default [] (storage_logs
       (state_after sample_id ascii_decode
          (sample_busy_trace ++ [Run 0; Run 0; Run 0; Run 0; Run 0])))).
Proof.
  apply (X11_stored_ids_distinct sample_id ascii_decode
           (sample_busy_trace ++ [Run 0; Run 0; Run 0; Run 0; Run 0])
           true None 0%Z).
  - simpl. lia.
  - intros i j ri rj Hi. simpl in Hi. by rewrite lookup_nil in Hi.
  - vm_compute. reflexivity.
Defined.

Lemma X12_stored_records_kept_witness :
  let s := state_after sample_id ascii_decode
             (sample_busy_trace ++ [Run 0; Run 0; Run 0; Run 0]) in
  let s' := state_after sample_id ascii_decode
              (sample_busy_trace ++ [Run 0; Run 0; Run 0; Run 0; Run 0]) in
  let old := snapshot (heap s) 3 in
  length (default [] (storage_logs s)) ≤ length (default [] (storage_logs s')) ∧
  ((∃ new, default [] (storage_logs s') !! 0 = Some new ∧
           (new = old ∨ ∃ r, new = spread old r ∧
                             strict_eq (old !! "id") (r !! "id") = true) ∧
           ∀ k, is_Some (old !! k) → is_Some (new !! k)) ∨
   default [] (storage_logs s') !! 1 = Some old ∨
   (1 = MAX_LOGS ∧ length (default [] (storage_logs s')) = MAX_LOGS)).
Proof.
  intros s s' old.
  apply (X12_stored_records_kept sample_id ascii_decode s s' (Run 0) 0 old).
  - sample_reachable (sample_busy_trace ++ [Run 0; Run 0; Run 0; Run 0]).
  - vm_compute. reflexivity.
  - vm_compute. reflexivity.
Defined.

Lemma X14_off_records_nothing_witness :
  let s := default (init false None 0%Z)
             (run sample_id ascii_decode sample_off_trace (init false None 0%Z)) in
  storage_logs s = None ∧ storage_isRecording s = false ∧
  pendingRequests s = ∅ ∧ heap s = [] ∧
  isSaving s = false ∧ saveQueue s = [] ∧ in_flight s = [].
Proof.
  intros s.
  apply (X14_off_records_nothing sample_id ascii_decode sample_off_trace None 0%Z s).
  - unfold sample_off_trace. rewrite !not_elem_of_cons.
    repeat split; try discriminate. apply not_elem_of_nil.
  - vm_compute. reflexivity.
Defined.

Lemma X15_headers_merged_by_name_witness :
  let s := state_after sample_id ascii_decode sample_busy_trace in
  let d := sample_proto_details "7" in
  let s2 := recording_got ascii_decode BeforeSendHeaders d true s in
  let base := base_record (requestId d) s in
  ∃ log m,
    pendingRequests s2 !! requestId d = Some log ∧
    snapshot (heap s2) log !! header_field BeforeSendHeaders = Some (SObj m) ∧
    (∀ n, n ≠ "__proto__" →
          m !! n = match last_named n (headers_of BeforeSendHeaders d) with
                   | Some h => Some (LStr (value_or_empty h))
                   | None => header_map (header_field BeforeSendHeaders) base !! n
                   end) ∧
    m !! "__proto__" = header_map (header_field BeforeSendHeaders) base !! "__proto__" ∧
    (∀ k, k ≠ header_field BeforeSendHeaders →
          snapshot (heap s2) log !! k = base !! k) ∧
    snapshot (heap s2) (length (heap s2) - 1) = snapshot (heap s2) log.
Proof.
  intros s d.
  apply (X15_headers_merged_by_name sample_id ascii_decode s d BeforeSendHeaders).
  - sample_reachable sample_busy_trace.
  - discriminate.
Defined.

Lemma X16_begin_sets_scalars_witness :
  let s := state_after sample_id ascii_decode sample_busy_trace in
  let d := sample_details "7" in
  let s2 := recording_got ascii_decode BeforeRequest d true s in
  let base := base_record (requestId d) s in
  ∃ log,
    pendingRequests s2 !! requestId d = Some log ∧
    snapshot (heap s2) log !! "url" = Some (SLeaf (LStr (url d))) ∧
    snapshot (heap s2) log !! "method" = Some (SLeaf (LStr (method d))) ∧
    snapshot (heap s2) log !! "type" = Some (SLeaf (LStr (type d))) ∧
    (∀ k, k ∉ ["url"; "method"; "type"; "requestBody"] →
          snapshot (heap s2) log !! k = base !! k) ∧
    ((requestBody d = None ∨
      ∃ body, requestBody d = Some body ∧ formData body = None ∧
              (raw body = None ∨ raw body = Some [])) →
     snapshot (heap s2) log !! "requestBody" = base !! "requestBody") ∧
    snapshot (heap s2) (length (heap s2) - 1) = snapshot (heap s2) log.
Proof.
  intros s d. apply (X16_begin_sets_scalars sample_id ascii_decode s d).
  sample_reachable sample_busy_trace.
Defined.

Lemma X17_getOrCreatePending_lookup_witness :
  let s := state_after sample_id ascii_decode sample_busy_trace in
  let log := (getOrCreatePending "9" s).1 in
  let s1 := (getOrCreatePending "9" s).2 in
  pendingRequests s1 !! "9" = Some log ∧
  getOrCreatePending "9" s1 = (log, s1) ∧
  (∀ id', id' ≠ "9" → pendingRequests s1 !! id' = pendingRequests s !! id') ∧
  (∀ l, pendingRequests s !! "9" = Some l → log = l ∧ s1 = s) ∧
  (pendingRequests s !! "9" = None →
   length (heap s) ≤ log ∧
   snapshot (heap s1) log = fresh_record "9" (clock s) ∧
   ∀ l, l < length (heap s) → heap s1 !! l = heap s !! l).
Proof.
  intros s. apply (X17_getOrCreatePending_lookup sample_id ascii_decode s "9").
  sample_reachable sample_busy_trace.
Defined.

Lemma X18_completed_keeps_errored_removes_witness :
  let s := state_after sample_id ascii_decode sample_busy_trace in
  let d := sample_details "7" in
  (pendingRequests (onCompleted d s) = pendingRequests s ∧
   filter is_timeout (tasks (onCompleted d s))
   = filter is_timeout (tasks s)
     ++ [Timeout (requestId d) (clock s + GRACE_DELAY)%Z] ∧
   storage_logs (onCompleted d s) = storage_logs s ∧
   base_record (requestId d) (onCompleted d s)
   = <["status" := SLeaf (LNum (statusCode d))]> (snapshot (heap s) 2)) ∧
  (pendingRequests (onErrorOccurred d s)
   = delete (requestId d) (pendingRequests s) ∧
   filter is_timeout (tasks (onErrorOccurred d s)) = filter is_timeout (tasks s) ∧
   storage_logs (onErrorOccurred d s) = storage_logs s ∧
   base_record (requestId d) (onErrorOccurred d s)
   = fresh_record (requestId d) (clock s)).
Proof.
  intros s d.
  apply (X18_completed_keeps_errored_removes sample_id ascii_decode s d 2).
  - sample_reachable sample_busy_trace.
  - vm_compute. reflexivity.
  - vm_compute. reflexivity.
Defined.

Lemma X19_records_well_formed_witness :
  let s := state_after sample_id ascii_decode
             (sample_two_requests_trace ++ [Run 1; Run 0; Run 0; Run 0]) in
  (∀ id l, pendingRequests s !! id = Some l →
           well_formed id (snapshot (heap s) l)) ∧
  (∀ q, q ∈ work s → ∃ id, well_formed id (snapshot (heap s) q)) ∧
  Forall (λ r, ∃ id, well_formed id r) (default [] (storage_logs s)).
Proof.
  intros s.
  apply (X19_records_well_formed sample_id ascii_decode
           (sample_two_requests_trace ++ [Run 1; Run 0; Run 0; Run 0])
           true None 0%Z s).
  - simpl. lia.
  - simpl. constructor.
  - vm_compute. reflexivity.
Defined.

Lemma X20_no_stale_write_witness :
  let s := state_after sample_id ascii_decode
             (sample_busy_trace ++ [Run 0; Run 0; Run 0]) in
  let t := CbGetLogs 6 (storage_logs s) in
  isSaving s = true ∧ in_flight s = [t] ∧ storage_logs s = storage_logs s.
Proof.
  intros s t.
  apply (X20_no_stale_write sample_id ascii_decode s 0 t).
  - sample_reachable (sample_busy_trace ++ [Run 0; Run 0; Run 0]).
  - vm_compute. reflexivity.
  - reflexivity.
Defined.
